(** * papercraft: face adjacency and unfolding traversal

    A shallow embedding of [unfold.c] (vertex equality, oriented edge
    matching, the adjacency loops of [main] and the recursive traversal
    [recurse]) and of [stl_3d.c] (vertex deduplication and neighbour
    search), followed by the properties established about them.

    Conventions.
    - C [float] is IEEE-754 binary32 and C [double] is binary64, both with
      round-to-nearest-even, expression evaluation in the type of the
      operands; they are the [spec_float] operations of the standard
      library at precision 24/128 and 53/1024.
    - A pointer into the [calloc]ed face (vertex) array is the index of the
      element; the null pointer is [None].
    - An [int] used only as a truth value is a [bool].
    - Reading the input file is outside the model: the functions start from
      the list of triangle records, whose length is [num_triangles]. *)

From Stdlib Require Import ZArith Bool Lia QArith.
From Stdlib Require Import Floats.SpecFloat.
From stdpp Require Import base list.

(** ** Fixed-size arrays of three elements ([T x[3]]) *)

Record array3 (A : Type) : Type := Array3 { elt0 : A; elt1 : A; elt2 : A }.
Arguments Array3 {A} _ _ _.
Arguments elt0 {A} _.
Arguments elt1 {A} _.
Arguments elt2 {A} _.

(** [a[k]].  Every index the program uses is a loop counter below 3 or a
    value [(e+1) % 3]; an index above 2, undefined in C, never occurs and
    is mapped to the last cell. *)
Definition get3 {A : Type} (a : array3 A) (k : nat) : A :=
  match k with
  | 0 => elt0 a
  | 1 => elt1 a
  | _ => elt2 a
  end.

(** [a[k] = x]. *)
Definition set3 {A : Type} (a : array3 A) (k : nat) (x : A) : array3 A :=
  match k with
  | 0 => Array3 x (elt1 a) (elt2 a)
  | 1 => Array3 (elt0 a) x (elt2 a)
  | _ => Array3 (elt0 a) (elt1 a) x
  end.

Definition fill3 {A : Type} (x : A) : array3 A := Array3 x x x.

(** The loop [for (int edge = 0 ; edge < 3 ; edge++)]. *)
Definition edges : list nat := [0; 1; 2].

(** ** Floating point *)

Definition float32 : Type := spec_float.
Definition float64 : Type := spec_float.

Definition fsub : float32 -> float32 -> float32 := SFsub 24 128.
Definition fadd : float32 -> float32 -> float32 := SFadd 24 128.
Definition fmul : float32 -> float32 -> float32 := SFmul 24 128.

(** The implicit conversion [float -> double] (exact). *)
Definition double_of_float (x : float32) : float64 :=
  match x with
  | S754_finite s m e => binary_round 53 1024 s m e
  | _ => x
  end.

(** The conversion [double -> float] of an assignment (rounds). *)
Definition float_of_double (x : float64) : float32 :=
  match x with
  | S754_finite s m e => binary_round 24 128 s m e
  | _ => x
  end.

Definition double_of_Z (z : Z) : float64 := binary_normalize 53 1024 z 0 false.
Definition float_of_Z (z : Z) : float32 := binary_normalize 24 128 z 0 false.

(** [z * 2^e] as a [float], for writing down test coordinates. *)
Definition float_of_Z_exp (z e : Z) : float32 := binary_normalize 24 128 z e false.

Definition dlt : float64 -> float64 -> bool := SFltb.
Definition dabs : float64 -> float64 := SFabs.
Definition dneg : float64 -> float64 := SFopp.
Definition dsqrt : float64 -> float64 := SFsqrt 53 1024.

(** ** unfold.c *)

Module Unfold.

(** [#define EPS 0.0001]: the [double] nearest to 1/10000. *)
Definition EPS : float64 := SFdiv 53 1024 (double_of_Z 1) (double_of_Z 10000).

Record v3_t : Type := V3 { p : array3 float32 }.

Record stl_face_t : Type := StlFace {
  normal : v3_t;
  corner : array3 v3_t;   (* [v3_t p[3]] *)
  attr : Z
}.

Record face_t : Type := Face {
  sides : array3 float32;
  next : array3 (option nat);
  next_edge : array3 Z;
  coplanar : array3 Z;
  used : bool
}.

(** A face as [calloc] leaves it: all bytes zero. *)
Definition face_zero : face_t :=
  Face (fill3 (S754_zero false)) (fill3 None) (fill3 0%Z) (fill3 0%Z) false.

(** The test [-EPS < d && d < EPS] on one [float] difference, which is
    converted to [double] for the two comparisons. *)
Definition in_eps (d : float32) : bool :=
  dlt (dneg EPS) (double_of_float d) && dlt (double_of_float d) EPS.

Definition v3_eq (v1 v2 : v3_t) : bool :=
  let dx := fsub (get3 (p v1) 0) (get3 (p v2) 0) in
  let dy := fsub (get3 (p v1) 1) (get3 (p v2) 1) in
  let dz := fsub (get3 (p v1) 2) (get3 (p v2) 2) in
  if in_eps dx && in_eps dy && in_eps dz then true else false.

Definition edge_eq (t0 t1 : stl_face_t) (e0 e1 : nat) : bool :=
  let v0 := get3 (corner t0) e0 in
  let v1 := get3 (corner t0) e1 in
  if v3_eq v0 (get3 (corner t1) 0) && v3_eq v1 (get3 (corner t1) 1) then true
  else if v3_eq v0 (get3 (corner t1) 1) && v3_eq v1 (get3 (corner t1) 0) then true
  else if v3_eq v0 (get3 (corner t1) 0) && v3_eq v1 (get3 (corner t1) 2) then true
  else if v3_eq v0 (get3 (corner t1) 2) && v3_eq v1 (get3 (corner t1) 0) then true
  else if v3_eq v0 (get3 (corner t1) 1) && v3_eq v1 (get3 (corner t1) 2) then true
  else if v3_eq v0 (get3 (corner t1) 2) && v3_eq v1 (get3 (corner t1) 1) then true
  else false.

Definition edge_eq2 (t0 t1 : stl_face_t) (e0 e1 : nat) : bool :=
  let v00 := get3 (corner t0) e0 in
  let v01 := get3 (corner t0) ((e0 + 1) mod 3) in
  let v10 := get3 (corner t1) e1 in
  let v11 := get3 (corner t1) ((e1 + 1) mod 3) in
  if v3_eq v00 v11 && v3_eq v01 v10 then true else false.

Definition v3_len (v0 v1 : v3_t) : float64 :=
  let dx := fsub (get3 (p v0) 0) (get3 (p v1) 0) in
  let dy := fsub (get3 (p v0) 1) (get3 (p v1) 1) in
  let dz := fsub (get3 (p v0) 2) (get3 (p v1) 2) in
  dsqrt (double_of_float (fadd (fadd (fmul dx dx) (fmul dy dy)) (fmul dz dz))).

Definition coplanar_check (f1 f2 : stl_face_t) : Z := 0%Z.

(** *** The traversal [recurse] *)

(** One line of standard output: [printf("%p %d %f %f %f\n", ...)]. *)
Record record_t : Type := Record_ {
  r_face : nat;
  r_start_edge : Z;
  r_sides : array3 float32
}.

(** What the traversal touches: the face array, standard output and the
    function's [static int depth]. *)
Record tstate : Type := TState {
  faces : list face_t;
  output : list record_t;
  depth : Z
}.

Inductive fault : Type :=
| NullDeref      (* a member of a null [face_t *] is read *)
| BadPointer     (* a pointer outside the face array is dereferenced *)
| OutOfFuel.     (* the recursion bound of the model is exhausted *)

Inductive result (A : Type) : Type :=
| Ok (a : A)
| Crash (e : fault).
Arguments Ok {A} _.
Arguments Crash {A} _.

Definition M (A : Type) : Type := tstate -> tstate * result A.

Definition ret {A : Type} (a : A) : M A := fun st => (st, Ok a).

Definition bind {A B : Type} (m : M A) (k : A -> M B) : M B :=
  fun st =>
    match m st with
    | (st', Ok a) => k a st'
    | (st', Crash e) => (st', Crash e)
    end.

Definition crash {A : Type} (e : fault) : M A := fun st => (st, Crash e).

Notation "x <- m ;; k" := (bind m (fun x => k))
  (at level 100, m at next level, right associativity).
Notation "m ;;; k" := (bind m (fun _ => k))
  (at level 100, right associativity).

(** [*f] for a non-null [f]. *)
Definition load (f : nat) : M face_t :=
  fun st =>
    match faces st !! f with
    | Some fc => (st, Ok fc)
    | None => (st, Crash BadPointer)
    end.

Definition set_used (fc : face_t) : face_t :=
  Face (sides fc) (next fc) (next_edge fc) (coplanar fc) true.

(** [f->used = 1]. *)
Definition mark_used (f : nat) : M unit :=
  fun st =>
    match faces st !! f with
    | Some _ => (TState (alter set_used f (faces st)) (output st) (depth st), Ok tt)
    | None => (st, Crash BadPointer)
    end.

Definition incr_depth : M unit :=
  fun st => (TState (faces st) (output st) (depth st + 1), Ok tt).

Definition emit (r : record_t) : M unit :=
  fun st => (TState (faces st) (output st ++ [r]) (depth st), Ok tt).

(** A [for] loop over the values of [l]. *)
Fixpoint for_each {A : Type} (l : list A) (body : A -> M unit) : M unit :=
  match l with
  | [] => ret tt
  | x :: l' => body x ;;; for_each l' body
  end.

(** The body of the edge loop of [recurse]; [call] is the recursive call. *)
Definition recurse_edge (call : nat -> Z -> M Z) (f : nat) (edge : nat) : M unit :=
  fc <- load f ;;
  match get3 (next fc) edge with
  | None => crash NullDeref          (* [f2->used] with [f2 == NULL] *)
  | Some f2 =>
      fc2 <- load f2 ;;
      if used fc2 then ret tt        (* [continue] *)
      else call f2 (get3 (next_edge fc) edge) ;;; ret tt
  end.

Fixpoint recurse (fuel : nat) (f : nat) (start_edge : Z) : M Z :=
  match fuel with
  | 0 => crash OutOfFuel
  | S fuel' =>
      incr_depth ;;;
      mark_used f ;;;
      fc <- load f ;;
      emit (Record_ f start_edge (sides fc)) ;;;
      for_each edges (recurse_edge (recurse fuel') f) ;;;
      ret 0%Z
  end.

(** *** [main] *)

Definition set_sides (s : array3 float32) (fc : face_t) : face_t :=
  Face s (next fc) (next_edge fc) (coplanar fc) (used fc).

Definition set_next (e : nat) (v : option nat) (fc : face_t) : face_t :=
  Face (sides fc) (set3 (next fc) e v) (next_edge fc) (coplanar fc) (used fc).

Definition set_next_edge (e : nat) (v : Z) (fc : face_t) : face_t :=
  Face (sides fc) (next fc) (set3 (next_edge fc) e v) (coplanar fc) (used fc).

Definition set_coplanar (e : nat) (v : Z) (fc : face_t) : face_t :=
  Face (sides fc) (next fc) (next_edge fc) (set3 (coplanar fc) e v) (used fc).

(** The first loop: the three side lengths of every triangle. *)
Definition face_of_stl (stl : stl_face_t) : face_t :=
  set_sides
    (Array3
       (float_of_double (v3_len (get3 (corner stl) 0) (get3 (corner stl) 1)))
       (float_of_double (v3_len (get3 (corner stl) 1) (get3 (corner stl) 2)))
       (float_of_double (v3_len (get3 (corner stl) 2) (get3 (corner stl) 0))))
    face_zero.

(** The six assignments made when edge [edge] of face [i] matches edge
    [edge2] of face [j], in program order. *)
Definition link (stl stl2 : stl_face_t) (i j edge edge2 : nat)
    (fs : list face_t) : list face_t :=
  let fs := alter (set_next edge (Some j)) i fs in
  let fs := alter (set_next_edge edge (Z.of_nat edge2)) i fs in
  let fs := alter (set_next edge2 (Some i)) j fs in
  let fs := alter (set_next_edge edge2 (Z.of_nat edge)) j fs in
  let c := coplanar_check stl stl2 in
  let fs := alter (set_coplanar edge2 c) j fs in
  alter (set_coplanar edge c) i fs.

Definition is_null (x : option nat) : bool :=
  match x with
  | None => true
  | Some _ => false
  end.

(** The slot [f->next[e]] of face number [f]; null when [f] is not a face. *)
Definition slot (fs : list face_t) (f e : nat) : option nat :=
  match fs !! f with
  | Some fc => get3 (next fc) e
  | None => None
  end.

(** Body of the loop over [edge2]. *)
Definition match_edge2 (stl stl2 : stl_face_t) (i j edge : nat)
    (fs : list face_t) (edge2 : nat) : list face_t :=
  if negb (is_null (slot fs j edge2)) then fs
  else if negb (edge_eq2 stl stl2 edge edge2) then fs
  else link stl stl2 i j edge edge2 fs.

(** Body of the loop over [edge]. *)
Definition match_edge (stl stl2 : stl_face_t) (i j : nat)
    (fs : list face_t) (edge : nat) : list face_t :=
  if negb (is_null (slot fs i edge)) then fs
  else foldl (match_edge2 stl stl2 i j edge) fs edges.

(** Body of the loop over [j]. *)
Definition match_face (stl_faces : list stl_face_t) (i : nat)
    (fs : list face_t) (j : nat) : list face_t :=
  if decide (i = j) then fs
  else
    match stl_faces !! i, stl_faces !! j with
    | Some stl, Some stl2 => foldl (match_edge stl stl2 i j) fs edges
    | _, _ => fs
    end.

(** [f->next[0] && f->next[1] && f->next[2]]. *)
Definition all_matched (fs : list face_t) (i : nat) : bool :=
  negb (is_null (slot fs i 0)) && negb (is_null (slot fs i 1))
  && negb (is_null (slot fs i 2)).

(** Body of the loop over [i]; the second component collects the lines
    ["%d: missing edges?"] written to standard error, as the numbers [i]. *)
Definition match_all (stl_faces : list stl_face_t)
    (acc : list face_t * list nat) (i : nat) : list face_t * list nat :=
  let fs := foldl (match_face stl_faces i) acc.1 (seq 0 (length stl_faces)) in
  if all_matched fs i then (fs, acc.2) else (fs, acc.2 ++ [i]).

(** The two construction loops of [main]. *)
Definition build_graph (stl_faces : list stl_face_t) : list face_t * list nat :=
  foldl (match_all stl_faces) (face_of_stl <$> stl_faces, [])
    (seq 0 (length stl_faces)).

Record run_t : Type := Run {
  graph : list face_t;          (* the face array when the loops are done *)
  diagnostics : list nat;       (* standard error *)
  final : tstate;               (* the state when the process stops *)
  exit : result Z               (* the value [main] returns, or the crash *)
}.

(** [recurse(&faces[0], 0)], with a recursion bound no run can reach. *)
Definition traverse (fs : list face_t) (root : nat) (start_edge : Z) : tstate * result Z :=
  recurse (S (length fs)) root start_edge (TState fs [] 0).

Definition main (stl_faces : list stl_face_t) : run_t :=
  let g := build_graph stl_faces in
  let t := traverse g.1 0 0 in
  Run g.1 g.2 t.1 (match t.2 with Ok _ => Ok 0%Z | Crash e => Crash e end).

End Unfold.

(** ** stl_3d.c *)

Module Stl3d.

Import Unfold.

(** Modelled from the spec: the header [stl_3d.h] is missing; it declares
    [v3_t], [stl_vertex_t], [stl_face_t], [stl_3d_t] and [v3_eq].  The
    fields below are the ones [stl_3d.c] reads and writes.  [v3_t] is the
    three-[float] point of [unfold.c].  A vertex is "a unique Point3 plus
    the set of (face, corner-index) pairs referencing it", in order of
    discovery: [v_refs] lists [(face[k], face_num[k])] for [k < num_face]. *)
Record stl_vertex_t : Type := Vertex {
  v_p : v3_t;
  v_refs : list (nat * nat)
}.

Record stl_face_t : Type := SFace {
  vertex : array3 (option nat);
  face : array3 (option nat);
  angle : array3 float64
}.

Record stl_3d_t : Type := Stl3d {
  num_vertex : nat;
  num_face : nat;
  vertex_arr : list stl_vertex_t;   (* [vertex]; its length is the allocated capacity *)
  face_arr : list stl_face_t        (* [face] *)
}.

Record stl_3d_file_triangle_t : Type := FileTriangle {
  ft_normal : v3_t;
  ft_p : array3 v3_t;
  ft_attr : Z
}.

Inductive outcome (A : Type) : Type :=
| Done (a : A)
| Overflow (index capacity : nat).  (* [vertices[index]] written past the allocation *)
Arguments Done {A} _.
Arguments Overflow {A} _ _.

Definition vertex_zero : stl_vertex_t :=
  Vertex (V3 (fill3 (S754_zero false))) [].

Definition sface_zero : stl_face_t :=
  SFace (fill3 None) (fill3 None) (fill3 (S754_zero false)).

Definition set_v_p (q : v3_t) (v : stl_vertex_t) : stl_vertex_t :=
  Vertex q (v_refs v).

Definition add_ref (f j : nat) (v : stl_vertex_t) : stl_vertex_t :=
  Vertex (v_p v) (v_refs v ++ [(f, j)]).

Definition set_vertex (j : nat) (v : option nat) (f : stl_face_t) : stl_face_t :=
  SFace (set3 (vertex f) j v) (face f) (angle f).

Definition set_face (i : nat) (f2 : option nat) (f : stl_face_t) : stl_face_t :=
  SFace (vertex f) (set3 (face f) i f2) (angle f).

Definition set_angle (i : nat) (a : float64) (f : stl_face_t) : stl_face_t :=
  SFace (vertex f) (face f) (set3 (angle f) i a).

Section WithVertexEquality.

(** The point equality declared in the missing header. *)
Variable v3_eq : v3_t -> v3_t -> bool.

(** The scanning loop of [stl_vertex_find] over [x = 0 .. num_vertex-1]. *)
Fixpoint scan (vertices : list stl_vertex_t) (q : v3_t) (xs : list nat) : option nat :=
  match xs with
  | [] => None
  | x :: xs' =>
      match vertices !! x with
      | Some v => if v3_eq (v_p v) q then Some x else scan vertices q xs'
      | None => scan vertices q xs'   (* [x < num_vertex <= capacity]: not reached *)
      end
  end.

(** Returns the vertex found or created, the vertex array and
    [*num_vertex_ptr]. *)
Definition stl_vertex_find (vertices : list stl_vertex_t) (num_vertex : nat)
    (q : v3_t) : outcome (nat * list stl_vertex_t * nat) :=
  match scan vertices q (seq 0 num_vertex) with
  | Some x => Done (x, vertices, num_vertex)
  | None =>
      if decide (num_vertex < length vertices)
      then Done (num_vertex, alter (set_v_p q) num_vertex vertices, S num_vertex)
      else Overflow num_vertex (length vertices)
  end.

Definition ptr_eqb (a b : option nat) : bool := bool_decide (a = b).

Definition stl_has_edge (f : stl_face_t) (v1 v2 : option nat) : bool :=
  if negb (ptr_eqb (get3 (vertex f) 0) v1) && negb (ptr_eqb (get3 (vertex f) 1) v1)
     && negb (ptr_eqb (get3 (vertex f) 2) v1) then false
  else if negb (ptr_eqb (get3 (vertex f) 0) v2) && negb (ptr_eqb (get3 (vertex f) 1) v2)
     && negb (ptr_eqb (get3 (vertex f) 2) v2) then false
  else true.

Definition stl_angle (f1 f2 : stl_face_t) : float64 := S754_zero false.

(** Body of the loop over [j] in [stl_find_neighbors]. *)
Definition neighbor_step (f1 i : nat) (fs : list stl_face_t) (j : nat) : list stl_face_t :=
  if decide (f1 = j) then fs
  else
    match fs !! f1, fs !! j with
    | Some c1, Some c2 =>
        if negb (stl_has_edge c2 (get3 (vertex c1) ((i + 0) mod 3))
                                 (get3 (vertex c1) ((i + 1) mod 3)))
        then fs
        else
          let fs := alter (set_face i (Some j)) f1 fs in
          alter (set_angle i (stl_angle c1 c2)) f1 fs
    | _, _ => fs
    end.

Definition stl_find_neighbors (num_face : nat) (fs : list stl_face_t) (f1 : nat)
    : list stl_face_t :=
  foldl (fun fs i => foldl (neighbor_step f1 i) fs (seq 0 num_face)) fs edges.

(** Body of the loop over the corners [j] of triangle [i] in [stl_3d_parse]. *)
Definition add_corner (ft : stl_3d_file_triangle_t) (i : nat)
    (acc : outcome stl_3d_t) (j : nat) : outcome stl_3d_t :=
  match acc with
  | Overflow x c => Overflow x c
  | Done stl =>
      match stl_vertex_find (vertex_arr stl) (num_vertex stl) (get3 (ft_p ft) j) with
      | Overflow x c => Overflow x c
      | Done (v, vs, n) =>
          Done (Stl3d n (num_face stl)
                  (alter (add_ref i j) v vs)
                  (alter (set_vertex j (Some v)) i (face_arr stl)))
      end
  end.

Definition add_triangle (acc : outcome stl_3d_t)
    (ift : nat * stl_3d_file_triangle_t) : outcome stl_3d_t :=
  foldl (add_corner ift.2 ift.1) acc edges.

(** [stl_3d_parse] from the triangle records on. *)
Definition stl_3d_parse (fts : list stl_3d_file_triangle_t) : outcome stl_3d_t :=
  let num_triangles := length fts in
  let stl := Stl3d 0 num_triangles (replicate num_triangles vertex_zero)
               (replicate num_triangles sface_zero) in
  match foldl add_triangle (Done stl) (zip (seq 0 num_triangles) fts) with
  | Overflow x c => Overflow x c
  | Done stl =>
      Done (Stl3d (num_vertex stl) (num_face stl) (vertex_arr stl)
              (foldl (stl_find_neighbors (num_face stl)) (face_arr stl)
                 (seq 0 num_triangles)))
  end.

End WithVertexEquality.

End Stl3d.

(** ** Test meshes *)

Module Mesh.

Import Unfold.

Definition pt (x y z : Z) : v3_t :=
  V3 (Array3 (float_of_Z x) (float_of_Z y) (float_of_Z z)).

(** The point [(x * 2^-15, y * 2^-15, 0)]; [2^-15] is below [EPS]. *)
Definition tiny (x y : Z) : v3_t :=
  V3 (Array3 (float_of_Z_exp x (-15)) (float_of_Z_exp y (-15)) (float_of_Z 0)).

Definition tri (a b c : v3_t) : stl_face_t := StlFace (pt 0 0 0) (Array3 a b c) 0.

(** One isolated triangle. *)
Definition single : list stl_face_t :=
  [tri (pt 0 0 0) (pt 1 0 0) (pt 0 1 0)].

(** Two triangles sharing the edge between (0,0,0) and (1,0,0): connected,
    with an open boundary. *)
Definition pair : list stl_face_t :=
  [tri (pt 0 0 0) (pt 1 0 0) (pt 0 1 0); tri (pt 1 0 0) (pt 0 0 0) (pt 0 0 1)].

(** A closed tetrahedron with corner [(o,o,o)], wound consistently. *)
Definition tetrahedron (o : Z) : list stl_face_t :=
  let a := pt o o o in
  let b := pt (o + 1) o o in
  let c := pt o (o + 1) o in
  let d := pt o o (o + 1) in
  [tri a c b; tri a b d; tri b c d; tri a d c].

(** Two disjoint tetrahedra. *)
Definition two_tetrahedra : list stl_face_t := tetrahedron 0 ++ tetrahedron 10.

(** A large triangle and a small one (legs [2^-15]) along its first edge. *)
Definition sliver : list stl_face_t :=
  [tri (tiny 0 0) (tiny 1 0) (pt 1 1 1); tri (tiny 0 0) (tiny 1 0) (tiny 0 1)].

Definition file_triangle (t : stl_face_t) : Stl3d.stl_3d_file_triangle_t :=
  Stl3d.FileTriangle (normal t) (corner t) (attr t).

(** A fan of three triangles around the origin, wound consistently: face 0
    and face 1 share the edge between (0,0,0) and (1,1,0), face 1 and
    face 2 share the edge between (0,0,0) and (0,1,0).  The mesh is
    connected and open. *)
Definition fan : list stl_face_t :=
  [tri (pt 1 1 0) (pt 0 0 0) (pt 1 0 0);
   tri (pt 0 0 0) (pt 1 1 0) (pt 0 1 0);
   tri (pt 0 0 0) (pt 0 1 0) (pt (-1) 1 0)].

(** A face of [stl_3d.c] with vertices [a], [b], [c] and no neighbour yet. *)
Definition sface (a b c : nat) : Stl3d.stl_face_t :=
  Stl3d.SFace (Array3 (Some a) (Some b) (Some c)) (fill3 None)
    (fill3 (S754_zero false)).

(** Three faces; faces 1 and 2 both hold vertices 0 and 1, the ends of
    edge 0 of face 0. *)
Definition three_faces : list Stl3d.stl_face_t :=
  [sface 0 1 2; sface 1 0 3; sface 0 1 4].


(** [0.0001f]: [EPS] converted to [float], the [float] nearest to it. *)
Definition eps_float : float32 := float_of_double EPS.



End Mesh.

(** * Specification

    The predicates in which the properties of the two files are stated. *)

Import Unfold.


(** A coordinate that is a number: a zero or a finite value. *)
Definition is_number (x : float32) : bool :=
  match x with
  | S754_zero _ | S754_finite _ _ _ => true
  | S754_infinity _ | S754_nan => false
  end.

(** On one axis two coordinates lie strictly within the tolerance of each
    other: the absolute value of their [float] difference is below [EPS]. *)
Definition axis_close (a b : float32) : Prop :=
  dlt (dabs (double_of_float (fsub a b))) EPS = true.

(** Per-axis closeness of two points, on each of the three axes. *)
Definition pt_close (v1 v2 : v3_t) : Prop :=
  forall k, k < 3 -> axis_close (get3 (p v1) k) (get3 (p v2) k).

(** The pair [(f->next[e], f->next_edge[e])] when the slot is filled. *)
Definition link_of (fs : list face_t) (f e : nat) : option (nat * Z) :=
  match fs !! f with
  | Some fc =>
      match get3 (next fc) e with
      | Some b => Some (b, get3 (next_edge fc) e)
      | None => None
      end
  | None => None
  end.

(** The property [P] holds of the face array, which has one face for each
    triangle. *)
Definition kept (stl_faces : list stl_face_t) (P : list face_t -> Prop)
    (fs : list face_t) : Prop :=
  P fs /\ length fs = length stl_faces.

(** No slot of a face holds the face itself. *)
Definition no_self_link (fs : list face_t) : Prop :=
  forall i e, e < 3 -> slot fs i e <> Some i.

(** Edge [ea] of triangle [a] and edge [eb] of triangle [b] pass the
    matching test. *)
Definition edges_matched (stl_faces : list stl_face_t) (a ea b eb : nat) : Prop :=
  exists ta tb,
    stl_faces !! a = Some ta /\ stl_faces !! b = Some tb
    /\ edge_eq2 ta tb ea eb = true.

(** Every filled slot records a face of the mesh other than its owner and
    the number of that face's edge that matched. *)
Definition links_matched (stl_faces : list stl_face_t) (fs : list face_t) : Prop :=
  forall a e b s, e < 3 -> link_of fs a e = Some (b, s) ->
    exists eb, s = Z.of_nat eb /\ eb < 3 /\ a <> b
               /\ edges_matched stl_faces a e b eb.

(** A filled slot stays filled. *)
Definition fills_more (fs fs' : list face_t) : Prop :=
  forall a e, e < 3 -> slot fs a e <> None -> slot fs' a e <> None.

(** [f->used] for face number [f]. *)
Definition is_used (fs : list face_t) (i : nat) : bool :=
  match fs !! i with
  | Some fc => used fc
  | None => false
  end.

Definition unmark (fc : face_t) : face_t :=
  Face (sides fc) (next fc) (next_edge fc) (coplanar fc) false.

(** [b] is [a] with, at most, the [used] flag raised. *)
Definition face_le (a b : face_t) : Prop :=
  unmark a = unmark b /\ (used a = true -> used b = true).

(** The traversal's only effect on the face array: flags are raised. *)
Definition marks_more (fs fs' : list face_t) : Prop := Forall2 face_le fs fs'.

(** The number of faces not yet visited. *)
Definition unused_count (fs : list face_t) : nat :=
  length (filter (fun fc => used fc = false) fs).

(** A record was produced by descending through some filled slot that
    holds its face and its entering edge. *)
Definition has_parent (fs : list face_t) (r : record_t) : Prop :=
  exists pf e, e < 3 /\ link_of fs pf e = Some (r_face r, r_start_edge r).

(** From [st] to [st'] the records [new] were written, one for each face
    whose flag went up, and nothing else happened to the faces. *)
Record advances (st st' : tstate) (new : list record_t) : Prop := Advances {
  adv_faces : marks_more (faces st) (faces st');
  adv_output : output st' = output st ++ new;
  adv_fresh : forall i, i ∈ r_face <$> new <->
                is_used (faces st) i = false /\ is_used (faces st') i = true;
  adv_nodup : NoDup (r_face <$> new)
}.

(** What a piece of the edge loop does. *)
Definition descends (st st' : tstate) : Prop :=
  exists new, advances st st' new /\ Forall (has_parent (faces st)) new.

(** What a call [recurse(f, s)] does. *)
Definition visits (f : nat) (s : Z) (st st' : tstate) : Prop :=
  exists new, advances st st' new
    /\ Forall (has_parent (faces st)) (tail new)
    /\ (forall r0, head new = Some r0 -> r_face r0 = f /\ r_start_edge r0 = s).

(** The links of a face array are symmetric. *)
Definition symmetric_links (fs : list face_t) : Prop :=
  forall a e b e2, e < 3 -> e2 < 3 ->
    link_of fs a e = Some (b, Z.of_nat e2) ->
    link_of fs b e2 = Some (a, Z.of_nat e).

(** The root is written with a value that no edge number can take. *)
Definition root_has_sentinel (stl_faces : list stl_face_t) : Prop :=
  forall r, head (output (final (main stl_faces))) = Some r ->
    ~ In (r_start_edge r) [0%Z; 1%Z; 2%Z].

(** A mesh with a face short of a neighbour is still traversed to the end. *)
Definition open_mesh_is_traversed (stl_faces : list stl_face_t) : Prop :=
  (exists i, i < length stl_faces /\ all_matched (graph (main stl_faces)) i = false) ->
  exists v, exit (main stl_faces) = Ok v.

(** Reading the value returned with [complete] tells whether every face
    was visited. *)
Definition result_tells_completeness (complete : result Z -> bool)
    (stl_faces : list stl_face_t) : Prop :=
  complete (exit (main stl_faces)) = true <->
  length (output (final (main stl_faces))) = length stl_faces.

(** No slot of a face of [stl_3d.c] holds the face itself. *)
Definition no_self_face (fs : list Stl3d.stl_face_t) : Prop :=
  forall a fc e, fs !! a = Some fc -> get3 (Stl3d.face fc) e <> Some a.

(** The vertex loops of [stl_3d_parse] leave the neighbour slots null. *)
Definition slots_null (acc : Stl3d.outcome Stl3d.stl_3d_t) : Prop :=
  match acc with
  | Stl3d.Done stl =>
      Forall (fun fc => Stl3d.face fc = fill3 None) (Stl3d.face_arr stl)
  | Stl3d.Overflow _ _ => True
  end.

(** [c] can be reached from [a] by following filled slots. *)
Inductive reachable (fs : list face_t) (a : nat) : nat -> Prop :=
| reach_here : reachable fs a a
| reach_step b e c :
    reachable fs a b -> e < 3 -> slot fs b e = Some c -> reachable fs a c.

(** The three slots of face [i] are filled with visited faces. *)
Definition neighbours_used (fs : list face_t) (i : nat) : Prop :=
  forall e, e < 3 -> exists j, slot fs i e = Some j /\ is_used fs j = true.

(** Every face whose flag went up has had all its edges examined. *)
Definition completes (st st' : tstate) : Prop :=
  forall i, is_used (faces st) i = false -> is_used (faces st') i = true ->
            neighbours_used (faces st') i.

(** Every slot is filled with a face of the array. *)
Definition well_linked (fs : list face_t) : Prop :=
  forall i e, i < length fs -> e < 3 ->
    exists j, slot fs i e = Some j /\ j < length fs.

(** No edge of a triangle matches two edges of one other triangle. *)
Definition unambiguous (stl_faces : list stl_face_t) : Prop :=
  forall i j ti tj e e2 e2',
    stl_faces !! i = Some ti -> stl_faces !! j = Some tj -> i <> j ->
    e < 3 -> e2 < 3 -> e2' < 3 ->
    edge_eq2 ti tj e e2 = true -> edge_eq2 ti tj e e2' = true -> e2 = e2'.

(** Face [i] is settled: whenever one of its edges passes the test against
    an edge of another face, one of the two slots is filled. *)
Definition settled (stl_faces : list stl_face_t) (i : nat) (fs : list face_t) : Prop :=
  forall j ti tj e e2,
    stl_faces !! i = Some ti -> stl_faces !! j = Some tj -> j <> i ->
    e < 3 -> e2 < 3 -> edge_eq2 ti tj e e2 = true ->
    slot fs i e <> None \/ slot fs j e2 <> None.

(** The records written from [st] to [st'] carry the side lengths of their
    faces. *)
Definition writes_sides (st st' : tstate) : Prop :=
  marks_more (faces st) (faces st')
  /\ exists new, output st' = output st ++ new
       /\ Forall (fun r => exists fc, faces st !! r_face r = Some fc
                                      /\ r_sides r = sides fc) new.

(** Every face whose flag went up from [st] to [st'] is connected to [f]. *)
Definition reaches_only (f : nat) (st st' : tstate) : Prop :=
  marks_more (faces st) (faces st')
  /\ forall i, is_used (faces st) i = false -> is_used (faces st') i = true ->
               reachable (faces st) f i.

(** Every filled slot holds a face of the array. *)
Definition valid_links (fs : list face_t) : Prop :=
  forall i e j, e < 3 -> slot fs i e = Some j -> j < length fs.

(** The only ways a traversal started at [f] can stop without returning:
    the recursion bound, or a null slot on a face connected to [f]. *)
Definition fault_explained (fs : list face_t) (f : nat) (e : fault) : Prop :=
  e = OutOfFuel
  \/ (e = NullDeref
      /\ exists i e', reachable fs f i /\ e' < 3 /\ slot fs i e' = None).

(** Face [j] of [fs] is another face than [f1] and holds both vertices of
    edge [i] of [f1], the test of [stl_find_neighbors]. *)
Definition shares_edge (fs : list Stl3d.stl_face_t) (f1 i j : nat) : bool :=
  match fs !! f1, fs !! j with
  | Some c1, Some c2 =>
      bool_decide (j <> f1)
      && Stl3d.stl_has_edge c2 (get3 (Stl3d.vertex c1) i)
           (get3 (Stl3d.vertex c1) ((i + 1) mod 3))
  | _, _ => false
  end.

(** The last of the first [n] faces that shares edge [i] of [f1]. *)
Definition last_sharing (n : nat) (fs : list Stl3d.stl_face_t) (f1 i : nat)
    : option nat :=
  last (filter (fun j => shares_edge fs f1 i j = true) (seq 0 n)).

(** Corner [j] of triangle [i] of the file has its vertex in [stl]: the
    face points to a vertex in use, which is the first of the array whose
    point equals the corner (or holds the corner itself), and the vertex
    refers back to the corner. *)
Definition corner_ok (v3_eq : v3_t -> v3_t -> bool)
    (fts : list Stl3d.stl_3d_file_triangle_t) (stl : Stl3d.stl_3d_t)
    (i j : nat) : Prop :=
  exists ft fc v pv,
    fts !! i = Some ft
    /\ Stl3d.face_arr stl !! i = Some fc
    /\ get3 (Stl3d.vertex fc) j = Some v
    /\ v < Stl3d.num_vertex stl
    /\ Stl3d.vertex_arr stl !! v = Some pv
    /\ (Stl3d.v_p pv = get3 (Stl3d.ft_p ft) j
        \/ v3_eq (Stl3d.v_p pv) (get3 (Stl3d.ft_p ft) j) = true)
    /\ (forall y vy, y < v -> Stl3d.vertex_arr stl !! y = Some vy ->
          v3_eq (Stl3d.v_p vy) (get3 (Stl3d.ft_p ft) j) = false)
    /\ (i, j) ∈ Stl3d.v_refs pv.

(** No vertex in use equals an earlier one. *)
Definition vertices_distinct (v3_eq : v3_t -> v3_t -> bool)
    (stl : Stl3d.stl_3d_t) : Prop :=
  forall a b va vb,
    a < b < Stl3d.num_vertex stl ->
    Stl3d.vertex_arr stl !! a = Some va ->
    Stl3d.vertex_arr stl !! b = Some vb ->
    v3_eq (Stl3d.v_p va) (Stl3d.v_p vb) = false.

(** The state of the vertex loops of [stl_3d_parse] once the corners in
    [P] are done. *)
Record parse_inv (v3_eq : v3_t -> v3_t -> bool)
    (fts : list Stl3d.stl_3d_file_triangle_t) (P : nat -> nat -> Prop)
    (stl : Stl3d.stl_3d_t) : Prop := ParseInv {
  pi_num_face : Stl3d.num_face stl = length fts;
  pi_faces : length (Stl3d.face_arr stl) = length fts;
  pi_vertices : length (Stl3d.vertex_arr stl) = length fts;
  pi_count : Stl3d.num_vertex stl <= length fts;
  pi_distinct : vertices_distinct v3_eq stl;
  pi_corners : forall i j, P i j -> i < length fts -> j < 3 ->
                           corner_ok v3_eq fts stl i j;
  pi_refs : forall v pv i j,
      Stl3d.vertex_arr stl !! v = Some pv ->
      (i, j) ∈ Stl3d.v_refs pv ->
      P i j /\ i < length fts /\ j < 3
      /\ exists fc, Stl3d.face_arr stl !! i = Some fc
                    /\ get3 (Stl3d.vertex fc) j = Some v
}.

Definition parse_inv_outcome (v3_eq : v3_t -> v3_t -> bool)
    (fts : list Stl3d.stl_3d_file_triangle_t) (P : nat -> nat -> Prop)
    (acc : Stl3d.outcome Stl3d.stl_3d_t) : Prop :=
  match acc with
  | Stl3d.Done stl => parse_inv v3_eq fts P stl
  | Stl3d.Overflow x c => x = length fts /\ c = length fts
  end.

(** The faces of [fs'] have the vertices of those of [fs]. *)
Definition same_vertices (fs fs' : list Stl3d.stl_face_t) : Prop :=
  forall a, Stl3d.vertex <$> fs' !! a = Stl3d.vertex <$> fs !! a.

(** What [stl_3d_parse] returns for a closed tetrahedron. *)
Definition parsed_tetrahedron : Stl3d.stl_3d_t :=
  Eval vm_compute in
    match Stl3d.stl_3d_parse v3_eq (Mesh.file_triangle <$> Mesh.tetrahedron 0) with
    | Stl3d.Done stl => stl
    | Stl3d.Overflow _ _ => Stl3d.Stl3d 0 0 [] []
    end.

(** Every angle of every face is [0.0]. *)
Definition angles_zero (fs : list Stl3d.stl_face_t) : Prop :=
  Forall (fun c => Stl3d.angle c = fill3 (S754_zero false)) fs.

(** * Properties *)

(** ** Vertex equality *)

Lemma EPS_value : EPS = S754_finite false 7378697629483821 (-66).
Proof. vm_compute. reflexivity. Qed.

Lemma in_eps_abs (d : float32) :
  in_eps d = dlt (dabs (double_of_float d)) EPS.
Proof.
  unfold in_eps. rewrite EPS_value.
  generalize (double_of_float d). intros x.
  unfold dlt, dabs, dneg, SFltb.
  destruct x as [[|] | [|] | | [|] m e]; try reflexivity.
  cbn [SFopp SFabs SFcompare andb].
  rewrite (Z.compare_antisym e (-66)).
  destruct (e ?= -66)%Z; cbn [CompOpp]; try reflexivity.
  rewrite !Pos.compare_cont_spec. cbn [Pos.switch_Eq].
  rewrite (Pos.compare_antisym m 7378697629483821).
  destruct (m ?= 7378697629483821)%positive; reflexivity.
Qed.

Lemma v3_eq_axes (v1 v2 : v3_t) :
  v3_eq v1 v2 =
  in_eps (fsub (get3 (p v1) 0) (get3 (p v2) 0))
  && in_eps (fsub (get3 (p v1) 1) (get3 (p v2) 1))
  && in_eps (fsub (get3 (p v1) 2) (get3 (p v2) 2)).
Proof.
  unfold v3_eq. cbv zeta.
  destruct (in_eps _ && in_eps _ && in_eps _); reflexivity.
Qed.

Lemma v3_eq_pt_close (v1 v2 : v3_t) : v3_eq v1 v2 = true <-> pt_close v1 v2.
Proof.
  rewrite v3_eq_axes, !in_eps_abs, !andb_true_iff.
  unfold pt_close, axis_close. split.
  - intros [[H0 H1] H2] k Hk.
    destruct k as [| [| [| k]]]; [exact H0 | exact H1 | exact H2 | lia].
  - intros H. repeat split; apply H; lia.
Qed.

Lemma eps_float_value : Mesh.eps_float = S754_finite false 13743895 (-37).
Proof. vm_compute. reflexivity. Qed.



(** *** Vertex equality is symmetric

    Rounding to nearest is symmetric about zero, so [b - a] is the opposite
    of [a - b] (or both are [+0]). *)

Lemma binary_round_negb (prec emax : Z) (s : bool) (m : positive) (e : Z) :
  binary_round prec emax (negb s) m e = SFopp (binary_round prec emax s m e).
Proof.
  unfold binary_round. destruct (shl_align m e _) as [mz ez].
  unfold binary_round_aux.
  destruct (shr_fexp prec emax (Z.pos mz) ez loc_Exact) as [mrs' e'].
  destruct (shr_fexp prec emax _ e' loc_Exact) as [mrs'' e''].
  destruct (shr_m mrs''); [reflexivity | | reflexivity].
  destruct (Z.leb e'' (emax - prec)); reflexivity.
Qed.

Lemma double_of_float_opp (d : float32) :
  double_of_float (SFopp d) = SFopp (double_of_float d).
Proof.
  destruct d as [s | s | | s m e]; try reflexivity.
  cbn [SFopp double_of_float]. apply binary_round_negb.
Qed.

Lemma in_eps_opp (d : float32) : in_eps (SFopp d) = in_eps d.
Proof.
  rewrite !in_eps_abs, double_of_float_opp. f_equal.
  unfold dabs. destruct (double_of_float d); reflexivity.
Qed.

Lemma binary_normalize_opp (prec emax z e : Z) :
  binary_normalize prec emax (- z) e false =
  match z with
  | Z0 => S754_zero false
  | _ => SFopp (binary_normalize prec emax z e false)
  end.
Proof.
  destruct z as [| q | q]; [reflexivity | |].
  - change (- Z.pos q)%Z with (Z.neg q). cbn [binary_normalize].
    apply (binary_round_negb prec emax false).
  - change (- Z.neg q)%Z with (Z.pos q). cbn [binary_normalize].
    change (binary_round prec emax true q e)
      with (binary_round prec emax (negb false) q e).
    rewrite binary_round_negb.
    destruct (binary_round prec emax false q e) as [[|] | [|] | | [|] ? ?]; reflexivity.
Qed.

Lemma in_eps_fsub_swap (a b : float32) : in_eps (fsub b a) = in_eps (fsub a b).
Proof.
  destruct a as [sa | sa | | sa ma ea], b as [sb | sb | | sb mb eb].
  all: try (destruct sa, sb; reflexivity).
  all: try (destruct sa; reflexivity).
  all: try (destruct sb; reflexivity).
  all: try reflexivity.
  - change (in_eps (S754_finite sb mb eb)
            = in_eps (SFopp (S754_finite sb mb eb))).
    symmetry. apply in_eps_opp.
  - change (in_eps (SFopp (S754_finite sa ma ea))
            = in_eps (S754_finite sa ma ea)).
    apply in_eps_opp.
  - unfold fsub, SFsub. rewrite (Z.min_comm eb ea).
    set (ez := Z.min ea eb).
    set (A := cond_Zopp sa (Z.pos (shl_align ma ea ez).1)).
    set (B := cond_Zopp sb (Z.pos (shl_align mb eb ez).1)).
    replace (B - A)%Z with (- (A - B))%Z by lia.
    rewrite binary_normalize_opp.
    destruct (A - B)%Z eqn:E; [reflexivity | |]; apply in_eps_opp.
Qed.

Lemma v3_eq_sym (v1 v2 : v3_t) : v3_eq v2 v1 = v3_eq v1 v2.
Proof.
  rewrite !v3_eq_axes.
  rewrite (in_eps_fsub_swap (get3 (p v1) 0)), (in_eps_fsub_swap (get3 (p v1) 1)),
    (in_eps_fsub_swap (get3 (p v1) 2)).
  reflexivity.
Qed.

(** ** Oriented edge matching *)

(** C2.  Edge [e] of one triangle matches edge [e2] of another exactly when
    the first corner of the one is close to the second corner of the other
    and the second corner of the one is close to the first corner of the
    other, closeness being the per-axis tolerance test. *)
Theorem edge_eq2_opposite_winding (t0 t1 : stl_face_t) (e e2 : nat) :
  edge_eq2 t0 t1 e e2 = true <->
  pt_close (get3 (corner t0) e) (get3 (corner t1) ((e2 + 1) mod 3))
  /\ pt_close (get3 (corner t0) ((e + 1) mod 3)) (get3 (corner t1) e2).
Proof.
  unfold edge_eq2. cbv zeta.
  rewrite <- !v3_eq_pt_close.
  destruct (v3_eq _ _), (v3_eq _ _); cbn; intuition congruence.
Qed.

(** The test does not depend on which of the two triangles comes first. *)
Lemma edge_eq2_sym (t0 t1 : stl_face_t) (e0 e1 : nat) :
  edge_eq2 t1 t0 e1 e0 = edge_eq2 t0 t1 e0 e1.
Proof.
  unfold edge_eq2. cbv zeta.
  rewrite (v3_eq_sym (get3 (corner t0) ((e0 + 1) mod 3))).
  rewrite (v3_eq_sym (get3 (corner t0) e0)).
  rewrite andb_comm. reflexivity.
Qed.

(** ** Arrays and the link step *)

Lemma get3_set3 {A : Type} (a : array3 A) (k e : nat) (x : A) :
  k < 3 -> e < 3 ->
  get3 (set3 a k x) e = if decide (e = k) then x else get3 a e.
Proof.
  intros Hk He.
  destruct k as [| [| [| k]]]; [| | | lia];
    (destruct e as [| [| [| e]]]; [| | | lia]); reflexivity.
Qed.

Lemma edges_lt (e : nat) : e ∈ edges -> e < 3.
Proof.
  unfold edges. rewrite !elem_of_cons, elem_of_nil. lia.
Qed.

Lemma foldl_invariant {A B : Type} (Q : A -> Prop) (f : A -> B -> A) (l : list B) :
  (forall a x, x ∈ l -> Q a -> Q (f a x)) ->
  forall a, Q a -> Q (foldl f a l).
Proof.
  induction l as [| x l IH]; intros Hf a Ha; cbn; [exact Ha |].
  apply IH.
  - intros a' y Hy. apply Hf. right. exact Hy.
  - apply Hf; [left | exact Ha].
Qed.

Lemma link_of_slot (fs : list face_t) (f e : nat) :
  slot fs f e = fst <$> link_of fs f e.
Proof.
  unfold slot, link_of.
  destruct (fs !! f) as [fc |]; [| reflexivity].
  destruct (get3 (next fc) e); reflexivity.
Qed.

Lemma length_link stl stl2 i j edge edge2 (fs : list face_t) :
  length (link stl stl2 i j edge edge2 fs) = length fs.
Proof. unfold link. cbv zeta. rewrite !length_alter. reflexivity. Qed.

Lemma lookup_link_other stl stl2 i j edge edge2 (fs : list face_t) (a : nat) :
  a <> i -> a <> j -> link stl stl2 i j edge edge2 fs !! a = fs !! a.
Proof.
  intros Hi Hj. unfold link. cbv zeta.
  rewrite !list_lookup_alter_ne by congruence. reflexivity.
Qed.

Lemma lookup_link_left stl stl2 i j edge edge2 (fs : list face_t) :
  i <> j ->
  link stl stl2 i j edge edge2 fs !! i =
  (fun fc => set_coplanar edge (coplanar_check stl stl2)
               (set_next_edge edge (Z.of_nat edge2) (set_next edge (Some j) fc)))
    <$> fs !! i.
Proof.
  intros Hij. unfold link. cbv zeta.
  rewrite list_lookup_alter_eq, list_lookup_alter_ne by congruence.
  rewrite list_lookup_alter_ne, list_lookup_alter_ne by congruence.
  rewrite !list_lookup_alter_eq.
  destruct (fs !! i); reflexivity.
Qed.

Lemma lookup_link_right stl stl2 i j edge edge2 (fs : list face_t) :
  i <> j ->
  link stl stl2 i j edge edge2 fs !! j =
  (fun fc => set_coplanar edge2 (coplanar_check stl stl2)
               (set_next_edge edge2 (Z.of_nat edge) (set_next edge2 (Some i) fc)))
    <$> fs !! j.
Proof.
  intros Hij. unfold link. cbv zeta.
  rewrite list_lookup_alter_ne by congruence.
  rewrite !list_lookup_alter_eq.
  rewrite !list_lookup_alter_ne by congruence.
  destruct (fs !! j); reflexivity.
Qed.

(** What a link step leaves in every slot. *)
Lemma link_of_link stl stl2 i j edge edge2 (fs : list face_t) (a e : nat) :
  i <> j -> i < length fs -> j < length fs ->
  edge < 3 -> edge2 < 3 -> e < 3 ->
  link_of (link stl stl2 i j edge edge2 fs) a e =
  if decide (a = i /\ e = edge) then Some (j, Z.of_nat edge2)
  else if decide (a = j /\ e = edge2) then Some (i, Z.of_nat edge)
  else link_of fs a e.
Proof.
  intros Hij Hi Hj Hedge Hedge2 He. unfold link_of.
  destruct (decide (a = i)) as [-> | Hai].
  - rewrite lookup_link_left by exact Hij.
    destruct (lookup_lt_is_Some_2 fs i Hi) as [fc Hfc]. rewrite Hfc. cbn.
    rewrite !get3_set3 by assumption.
    destruct (decide (e = edge)) as [-> | Hne].
    + rewrite decide_True by tauto. reflexivity.
    + rewrite decide_False by tauto. rewrite decide_False by tauto. reflexivity.
  - rewrite decide_False by tauto.
    destruct (decide (a = j)) as [-> | Haj].
    + rewrite lookup_link_right by exact Hij.
      destruct (lookup_lt_is_Some_2 fs j Hj) as [fc Hfc]. rewrite Hfc. cbn.
      rewrite !get3_set3 by assumption.
      destruct (decide (e = edge2)) as [-> | Hne].
      * rewrite decide_True by tauto. reflexivity.
      * rewrite decide_False by tauto. reflexivity.
    + rewrite decide_False by tauto.
      rewrite lookup_link_other by assumption. reflexivity.
Qed.

(** ** An induction principle for the construction loops

    A property of the face array that every link step preserves holds
    throughout the loops.  The link step is only ever taken for two
    different faces of the mesh, two edge numbers below 3, an empty slot
    of the second face and a successful [edge_eq2] test.  The slot of the
    first face is empty too, unless the same edge has already matched
    another edge of the second face: the loop over [edge2] goes on after a
    match. *)
Section AdjacencyInvariant.

Variable stl_faces : list stl_face_t.
Variable P : list face_t -> Prop.

Hypothesis P_link : forall stl stl2 i j edge edge2 fs,
  i <> j ->
  stl_faces !! i = Some stl -> stl_faces !! j = Some stl2 ->
  edge < 3 -> edge2 < 3 ->
  length fs = length stl_faces ->
  slot fs j edge2 = None ->
  (slot fs i edge = None
   \/ exists e2', e2' < 3 /\ e2' <> edge2 /\ edge_eq2 stl stl2 edge e2' = true) ->
  edge_eq2 stl stl2 edge edge2 = true ->
  P fs -> P (link stl stl2 i j edge edge2 fs).

(** The state of the loop over [edge2] before iteration [k]. *)
Lemma match_edge2_invariant stl stl2 i j edge k fs :
  i <> j ->
  stl_faces !! i = Some stl -> stl_faces !! j = Some stl2 ->
  edge < 3 -> k < 3 ->
  kept stl_faces P fs
  /\ (slot fs i edge = None
      \/ exists e2', e2' < k /\ edge_eq2 stl stl2 edge e2' = true) ->
  kept stl_faces P (match_edge2 stl stl2 i j edge fs k)
  /\ (slot (match_edge2 stl stl2 i j edge fs k) i edge = None
      \/ exists e2', e2' < S k /\ edge_eq2 stl stl2 edge e2' = true).
Proof.
  intros Hij Hi Hj He Hk [[HP Hlen] Hseen].
  assert (slot fs i edge = None
          \/ exists e2', e2' < S k /\ edge_eq2 stl stl2 edge e2' = true) as Hseen'.
  { destruct Hseen as [H | (e2' & Hlt & Heq)]; [left; exact H |].
    right. exists e2'. split; [lia | exact Heq]. }
  unfold match_edge2.
  destruct (slot fs j k) eqn:Hslot; cbn; [repeat split; assumption |].
  destruct (edge_eq2 stl stl2 edge k) eqn:Heq; cbn; [| repeat split; assumption].
  split; [split |].
  - eapply P_link; try eassumption.
    destruct Hseen as [H | (e2' & Hlt & Heq')]; [left; exact H |].
    right. exists e2'. repeat split; [lia | lia | exact Heq'].
  - rewrite length_link. exact Hlen.
  - right. exists k. split; [lia | exact Heq].
Qed.

Lemma match_edge_invariant stl stl2 i j edge fs :
  i <> j ->
  stl_faces !! i = Some stl -> stl_faces !! j = Some stl2 ->
  edge < 3 ->
  kept stl_faces P fs -> kept stl_faces P (match_edge stl stl2 i j fs edge).
Proof.
  intros Hij Hi Hj He HQ. unfold match_edge.
  destruct (slot fs i edge) eqn:Hslot; cbn; [exact HQ |].
  unfold edges. cbn [foldl].
  eapply proj1.
  do 3 (apply match_edge2_invariant; [assumption.. | lia |]).
  split; [exact HQ | left; exact Hslot].
Qed.

Lemma match_face_invariant i j fs :
  kept stl_faces P fs -> kept stl_faces P (match_face stl_faces i fs j).
Proof.
  intros HQ. unfold match_face.
  destruct (decide (i = j)) as [| Hij]; [exact HQ |].
  destruct (stl_faces !! i) as [stl |] eqn:Hi; [| exact HQ].
  destruct (stl_faces !! j) as [stl2 |] eqn:Hj; [| exact HQ].
  apply foldl_invariant; [| exact HQ].
  intros a e He Ha. eapply match_edge_invariant; eauto using edges_lt.
Qed.

Lemma match_all_invariant acc i :
  kept stl_faces P acc.1 -> kept stl_faces P (match_all stl_faces acc i).1.
Proof.
  intros HQ. unfold match_all. cbv zeta.
  assert (kept stl_faces P
            (foldl (match_face stl_faces i) acc.1 (seq 0 (length stl_faces)))) as H.
  { apply foldl_invariant; [| exact HQ].
    intros a j _ Ha. apply match_face_invariant. exact Ha. }
  destruct (all_matched _ i); exact H.
Qed.

Lemma match_all_fold_invariant (l : list nat) acc :
  kept stl_faces P acc.1 -> kept stl_faces P (foldl (match_all stl_faces) acc l).1.
Proof.
  intros HQ.
  apply (foldl_invariant (fun acc => kept stl_faces P acc.1)); [| exact HQ].
  intros a i _ Ha. apply match_all_invariant. exact Ha.
Qed.

Lemma build_graph_invariant :
  P (face_of_stl <$> stl_faces) -> P (build_graph stl_faces).1.
Proof.
  intros H0. unfold build_graph.
  apply match_all_fold_invariant. split; [exact H0 |].
  cbn. apply length_fmap.
Qed.

End AdjacencyInvariant.

(** ** Invariants of the construction *)

Lemma get3_min {A : Type} (a : array3 A) (e : nat) : get3 a e = get3 a (Nat.min e 2).
Proof. destruct e as [| [| [| e]]]; reflexivity. Qed.

Lemma slot_initial (stl_faces : list stl_face_t) (i e : nat) :
  slot (face_of_stl <$> stl_faces) i e = None.
Proof.
  unfold slot. rewrite list_lookup_fmap.
  destruct (stl_faces !! i); [| reflexivity].
  destruct e as [| [| e]]; reflexivity.
Qed.

Lemma link_of_initial (stl_faces : list stl_face_t) (i e : nat) :
  link_of (face_of_stl <$> stl_faces) i e = None.
Proof.
  pose proof (slot_initial stl_faces i e) as H.
  rewrite link_of_slot in H.
  destruct (link_of _ i e); [discriminate | reflexivity].
Qed.

Lemma lookup_lt_of_stl (stl_faces : list stl_face_t) (fs : list face_t) i stl :
  length fs = length stl_faces -> stl_faces !! i = Some stl -> i < length fs.
Proof. intros Hlen Hi. rewrite Hlen. eapply lookup_lt_Some. exact Hi. Qed.

Lemma construction_no_self (stl_faces : list stl_face_t) (l : list nat) :
  no_self_link (foldl (match_all stl_faces) (face_of_stl <$> stl_faces, []) l).1.
Proof.
  apply (match_all_fold_invariant stl_faces no_self_link).
  - intros stl stl2 i j edge edge2 fs Hij Hi Hj He He2 Hlen _ _ _ HP a e Hlt.
    rewrite link_of_slot, link_of_link by eauto using lookup_lt_of_stl.
    repeat case_decide; cbn; try (intros [=]; lia).
    rewrite <- link_of_slot. apply HP. exact Hlt.
  - split; [| cbn; apply length_fmap].
    intros i e _. cbn. rewrite slot_initial. discriminate.
Qed.

Lemma build_graph_links_matched (stl_faces : list stl_face_t) :
  links_matched stl_faces (build_graph stl_faces).1.
Proof.
  apply build_graph_invariant.
  - intros stl stl2 i j edge edge2 fs Hij Hi Hj He He2 Hlen _ _ Heq HP a e b s Hlt.
    rewrite link_of_link by eauto using lookup_lt_of_stl.
    repeat case_decide.
    + intros [= <- <-]. destruct_and!. subst.
      exists edge2. repeat split; [assumption.. |].
      exists stl, stl2. auto.
    + intros [= <- <-]. destruct_and!. subst.
      exists edge. repeat split; [assumption | congruence |].
      exists stl2, stl. rewrite edge_eq2_sym. auto.
    + apply HP. exact Hlt.
  - intros a e b s _. rewrite link_of_initial. discriminate.
Qed.

Lemma match_all_fills_more (stl_faces : list stl_face_t) acc i :
  length acc.1 = length stl_faces ->
  fills_more acc.1 (match_all stl_faces acc i).1
  /\ length (match_all stl_faces acc i).1 = length stl_faces.
Proof.
  intros Hlen.
  apply (match_all_invariant stl_faces (fills_more acc.1)).
  - intros stl stl2 a b edge edge2 fs Hab Ha Hb He He2 Hl _ _ _ HP c e Hlt Hc.
    rewrite link_of_slot, link_of_link by eauto using lookup_lt_of_stl.
    repeat case_decide; cbn; try discriminate.
    rewrite <- link_of_slot. apply HP; assumption.
  - split; [| exact Hlen]. intros a e _ H. exact H.
Qed.

Lemma all_matched_false (fs : list face_t) (i : nat) :
  all_matched fs i = false <-> exists e, e < 3 /\ slot fs i e = None.
Proof.
  unfold all_matched. split.
  - intros H.
    destruct (slot fs i 0) eqn:H0; [| exists 0; split; [lia | assumption]].
    destruct (slot fs i 1) eqn:H1; [| exists 1; split; [lia | assumption]].
    destruct (slot fs i 2) eqn:H2; [| exists 2; split; [lia | assumption]].
    discriminate.
  - intros (e & He & Hs).
    destruct e as [| [| [| e]]]; [| | | lia]; rewrite Hs; cbn;
      rewrite ?andb_false_r; reflexivity.
Qed.

Lemma match_all_fst (stl_faces : list stl_face_t) acc i :
  (match_all stl_faces acc i).1 =
  foldl (match_face stl_faces i) acc.1 (seq 0 (length stl_faces)).
Proof. unfold match_all. cbv zeta. destruct (all_matched _ i); reflexivity. Qed.

Lemma match_all_snd (stl_faces : list stl_face_t) acc i :
  (match_all stl_faces acc i).2 =
  if all_matched (match_all stl_faces acc i).1 i then acc.2 else acc.2 ++ [i].
Proof.
  rewrite match_all_fst. unfold match_all. cbv zeta.
  destruct (all_matched _ i); reflexivity.
Qed.

(** The faces of [l] that are short of a neighbour when the loops over [l]
    end have all been reported. *)
Lemma match_all_fold_reports (stl_faces : list stl_face_t) (l : list nat) :
  forall acc, length acc.1 = length stl_faces ->
    let r := foldl (match_all stl_faces) acc l in
    fills_more acc.1 r.1
    /\ (forall i, i ∈ acc.2 -> i ∈ r.2)
    /\ (forall i, i ∈ l -> all_matched r.1 i = false -> i ∈ r.2).
Proof.
  induction l as [| i l IH]; intros acc Hlen; cbn.
  - split; [intros a e _ H; exact H |]. split; [auto |].
    intros i Hi. apply elem_of_nil in Hi. contradiction.
  - destruct (match_all_fills_more stl_faces acc i Hlen) as [Hfill Hlen'].
    destruct (IH _ Hlen') as (IH1 & IH2 & IH3).
    split; [intros a e He H; apply IH1, Hfill; assumption |].
    assert (forall k, k ∈ acc.2 -> k ∈ (match_all stl_faces acc i).2) as Hsub.
    { intros k Hk. rewrite match_all_snd.
      destruct (all_matched _ i); [exact Hk |].
      apply elem_of_app. left. exact Hk. }
    split; [intros k Hk; apply IH2, Hsub, Hk |].
    intros k Hk Hmiss. apply elem_of_cons in Hk as [-> | Hk]; [| apply IH3; assumption].
    apply IH2.
    apply all_matched_false in Hmiss as (e & He & Hs).
    assert (all_matched (match_all stl_faces acc i).1 i = false) as Hnow.
    { apply all_matched_false. exists e. split; [exact He |].
      destruct (slot (match_all stl_faces acc i).1 i e) eqn:E; [| reflexivity].
      exfalso. apply (IH1 i e He); [rewrite E; discriminate | exact Hs]. }
    rewrite match_all_snd, Hnow.
    apply elem_of_app. right. apply list_elem_of_singleton. reflexivity.
Qed.

(** ** The traversal *)

Lemma face_le_refl (a : face_t) : face_le a a.
Proof. split; auto. Qed.

Lemma face_le_trans (a b c : face_t) : face_le a b -> face_le b c -> face_le a c.
Proof. intros [H1 H2] [H3 H4]. split; [congruence | auto]. Qed.

Lemma marks_more_refl (fs : list face_t) : marks_more fs fs.
Proof.
  apply Forall2_same_length_lookup_2; [reflexivity |].
  intros i x y Hx Hy. rewrite Hx in Hy. injection Hy as <-. apply face_le_refl.
Qed.

Lemma marks_more_trans (fs1 fs2 fs3 : list face_t) :
  marks_more fs1 fs2 -> marks_more fs2 fs3 -> marks_more fs1 fs3.
Proof.
  intros H12 H23.
  apply Forall2_same_length_lookup_2.
  - rewrite (Forall2_length _ _ _ H12). apply (Forall2_length _ _ _ H23).
  - intros i x z Hx Hz.
    destruct (Forall2_lookup_l _ _ _ _ _ H12 Hx) as (y & Hy & Hxy).
    eapply face_le_trans; [exact Hxy |].
    eapply Forall2_lookup_lr; eassumption.
Qed.

Lemma marks_more_set_used (fs : list face_t) (f : nat) :
  marks_more fs (alter set_used f fs).
Proof.
  apply Forall2_alter_r; [apply marks_more_refl |].
  intros x y _ _ [H1 H2]. split; [| reflexivity].
  rewrite H1. reflexivity.
Qed.

Lemma marks_more_link_of (fs fs' : list face_t) (a e : nat) :
  marks_more fs fs' -> link_of fs' a e = link_of fs a e.
Proof.
  intros H. unfold link_of.
  destruct (fs !! a) as [x |] eqn:Hx.
  - destruct (Forall2_lookup_l _ _ _ _ _ H Hx) as (y & -> & [Hu _]).
    injection Hu as _ Hn Hne _. rewrite Hn, Hne. reflexivity.
  - destruct (fs' !! a) as [y |] eqn:Hy; [| reflexivity].
    destruct (Forall2_lookup_r _ _ _ _ _ H Hy) as (x & Hx' & _). congruence.
Qed.

Lemma marks_more_is_used (fs fs' : list face_t) (i : nat) :
  marks_more fs fs' -> is_used fs i = true -> is_used fs' i = true.
Proof.
  intros H. unfold is_used.
  destruct (fs !! i) as [x |] eqn:Hx; [| discriminate].
  destruct (Forall2_lookup_l _ _ _ _ _ H Hx) as (y & -> & [_ Hu]). exact Hu.
Qed.

Lemma marks_more_has_parent (fs fs' : list face_t) (r : record_t) :
  marks_more fs fs' -> has_parent fs' r -> has_parent fs r.
Proof.
  intros H (pf & e & He & Hl). exists pf, e. split; [exact He |].
  rewrite <- (marks_more_link_of fs fs') by exact H. exact Hl.
Qed.

Lemma advances_refl (st st' : tstate) :
  faces st' = faces st -> output st' = output st -> advances st st' [].
Proof.
  intros Hf Ho. split.
  - rewrite Hf. apply marks_more_refl.
  - rewrite Ho, app_nil_r. reflexivity.
  - intros i. rewrite Hf. cbn. rewrite elem_of_nil.
    destruct (is_used (faces st) i); intuition congruence.
  - cbn. apply NoDup_nil_2.
Qed.

Lemma advances_trans (st1 st2 st3 : tstate) (new1 new2 : list record_t) :
  advances st1 st2 new1 -> advances st2 st3 new2 ->
  advances st1 st3 (new1 ++ new2).
Proof.
  intros [F1 O1 R1 N1] [F2 O2 R2 N2]. split.
  - eapply marks_more_trans; eassumption.
  - rewrite O2, O1, app_assoc. reflexivity.
  - intros i. rewrite fmap_app, elem_of_app, R1, R2.
    pose proof (marks_more_is_used _ _ i F1) as M1.
    pose proof (marks_more_is_used _ _ i F2) as M2.
    destruct (is_used (faces st1) i), (is_used (faces st2) i),
      (is_used (faces st3) i); intuition congruence.
  - rewrite fmap_app. apply NoDup_app. split; [exact N1 |]. split; [| exact N2].
    intros i H1 H2. apply R1 in H1. apply R2 in H2. destruct H1, H2. congruence.
Qed.

Lemma descends_refl (st st' : tstate) :
  faces st' = faces st -> output st' = output st -> descends st st'.
Proof.
  intros Hf Ho. exists []. split; [apply advances_refl; assumption |].
  apply Forall_nil_2.
Qed.

Lemma descends_trans (st1 st2 st3 : tstate) :
  descends st1 st2 -> descends st2 st3 -> descends st1 st3.
Proof.
  intros (new1 & A1 & P1) (new2 & A2 & P2).
  exists (new1 ++ new2). split; [eapply advances_trans; eassumption |].
  apply Forall_app. split; [exact P1 |].
  eapply Forall_impl; [exact P2 |].
  intros r. apply marks_more_has_parent. apply (adv_faces _ _ _ A1).
Qed.

(** *** The equations of [recurse] *)

Lemma recurse_S (n f : nat) (s : Z) (st : tstate) :
  recurse (S n) f s st =
  match faces st !! f with
  | None => (TState (faces st) (output st) (depth st + 1), Crash BadPointer)
  | Some fc =>
      match for_each edges (recurse_edge (recurse n) f)
              (TState (alter set_used f (faces st))
                 (output st ++ [Record_ f s (sides fc)]) (depth st + 1)) with
      | (st', Ok _) => (st', Ok 0%Z)
      | (st', Crash e) => (st', Crash e)
      end
  end.
Proof.
  cbn [recurse]. unfold bind, incr_depth, mark_used, load, emit, ret.
  cbn [faces output depth].
  destruct (faces st !! f) as [fc |] eqn:E; [| reflexivity].
  cbn [faces output depth].
  rewrite list_lookup_alter_eq, E.
  cbn [fmap option_fmap option_map faces output depth set_used sides].
  destruct (for_each _ _ _) as [st' [[] | e]]; reflexivity.
Qed.

Lemma recurse_edge_eq (call : nat -> Z -> M Z) (f edge : nat) (st : tstate) :
  recurse_edge call f edge st =
  match faces st !! f with
  | None => (st, Crash BadPointer)
  | Some fc =>
      match get3 (next fc) edge with
      | None => (st, Crash NullDeref)
      | Some f2 =>
          match faces st !! f2 with
          | None => (st, Crash BadPointer)
          | Some fc2 =>
              if used fc2 then (st, Ok tt)
              else
                match call f2 (get3 (next_edge fc) edge) st with
                | (st', Ok _) => (st', Ok tt)
                | (st', Crash e) => (st', Crash e)
                end
          end
      end
  end.
Proof.
  unfold recurse_edge, bind, load, crash, ret.
  destruct (faces st !! f) as [fc |]; [| reflexivity].
  destruct (get3 (next fc) edge) as [f2 |]; [| reflexivity].
  destruct (faces st !! f2) as [fc2 |]; [| reflexivity].
  destruct (used fc2); [reflexivity |].
  destruct (call f2 _ st) as [st' [v | e]]; reflexivity.
Qed.

Lemma for_each_cons {A : Type} (x : A) (l : list A) (body : A -> M unit) (st : tstate) :
  for_each (x :: l) body st =
  match body x st with
  | (st1, Ok _) => for_each l body st1
  | (st1, Crash e) => (st1, Crash e)
  end.
Proof. reflexivity. Qed.

(** A relation between states that every iteration respects is respected
    by the loop. *)
Lemma for_each_rel {A : Type} (R : tstate -> tstate -> Prop) (l : list A)
    (body : A -> M unit) :
  (forall st, R st st) ->
  (forall st1 st2 st3, R st1 st2 -> R st2 st3 -> R st1 st3) ->
  (forall x st st' r, x ∈ l -> body x st = (st', r) -> R st st') ->
  forall st st' r, for_each l body st = (st', r) -> R st st'.
Proof.
  intros Hrefl Htrans.
  induction l as [| x l IH]; intros Hbody st st' r Hrun.
  - cbn in Hrun. unfold ret in Hrun. injection Hrun as <- _. apply Hrefl.
  - rewrite for_each_cons in Hrun.
    destruct (body x st) as [st1 [[] | e]] eqn:Hx.
    + eapply Htrans; [eapply Hbody; [left | exact Hx] |].
      eapply IH; [| exact Hrun].
      intros y s1 s2 r' Hy. apply Hbody. right. exact Hy.
    + injection Hrun as <- _. eapply Hbody; [left | exact Hx].
Qed.

(** *** What a call does to the state *)

Lemma is_used_lookup (fs : list face_t) (f : nat) (fc : face_t) :
  fs !! f = Some fc -> is_used fs f = used fc.
Proof. intros H. unfold is_used. rewrite H. reflexivity. Qed.

Lemma recurse_edge_descends (call : nat -> Z -> M Z) (f edge : nat) :
  edge < 3 ->
  (forall f2 s st st' r,
     is_used (faces st) f2 = false -> call f2 s st = (st', r) -> visits f2 s st st') ->
  forall st st' r, recurse_edge call f edge st = (st', r) -> descends st st'.
Proof.
  intros He Hcall st st' r Hrun. rewrite recurse_edge_eq in Hrun.
  destruct (faces st !! f) as [fc |] eqn:Hf;
    [| injection Hrun as <- _; apply descends_refl; reflexivity].
  destruct (get3 (next fc) edge) as [f2 |] eqn:Hn;
    [| injection Hrun as <- _; apply descends_refl; reflexivity].
  destruct (faces st !! f2) as [fc2 |] eqn:Hf2;
    [| injection Hrun as <- _; apply descends_refl; reflexivity].
  destruct (used fc2) eqn:Hu;
    [injection Hrun as <- _; apply descends_refl; reflexivity |].
  destruct (call f2 (get3 (next_edge fc) edge) st) as [st1 r1] eqn:Hc.
  assert (st' = st1) as -> by (destruct r1; congruence).
  apply Hcall in Hc as (new & Hadv & Hpar & Hhead);
    [| rewrite (is_used_lookup _ _ _ Hf2); exact Hu].
  exists new. split; [exact Hadv |].
  destruct new as [| r0 rest]; [apply Forall_nil_2 |].
  apply Forall_cons. split; [| exact Hpar].
  destruct (Hhead r0 eq_refl) as [Hface Hedge].
  exists f, edge. split; [exact He |].
  unfold link_of. rewrite Hf, Hn, Hface, Hedge. reflexivity.
Qed.

Lemma advances_mark (st : tstate) (f : nat) (fc : face_t) (r : record_t) (d : Z) :
  faces st !! f = Some fc -> used fc = false -> r_face r = f ->
  advances st (TState (alter set_used f (faces st)) (output st ++ [r]) d) [r].
Proof.
  intros Hf Hu Hr. split; cbn [faces output].
  - apply marks_more_set_used.
  - reflexivity.
  - intros i. cbn. rewrite list_elem_of_singleton, Hr. unfold is_used.
    destruct (decide (i = f)) as [-> | Hne].
    + rewrite list_lookup_alter_eq, Hf. cbn. tauto.
    + rewrite list_lookup_alter_ne by congruence.
      destruct (faces st !! i) as [x |]; [destruct (used x) |]; intuition congruence.
  - cbn. apply NoDup_singleton.
Qed.

Lemma recurse_visits (n : nat) :
  forall f s st st' r,
    is_used (faces st) f = false ->
    recurse n f s st = (st', r) -> visits f s st st'.
Proof.
  induction n as [| n IH]; intros f s st st' r Hunused Hrun.
  - cbn in Hrun. injection Hrun as <- _.
    exists []. split; [apply advances_refl; reflexivity |].
    split; [apply Forall_nil_2 | discriminate].
  - rewrite recurse_S in Hrun.
    destruct (faces st !! f) as [fc |] eqn:Hf.
    + destruct (for_each edges _ _) as [st2 r2] eqn:Hloop.
      assert (st' = st2) as -> by (destruct r2; congruence).
      apply (for_each_rel descends) in Hloop as (new & Hadv & Hpar).
      * exists (Record_ f s (sides fc) :: new).
        assert (advances st
                  (TState (alter set_used f (faces st))
                     (output st ++ [Record_ f s (sides fc)]) (depth st + 1))
                  [Record_ f s (sides fc)]) as Hfirst.
        { apply (advances_mark st f fc); [exact Hf | | reflexivity].
          rewrite <- (is_used_lookup _ _ _ Hf). exact Hunused. }
        split; [exact (advances_trans _ _ _ _ _ Hfirst Hadv) |].
        split; [| intros r0 [= <-]; split; reflexivity].
        cbn [tail]. eapply Forall_impl; [exact Hpar |].
        intros r0. apply marks_more_has_parent. apply (adv_faces _ _ _ Hfirst).
      * intros st0. apply descends_refl; reflexivity.
      * apply descends_trans.
      * intros e s1 s2 r0 He. apply recurse_edge_descends; [apply edges_lt, He | exact IH].
    + injection Hrun as <- _.
      exists []. split; [apply advances_refl; reflexivity |].
      split; [apply Forall_nil_2 | discriminate].
Qed.

Lemma edge_loop_descends (n f : nat) (st st' : tstate) (r : result unit) :
  for_each edges (recurse_edge (recurse n) f) st = (st', r) -> descends st st'.
Proof.
  apply (for_each_rel descends).
  - intros st0. apply descends_refl; reflexivity.
  - apply descends_trans.
  - intros e s1 s2 r0 He.
    apply recurse_edge_descends; [apply edges_lt, He | apply recurse_visits].
Qed.

(** The output of a call on a face of the array starts with the record of
    that face and the entering edge it was given. *)
Lemma recurse_first_record (n f : nat) (s : Z) (st st' : tstate) (r : result Z) (fc : face_t) :
  faces st !! f = Some fc ->
  recurse (S n) f s st = (st', r) ->
  exists rest, output st' = output st ++ Record_ f s (sides fc) :: rest
               /\ Forall (has_parent (faces st)) rest.
Proof.
  intros Hf Hrun. rewrite recurse_S, Hf in Hrun.
  destruct (for_each edges _ _) as [st2 r2] eqn:Hloop.
  assert (st' = st2) as -> by (destruct r2; congruence).
  apply edge_loop_descends in Hloop as (new & Hadv & Hpar).
  exists new. split.
  - rewrite (adv_output _ _ _ Hadv). cbn [output].
    rewrite <- app_assoc. reflexivity.
  - eapply Forall_impl; [exact Hpar |].
    intros r0. apply marks_more_has_parent. cbn [faces]. apply marks_more_set_used.
Qed.

Lemma recurse_returns_zero (n f : nat) (s : Z) (st st' : tstate) (v : Z) :
  recurse n f s st = (st', Ok v) -> v = 0%Z.
Proof.
  destruct n as [| n]; [discriminate |].
  rewrite recurse_S.
  destruct (faces st !! f); [| discriminate].
  destruct (for_each edges _ _) as [st2 [[] | e]]; congruence.
Qed.

(** *** The recursion bound is never reached *)

Lemma unused_count_cons (fc : face_t) (fs : list face_t) :
  unused_count (fc :: fs) =
  (if used fc then 0 else 1) + unused_count fs.
Proof.
  unfold unused_count. destruct (used fc) eqn:E.
  - rewrite filter_cons_False by congruence. reflexivity.
  - rewrite filter_cons_True by exact E. reflexivity.
Qed.

Lemma unused_count_marks_more (fs fs' : list face_t) :
  marks_more fs fs' -> unused_count fs' <= unused_count fs.
Proof.
  induction 1 as [| x y l k [_ Hu] _ IH]; [reflexivity |].
  rewrite !unused_count_cons.
  destruct (used x), (used y); cbn; try lia.
  all: specialize (Hu eq_refl); discriminate.
Qed.

Lemma unused_count_set_used (fs : list face_t) (f : nat) (fc : face_t) :
  fs !! f = Some fc -> used fc = false ->
  unused_count fs = S (unused_count (alter set_used f fs)).
Proof.
  revert f. induction fs as [| x fs IH]; intros f Hf Hu; [discriminate |].
  destruct f as [| f]; cbn in Hf.
  - injection Hf as ->. cbn [alter list_alter].
    rewrite !unused_count_cons, Hu. reflexivity.
  - cbn [alter list_alter]. rewrite !unused_count_cons.
    rewrite (IH f Hf Hu). lia.
Qed.

Lemma unused_count_le_length (fs : list face_t) : unused_count fs <= length fs.
Proof. unfold unused_count. apply length_filter. Qed.

Lemma recurse_edge_fuel (call : nat -> Z -> M Z) (n f edge : nat) :
  (forall f2 s st st' r fc2,
     faces st !! f2 = Some fc2 -> used fc2 = false ->
     unused_count (faces st) <= n ->
     call f2 s st = (st', r) ->
     r <> Crash OutOfFuel /\ marks_more (faces st) (faces st')) ->
  forall st st' r,
    unused_count (faces st) <= n ->
    recurse_edge call f edge st = (st', r) ->
    r <> Crash OutOfFuel /\ unused_count (faces st') <= n.
Proof.
  intros Hcall st st' r Hn Hrun. rewrite recurse_edge_eq in Hrun.
  destruct (faces st !! f) as [fc |] eqn:Hf;
    [| injection Hrun as <- <-; split; [discriminate | exact Hn]].
  destruct (get3 (next fc) edge) as [f2 |] eqn:Hnx;
    [| injection Hrun as <- <-; split; [discriminate | exact Hn]].
  destruct (faces st !! f2) as [fc2 |] eqn:Hf2;
    [| injection Hrun as <- <-; split; [discriminate | exact Hn]].
  destruct (used fc2) eqn:Hu;
    [injection Hrun as <- <-; split; [discriminate | exact Hn] |].
  destruct (call f2 (get3 (next_edge fc) edge) st) as [st1 r1] eqn:Hc.
  destruct (Hcall _ _ _ _ _ _ Hf2 Hu Hn Hc) as [Hr Hm].
  apply unused_count_marks_more in Hm.
  destruct r1 as [v | e]; injection Hrun as <- <-;
    (split; [congruence | lia]).
Qed.

Lemma for_each_fuel {A : Type} (I : tstate -> Prop) (l : list A) (body : A -> M unit) :
  (forall x st st' r, I st -> body x st = (st', r) -> r <> Crash OutOfFuel /\ I st') ->
  forall st st' r, I st -> for_each l body st = (st', r) ->
                   r <> Crash OutOfFuel /\ I st'.
Proof.
  intros Hbody. induction l as [| x l IH]; intros st st' r HI Hrun.
  - cbn in Hrun. injection Hrun as <- <-. split; [discriminate | exact HI].
  - rewrite for_each_cons in Hrun.
    destruct (body x st) as [st1 [[] | e]] eqn:Hx.
    + destruct (Hbody _ _ _ _ HI Hx) as [_ HI1]. eapply IH; eassumption.
    + injection Hrun as <- <-. eapply Hbody; eassumption.
Qed.

Lemma recurse_fuel (n : nat) :
  forall f s st st' r fc,
    faces st !! f = Some fc -> used fc = false ->
    unused_count (faces st) <= n ->
    recurse n f s st = (st', r) ->
    r <> Crash OutOfFuel /\ marks_more (faces st) (faces st').
Proof.
  induction n as [| n IH]; intros f s st st' r fc Hf Hu Hn Hrun.
  - rewrite (unused_count_set_used _ _ _ Hf Hu) in Hn. lia.
  - assert (marks_more (faces st) (faces st')) as Hm.
    { apply recurse_visits in Hrun as (new & Hadv & _).
      - apply (adv_faces _ _ _ Hadv).
      - rewrite (is_used_lookup _ _ _ Hf). exact Hu. }
    split; [| exact Hm].
    rewrite recurse_S, Hf in Hrun.
    destruct (for_each edges _ _) as [st2 r2] eqn:Hloop.
    apply (for_each_fuel (fun st0 => unused_count (faces st0) <= n)) in Hloop.
    + destruct Hloop as [Hr2 _]. destruct r2; congruence.
    + intros e s1 s2 r0. apply recurse_edge_fuel. exact IH.
    + cbn [faces]. rewrite (unused_count_set_used _ _ _ Hf Hu) in Hn. lia.
Qed.

(** The traversal of [main] always comes to an end: with a value or with
    an invalid memory access, never by exhausting the bound. *)
Lemma traverse_total (fs : list face_t) (root : nat) (s : Z) :
  (traverse fs root s).2 <> Crash OutOfFuel.
Proof.
  unfold traverse. rewrite recurse_S. cbn [faces output depth].
  destruct (fs !! root) as [fc |] eqn:Hroot; [| discriminate].
  destruct (for_each edges _ _) as [st2 r2] eqn:Hloop.
  apply (for_each_fuel (fun st0 => unused_count (faces st0) <= length fs)) in Hloop.
  - destruct Hloop as [Hr2 _]. destruct r2; cbn; congruence.
  - intros e s1 s2 r0. apply recurse_edge_fuel. apply recurse_fuel.
  - cbn [faces].
    etransitivity; [apply unused_count_le_length |].
    rewrite length_alter. reflexivity.
Qed.

(** ** The whole run *)

Lemma fmap_alter_fixed {A B : Type} (f : A -> B) (g : A -> A) (l : list A) (i : nat) :
  (forall x, f (g x) = f x) -> f <$> alter g i l = f <$> l.
Proof.
  intros H. rewrite (list_fmap_alter f g id).
  - apply list_alter_id. reflexivity.
  - apply Forall_forall. intros x _. apply H.
Qed.

(** The construction loops write neither [sides] nor [used]. *)
Lemma build_graph_plain (stl_faces : list stl_face_t) :
  (fun fc => (sides fc, used fc)) <$> (build_graph stl_faces).1 =
  (fun t => (sides (face_of_stl t), false)) <$> stl_faces.
Proof.
  apply (build_graph_invariant stl_faces
           (fun fs => (fun fc => (sides fc, used fc)) <$> fs =
                      (fun t => (sides (face_of_stl t), false)) <$> stl_faces)).
  - intros stl stl2 i j edge edge2 fs _ _ _ _ _ _ _ _ _ HP.
    unfold link. cbv zeta.
    rewrite !fmap_alter_fixed by reflexivity. exact HP.
  - rewrite <- list_fmap_compose. apply list_fmap_ext. intros _ t _. reflexivity.
Qed.

Lemma build_graph_lookup (stl_faces : list stl_face_t) (i : nat) (t : stl_face_t) :
  stl_faces !! i = Some t ->
  exists fc, (build_graph stl_faces).1 !! i = Some fc
             /\ sides fc = sides (face_of_stl t) /\ used fc = false.
Proof.
  intros Ht.
  pose proof (f_equal (fun l => l !! i) (build_graph_plain stl_faces)) as H.
  cbv beta in H. rewrite !list_lookup_fmap, Ht in H. cbn in H.
  destruct ((build_graph stl_faces).1 !! i) as [fc |]; [| discriminate].
  injection H as Hs Hu. exists fc. auto.
Qed.

Lemma build_graph_unused (stl_faces : list stl_face_t) (i : nat) :
  is_used (build_graph stl_faces).1 i = false.
Proof.
  pose proof (f_equal (fun l => l !! i) (build_graph_plain stl_faces)) as H.
  cbv beta in H. rewrite !list_lookup_fmap in H. unfold is_used.
  destruct ((build_graph stl_faces).1 !! i) as [fc |]; [| reflexivity].
  destruct (stl_faces !! i); [| discriminate].
  cbn in H. congruence.
Qed.

Lemma link_of_unmark (fs fs' : list face_t) (a e : nat) :
  unmark <$> fs = unmark <$> fs' -> link_of fs a e = link_of fs' a e.
Proof.
  intros H. apply (f_equal (fun l => l !! a)) in H.
  rewrite !list_lookup_fmap in H. unfold link_of.
  destruct (fs !! a) as [x |], (fs' !! a) as [y |]; try discriminate; [| reflexivity].
  injection H as _ Hn Hne _. rewrite Hn, Hne. reflexivity.
Qed.

(** The run of [main] on the graph it built: what was written and which
    flags were raised. *)
Lemma main_advances (stl_faces : list stl_face_t) :
  advances (TState (graph (main stl_faces)) [] 0) (final (main stl_faces))
    (output (final (main stl_faces)))
  /\ Forall (has_parent (graph (main stl_faces))) (tail (output (final (main stl_faces)))).
Proof.
  unfold main. cbv zeta. cbn [graph final]. unfold traverse.
  destruct (recurse _ 0 0 _) as [st' r] eqn:Hrun. cbn [fst].
  apply recurse_visits in Hrun as (new & Hadv & Hpar & _);
    [| cbn [faces]; apply build_graph_unused].
  pose proof (adv_output _ _ _ Hadv) as Hout. cbn in Hout. subst new.
  split; assumption.
Qed.

(** No face is written twice, and the faces written are those whose flag
    is up when the process stops. *)
Lemma main_visits_once (stl_faces : list stl_face_t) :
  NoDup (r_face <$> output (final (main stl_faces)))
  /\ (forall i, i ∈ r_face <$> output (final (main stl_faces)) <->
                is_used (faces (final (main stl_faces))) i = true).
Proof.
  destruct (main_advances stl_faces) as [Hadv _].
  split; [apply (adv_nodup _ _ _ Hadv) |].
  intros i. rewrite (adv_fresh _ _ _ Hadv i). cbn [faces graph main].
  rewrite build_graph_unused. tauto.
Qed.

Lemma main_visited_count (stl_faces : list stl_face_t) :
  length (output (final (main stl_faces))) =
  length (filter (fun i => is_used (faces (final (main stl_faces))) i = true)
            (seq 0 (length stl_faces))).
Proof.
  destruct (main_visits_once stl_faces) as [Hnd Hin].
  rewrite <- (length_fmap r_face).
  apply Permutation_length, NoDup_Permutation.
  - exact Hnd.
  - apply NoDup_filter, NoDup_seq.
  - intros i. rewrite Hin, list_elem_of_filter, elem_of_seq.
    split; [| tauto]. intros Hu. split; [exact Hu |].
    split; [lia |]. cbn.
    unfold is_used in Hu.
    destruct (faces (final (main stl_faces)) !! i) as [fc |] eqn:E; [| discriminate].
    apply lookup_lt_Some in E.
    destruct (main_advances stl_faces) as [Hadv _].
    pose proof (Forall2_length _ _ _ (adv_faces _ _ _ Hadv)) as Hlen.
    cbn [faces] in Hlen.
    pose proof (f_equal length (build_graph_plain stl_faces)) as Hl.
    rewrite !length_fmap in Hl.
    cbn [graph main] in Hlen. lia.
Qed.

(** The run of [main] stops by returning or by an invalid memory access;
    the recursion bound of the model plays no part. *)
Lemma main_terminates (stl_faces : list stl_face_t) :
  exit (main stl_faces) <> Crash OutOfFuel.
Proof.
  unfold main. cbv zeta. cbn [exit].
  pose proof (traverse_total (build_graph stl_faces).1 0 0) as H.
  destruct (traverse _ 0 0).2; congruence.
Qed.

(** ** Closed meshes: the traversal reaches every connected face *)

Lemma marks_more_slot (fs fs' : list face_t) (a e : nat) :
  marks_more fs fs' -> slot fs' a e = slot fs a e.
Proof.
  intros H. rewrite !link_of_slot, (marks_more_link_of fs fs') by exact H.
  reflexivity.
Qed.

Lemma neighbours_used_mono (fs fs' : list face_t) (i : nat) :
  marks_more fs fs' -> neighbours_used fs i -> neighbours_used fs' i.
Proof.
  intros H Hn e He. destruct (Hn e He) as (j & Hs & Hu).
  exists j. rewrite (marks_more_slot fs fs') by exact H.
  split; [exact Hs | eapply marks_more_is_used; eassumption].
Qed.

Lemma descends_marks_more (st st' : tstate) :
  descends st st' -> marks_more (faces st) (faces st').
Proof. intros (new & Hadv & _). apply (adv_faces _ _ _ Hadv). Qed.

Lemma completes_refl (st : tstate) : completes st st.
Proof. intros i H1 H2. congruence. Qed.

Lemma completes_trans (st1 st2 st3 : tstate) :
  marks_more (faces st2) (faces st3) ->
  completes st1 st2 -> completes st2 st3 -> completes st1 st3.
Proof.
  intros Hm H12 H23 i H1 H3.
  destruct (is_used (faces st2) i) eqn:H2.
  - eapply neighbours_used_mono; [exact Hm |]. apply H12; assumption.
  - apply H23; assumption.
Qed.

(** A loop that ends normally has respected every relation that its
    normally ending iterations respect. *)
Lemma for_each_rel_ok {A : Type} (R : tstate -> tstate -> Prop) (l : list A)
    (body : A -> M unit) :
  (forall st, R st st) ->
  (forall st1 st2 st3, R st1 st2 -> R st2 st3 -> R st1 st3) ->
  (forall x st st' u, x ∈ l -> body x st = (st', Ok u) -> R st st') ->
  forall st st' u, for_each l body st = (st', Ok u) -> R st st'.
Proof.
  intros Hrefl Htrans.
  induction l as [| x l IH]; intros Hbody st st' u Hrun.
  - cbn in Hrun. unfold ret in Hrun. injection Hrun as <- _. apply Hrefl.
  - rewrite for_each_cons in Hrun.
    destruct (body x st) as [st1 [u1 | e]] eqn:Hx; [| discriminate].
    eapply Htrans; [eapply Hbody; [left | exact Hx] |].
    eapply IH; [| exact Hrun].
    intros y s1 s2 u2 Hy. apply Hbody. right. exact Hy.
Qed.

(** In a loop that ends normally every iteration ended normally. *)
Lemma for_each_ok_each {A : Type} (R : tstate -> tstate -> Prop) (l : list A)
    (body : A -> M unit) :
  (forall st, R st st) ->
  (forall st1 st2 st3, R st1 st2 -> R st2 st3 -> R st1 st3) ->
  (forall x st st' r, x ∈ l -> body x st = (st', r) -> R st st') ->
  forall st st' u, for_each l body st = (st', Ok u) ->
    forall x, x ∈ l ->
      exists s1 s2 u1, R st s1 /\ body x s1 = (s2, Ok u1) /\ R s2 st'.
Proof.
  intros Hrefl Htrans.
  induction l as [| y l IH]; intros Hbody st st' u Hrun x Hx.
  - apply elem_of_nil in Hx. contradiction.
  - rewrite for_each_cons in Hrun.
    destruct (body y st) as [st1 [u1 | e]] eqn:Hy; [| discriminate].
    assert (forall z s1 s2 r, z ∈ l -> body z s1 = (s2, r) -> R s1 s2) as Hbody'.
    { intros z s1 s2 r Hz. apply Hbody. right. exact Hz. }
    apply elem_of_cons in Hx as [-> | Hx].
    + exists st, st1, u1. split; [apply Hrefl |]. split; [exact Hy |].
      eapply for_each_rel; eassumption.
    + destruct (IH Hbody' _ _ _ Hrun x Hx) as (s1 & s2 & u2 & H1 & H2 & H3).
      exists s1, s2, u2. split; [| auto].
      eapply Htrans; [| exact H1]. eapply Hbody; [left | exact Hy].
Qed.

Lemma recurse_edge_ok (call : nat -> Z -> M Z) (f edge : nat) (st st' : tstate) (u : unit) :
  recurse_edge call f edge st = (st', Ok u) ->
  exists fc f2 fc2,
    faces st !! f = Some fc /\ get3 (next fc) edge = Some f2
    /\ faces st !! f2 = Some fc2
    /\ ((used fc2 = true /\ st' = st)
        \/ (used fc2 = false
            /\ exists v, call f2 (get3 (next_edge fc) edge) st = (st', Ok v))).
Proof.
  rewrite recurse_edge_eq.
  destruct (faces st !! f) as [fc |] eqn:Hf; [| discriminate].
  destruct (get3 (next fc) edge) as [f2 |] eqn:Hn; [| discriminate].
  destruct (faces st !! f2) as [fc2 |] eqn:Hf2; [| discriminate].
  intros Hrun. exists fc, f2, fc2.
  split; [reflexivity |]. split; [exact Hn |]. split; [exact Hf2 |].
  destruct (used fc2); [left; split; congruence | right; split; [reflexivity |]].
  destruct (call f2 _ st) as [st1 [v | e]]; [| discriminate].
  exists v. congruence.
Qed.

Lemma recurse_marks_root (n f : nat) (s : Z) (st st' : tstate) (v : Z) :
  recurse n f s st = (st', Ok v) -> is_used (faces st') f = true.
Proof.
  destruct n as [| n]; [discriminate |].
  rewrite recurse_S.
  destruct (faces st !! f) as [fc |] eqn:Hf; [| discriminate].
  destruct (for_each edges _ _) as [st2 r2] eqn:Hloop.
  intros Hrun. assert (st' = st2) as -> by (destruct r2; congruence).
  apply edge_loop_descends, descends_marks_more in Hloop.
  eapply marks_more_is_used; [exact Hloop |].
  cbn [faces]. unfold is_used. rewrite list_lookup_alter_eq, Hf. reflexivity.
Qed.

Lemma recurse_completes (n : nat) :
  forall f s st st' v,
    is_used (faces st) f = false ->
    recurse n f s st = (st', Ok v) -> completes st st'.
Proof.
  induction n as [| n IH]; intros f s st st' v Hunused Hrun; [discriminate |].
  rewrite recurse_S in Hrun.
  destruct (faces st !! f) as [fc |] eqn:Hf; [| discriminate].
  destruct (for_each edges _ _) as [st2 [u | e]] eqn:Hloop; [| discriminate].
  injection Hrun as <- _.
  set (st1 := TState (alter set_used f (faces st))
                (output st ++ [Record_ f s (sides fc)]) (depth st + 1)) in *.
  assert (forall e s1 s2 r, e ∈ edges ->
            recurse_edge (recurse n) f e s1 = (s2, r) -> descends s1 s2) as Hbody.
  { intros e s1 s2 r He.
    apply recurse_edge_descends; [apply edges_lt, He | apply recurse_visits]. }
  assert (descends st1 st2 /\ completes st1 st2) as [Hdesc Hcomp].
  { apply (for_each_rel_ok (fun a b => descends a b /\ completes a b)) in Hloop;
      [exact Hloop | | |].
    - intros s0. split; [apply descends_refl; reflexivity | apply completes_refl].
    - intros s1 s2 s3 [D1 C1] [D2 C2].
      split; [eapply descends_trans; eassumption |].
      eapply completes_trans; [apply descends_marks_more, D2 | exact C1 | exact C2].
    - intros e s1 s2 u0 He Hstep. split; [eapply Hbody; eassumption |].
      apply recurse_edge_ok in Hstep
        as (fc1 & f2 & fc2 & _ & _ & Hf2 & [[_ ->] | [Hu [w Hcall]]]).
      + apply completes_refl.
      + eapply IH; [| exact Hcall]. rewrite (is_used_lookup _ _ _ Hf2). exact Hu. }
  intros i Hi0 Hi1.
  destruct (decide (i = f)) as [-> | Hne].
  - intros e He.
    assert (e ∈ edges) as Hin.
    { unfold edges. destruct e as [| [| [| e]]]; [| | | lia];
        rewrite !elem_of_cons; auto. }
    destruct (for_each_ok_each descends edges _
                (fun s0 => descends_refl s0 s0 eq_refl eq_refl)
                descends_trans Hbody _ _ _ Hloop e Hin)
      as (s1 & s2 & u1 & D1 & Hstep & D2).
    pose proof (Hbody _ _ _ _ Hin Hstep) as D12.
    apply recurse_edge_ok in Hstep
      as (fc1 & f2 & fc2 & Hf1 & Hnext & Hf2 & Hcase).
    exists f2. split.
    + rewrite (marks_more_slot (faces s1) (faces st2))
        by (eapply marks_more_trans; apply descends_marks_more; eassumption).
      unfold slot. rewrite Hf1. exact Hnext.
    + apply (marks_more_is_used (faces s2)); [apply descends_marks_more, D2 |].
      destruct Hcase as [[Hu ->] | [_ [w Hcall]]].
      * rewrite (is_used_lookup _ _ _ Hf2). exact Hu.
      * eapply recurse_marks_root. exact Hcall.
  - apply Hcomp; [| exact Hi1].
    subst st1. cbn [faces]. unfold is_used in *.
    rewrite list_lookup_alter_ne by congruence. exact Hi0.
Qed.

Lemma main_run (stl_faces : list stl_face_t) :
  exists r,
    recurse (S (length (graph (main stl_faces)))) 0 0
      (TState (graph (main stl_faces)) [] 0) = (final (main stl_faces), r)
    /\ exit (main stl_faces) = match r with Ok _ => Ok 0%Z | Crash e => Crash e end.
Proof.
  unfold main. cbv zeta. cbn [graph final exit]. unfold traverse.
  destruct (recurse _ 0 0 _) as [st' r]. exists r. split; reflexivity.
Qed.

(** When [main] returns, every face connected to face 0 has been visited. *)
Lemma main_reaches_connected (stl_faces : list stl_face_t) (v : Z) (i : nat) :
  exit (main stl_faces) = Ok v ->
  reachable (graph (main stl_faces)) 0 i ->
  is_used (faces (final (main stl_faces))) i = true.
Proof.
  intros Hexit Hreach.
  destruct (main_run stl_faces) as (r & Hrun & Hr).
  rewrite Hexit in Hr. destruct r as [w |]; [| discriminate].
  pose proof (recurse_marks_root _ _ _ _ _ _ Hrun) as Hroot.
  assert (completes (TState (graph (main stl_faces)) [] 0) (final (main stl_faces)))
    as Hcomp.
  { eapply recurse_completes; [| exact Hrun]. apply build_graph_unused. }
  destruct (main_advances stl_faces) as [Hadv _].
  pose proof (adv_faces _ _ _ Hadv) as Hm. cbn [faces] in Hm.
  induction Hreach as [| b e c _ IH He Hslot]; [exact Hroot |].
  destruct (Hcomp b (build_graph_unused stl_faces b) IH e He) as (j & Hs & Hu).
  rewrite (marks_more_slot _ _ _ _ Hm), Hslot in Hs. congruence.
Qed.

Lemma well_linked_marks_more (fs fs' : list face_t) :
  marks_more fs fs' -> well_linked fs -> well_linked fs'.
Proof.
  intros Hm Hw i e Hi He.
  rewrite <- (Forall2_length _ _ _ Hm) in *.
  rewrite (marks_more_slot _ _ _ _ Hm). apply Hw; assumption.
Qed.

Lemma for_each_avoids {A : Type} (Bad : fault -> Prop) (I : tstate -> Prop)
    (l : list A) (body : A -> M unit) :
  (forall x st st' r, x ∈ l -> I st -> body x st = (st', r) ->
     (forall e, r = Crash e -> ~ Bad e) /\ I st') ->
  forall st st' r, I st -> for_each l body st = (st', r) ->
                   (forall e, r = Crash e -> ~ Bad e) /\ I st'.
Proof.
  induction l as [| x l IH]; intros Hbody st st' r HI Hrun.
  - cbn in Hrun. injection Hrun as <- <-. split; [discriminate | exact HI].
  - rewrite for_each_cons in Hrun.
    destruct (body x st) as [st1 [[] | e]] eqn:Hx.
    + destruct (Hbody _ _ _ _ ltac:(left) HI Hx) as [_ HI1].
      eapply IH; [| exact HI1 | exact Hrun].
      intros y s1 s2 r0 Hy. apply Hbody. right. exact Hy.
    + injection Hrun as <- <-. eapply Hbody; [left | eassumption..].
Qed.

(** On a graph without empty slots the traversal makes no invalid access. *)
Lemma recurse_safe (n : nat) :
  forall f s st st' r,
    well_linked (faces st) -> f < length (faces st) ->
    recurse n f s st = (st', r) ->
    forall e, r = Crash e -> e = OutOfFuel.
Proof.
  induction n as [| n IH]; intros f s st st' r Hw Hf Hrun e Hr.
  - cbn in Hrun. unfold crash in Hrun. congruence.
  - rewrite recurse_S in Hrun.
    destruct (lookup_lt_is_Some_2 _ _ Hf) as [fc Hfc]. rewrite Hfc in Hrun.
    destruct (for_each edges _ _) as [st2 r2] eqn:Hloop.
    apply (for_each_avoids (fun e0 => e0 <> OutOfFuel)
             (fun s0 => well_linked (faces s0) /\ f < length (faces s0)))
      in Hloop as [Hgood _].
    + destruct r2 as [u | e2]; [congruence |].
      injection Hrun as _ <-. injection Hr as <-.
      destruct e2; [exfalso; apply (Hgood _ eq_refl); discriminate ..| reflexivity].
    + intros edge s1 s2 r1 Hedge [Hw1 Hf1] Hstep. apply edges_lt in Hedge. split.
      * intros e1 -> Hbad. apply Hbad.
        rewrite recurse_edge_eq in Hstep.
        destruct (lookup_lt_is_Some_2 _ _ Hf1) as [fc1 Hfc1].
        rewrite Hfc1 in Hstep.
        destruct (Hw1 f edge Hf1 Hedge) as (j & Hs & Hj).
        unfold slot in Hs. rewrite Hfc1 in Hs. rewrite Hs in Hstep.
        destruct (lookup_lt_is_Some_2 _ _ Hj) as [fc2 Hfc2]. rewrite Hfc2 in Hstep.
        destruct (used fc2); [discriminate |].
        destruct (recurse n j _ s1) as [s3 r3] eqn:Hcall.
        destruct r3 as [w | e3]; [discriminate |].
        injection Hstep as _ <-.
        eapply IH; [exact Hw1 | exact Hj | exact Hcall | reflexivity].
      * apply recurse_edge_descends in Hstep;
          [| exact Hedge | apply recurse_visits].
        apply descends_marks_more in Hstep.
        split; [eapply well_linked_marks_more; eassumption |].
        rewrite <- (Forall2_length _ _ _ Hstep). exact Hf1.
    + cbn [faces]. split.
      * eapply well_linked_marks_more; [apply marks_more_set_used | exact Hw].
      * rewrite length_alter. exact Hf.
Qed.

(** A mesh in which no face was reported is traversed without a fault. *)
Lemma closed_mesh_returns (stl_faces : list stl_face_t) :
  stl_faces <> [] ->
  diagnostics (main stl_faces) = [] ->
  exit (main stl_faces) = Ok 0%Z.
Proof.
  intros Hne Hdiag.
  assert (length (graph (main stl_faces)) = length stl_faces) as Hlen.
  { pose proof (f_equal length (build_graph_plain stl_faces)) as Hl.
    rewrite !length_fmap in Hl. exact Hl. }
  assert (well_linked (graph (main stl_faces))) as Hw.
  { intros i e Hi He.
    destruct (link_of (graph (main stl_faces)) i e) as [[j s] |] eqn:Hlink.
    - exists j. rewrite link_of_slot, Hlink. split; [reflexivity |].
      destruct (build_graph_links_matched stl_faces i e j s He Hlink)
        as (eb & _ & _ & _ & ta & tb & _ & Hb & _).
      rewrite Hlen. eapply lookup_lt_Some. exact Hb.
    - exfalso.
      destruct (match_all_fold_reports stl_faces (seq 0 (length stl_faces))
                  (face_of_stl <$> stl_faces, [])) as (_ & _ & Hrep);
        [cbn; apply length_fmap |].
      specialize (Hrep i).
      unfold main in Hdiag. cbv zeta in Hdiag. cbn [diagnostics] in Hdiag.
      unfold build_graph in Hdiag. rewrite Hdiag in Hrep.
      eapply elem_of_nil, Hrep.
      + apply elem_of_seq. lia.
      + apply all_matched_false. exists e. split; [exact He |].
        rewrite link_of_slot.
        change (foldl (match_all stl_faces) (face_of_stl <$> stl_faces, [])
                  (seq 0 (length stl_faces))).1
          with (graph (main stl_faces)).
        rewrite Hlink. reflexivity. }
  destruct (main_run stl_faces) as (r & Hrun & Hr).
  rewrite Hr. destruct r as [w | e]; [reflexivity |].
  exfalso.
  pose proof (main_terminates stl_faces) as Hterm. rewrite Hr in Hterm.
  apply Hterm. f_equal.
  apply (recurse_safe _ _ _ _ _ _) with (e := e) in Hrun;
    [exact Hrun | exact Hw | | reflexivity].
  cbn [faces]. rewrite Hlen. destruct stl_faces; [congruence | cbn; lia].
Qed.

(** A closed, connected mesh: no face is reported and every face can be
    reached from face 0.  The traversal returns and has written every face
    exactly once. *)
Lemma closed_connected_mesh_visited_once (stl_faces : list stl_face_t) :
  stl_faces <> [] ->
  diagnostics (main stl_faces) = [] ->
  (forall i, i < length stl_faces -> reachable (graph (main stl_faces)) 0 i) ->
  exit (main stl_faces) = Ok 0%Z
  /\ r_face <$> output (final (main stl_faces)) ≡ₚ seq 0 (length stl_faces).
Proof.
  intros Hne Hdiag Hconn.
  pose proof (closed_mesh_returns stl_faces Hne Hdiag) as Hexit.
  split; [exact Hexit |].
  destruct (main_visits_once stl_faces) as [Hnd Hin].
  apply NoDup_Permutation; [exact Hnd | apply NoDup_seq |].
  intros i. rewrite Hin, elem_of_seq. split.
  - intros Hu. split; [lia |]. cbn.
    unfold is_used in Hu.
    destruct (faces (final (main stl_faces)) !! i) as [fc |] eqn:E; [| discriminate].
    apply lookup_lt_Some in E.
    destruct (main_advances stl_faces) as [Hadv _].
    pose proof (Forall2_length _ _ _ (adv_faces _ _ _ Hadv)) as Hlen.
    cbn [faces] in Hlen.
    pose proof (f_equal length (build_graph_plain stl_faces)) as Hl.
    rewrite !length_fmap in Hl. cbn [graph main] in Hlen. lia.
  - intros [_ Hi]. eapply main_reaches_connected; [exact Hexit |].
    apply Hconn. lia.
Qed.

Lemma tetrahedron_visited_once :
  exit (main (Mesh.tetrahedron 0)) = Ok 0%Z
  /\ r_face <$> output (final (main (Mesh.tetrahedron 0))) ≡ₚ seq 0 4.
Proof.
  apply (closed_connected_mesh_visited_once (Mesh.tetrahedron 0)).
  - discriminate.
  - vm_compute. reflexivity.
  - intros i Hi. cbn in Hi.
    destruct i as [| [| [| [| i]]]]; [| | | | lia].
    + apply reach_here.
    + apply (reach_step _ _ 0 2); [apply reach_here | lia | vm_compute; reflexivity].
    + apply (reach_step _ _ 0 1); [apply reach_here | lia | vm_compute; reflexivity].
    + apply (reach_step _ _ 0 0); [apply reach_here | lia | vm_compute; reflexivity].
Qed.

(** ** Symmetry of the links *)

(** C1.  On the two triangles of [Mesh.sliver] the finished graph is not
    symmetric: edge 0 of face 1 points to edge 0 of face 0, while edge 0 of
    face 0 points to edge 2 of face 1.  The loop over [edge2] does not stop
    at the first match, so the slot of face 0 is written three times. *)
Theorem sliver_links_not_symmetric :
  link_of (graph (main Mesh.sliver)) 1 0 = Some (0, 0%Z)
  /\ link_of (graph (main Mesh.sliver)) 0 0 = Some (1, 2%Z)
  /\ ~ symmetric_links (graph (main Mesh.sliver)).
Proof.
  assert (link_of (graph (main Mesh.sliver)) 1 0 = Some (0, 0%Z)) as H1
    by (vm_compute; reflexivity).
  assert (link_of (graph (main Mesh.sliver)) 0 0 = Some (1, 2%Z)) as H2
    by (vm_compute; reflexivity).
  split; [exact H1 |]. split; [exact H2 |].
  intros Hsym.
  specialize (Hsym 1 0 0 0 ltac:(lia) ltac:(lia) H1).
  rewrite H2 in Hsym. discriminate.
Qed.

(** ** Meshes on which the links are symmetric *)

Lemma link_of_None_slot (fs : list face_t) (a e : nat) :
  slot fs a e = None -> link_of fs a e = None.
Proof.
  rewrite link_of_slot. destruct (link_of fs a e); [discriminate | reflexivity].
Qed.

(** On an unambiguous mesh no slot is written twice and the finished graph
    is symmetric. *)
Lemma build_graph_symmetric (stl_faces : list stl_face_t) :
  unambiguous stl_faces -> symmetric_links (build_graph stl_faces).1.
Proof.
  intros Hun. apply build_graph_invariant.
  - intros stl stl2 i j edge edge2 fs Hij Hi Hj He He2 Hlen Hsj Hsi Heq HP.
    assert (slot fs i edge = None) as Hsi'.
    { destruct Hsi as [H | (e2' & Hlt & Hne & Heq')]; [exact H |].
      exfalso. apply Hne.
      apply (Hun i j stl stl2 edge); assumption. }
    apply link_of_None_slot in Hsi', Hsj.
    assert (i < length fs) as Hil by eauto using lookup_lt_of_stl.
    assert (j < length fs) as Hjl by eauto using lookup_lt_of_stl.
    intros a e b e2 Hlt Hlt2.
    rewrite !link_of_link by assumption.
    destruct (decide (a = i /\ e = edge)) as [[-> ->] | Hn1].
    { intros [= <- Hz]. apply Nat2Z.inj in Hz. subst e2.
      rewrite decide_False by (intros [? _]; congruence).
      rewrite decide_True by tauto. reflexivity. }
    destruct (decide (a = j /\ e = edge2)) as [[-> ->] | Hn2].
    { intros [= <- Hz]. apply Nat2Z.inj in Hz. subst e2.
      rewrite decide_True by tauto. reflexivity. }
    intros Hl. specialize (HP a e b e2 Hlt Hlt2 Hl).
    destruct (decide (b = i /\ e2 = edge)) as [[-> ->] | Hn3]; [congruence |].
    destruct (decide (b = j /\ e2 = edge2)) as [[-> ->] | Hn4]; [congruence |].
    exact HP.
  - intros a e b e2 _ _. rewrite link_of_initial. discriminate.
Qed.

(** The tetrahedron is unambiguous, closed and connected. *)
Lemma tetrahedron_unambiguous : unambiguous (Mesh.tetrahedron 0).
Proof.
  intros i j ti tj e e2 e2' Hi Hj _ He He2 He2'.
  assert (i < 4) as Hil by (apply lookup_lt_Some in Hi; exact Hi).
  assert (j < 4) as Hjl by (apply lookup_lt_Some in Hj; exact Hj).
  destruct i as [| [| [| [| i]]]]; [| | | | lia];
    (destruct j as [| [| [| [| j]]]]; [| | | | lia]);
    injection Hi as <-; injection Hj as <-;
    (destruct e as [| [| [| e]]]; [| | | lia]);
    (destruct e2 as [| [| [| e2]]]; [| | | lia]);
    (destruct e2' as [| [| [| e2']]]; [| | | lia]);
    try reflexivity; vm_compute; congruence.
Qed.

Lemma tetrahedron_symmetric : symmetric_links (graph (main (Mesh.tetrahedron 0))).
Proof. apply (build_graph_symmetric (Mesh.tetrahedron 0)), tetrahedron_unambiguous. Qed.

(** ** Visiting every face *)

(** C4.  The three triangles of [Mesh.fan] are connected: face 1 is the
    neighbour of face 0 across its edge 0 and face 2 the neighbour of
    face 1 across its edge 2.  The traversal writes faces 0 and 1 and then
    stops with a null dereference: the edge loop of face 1 reads
    [f2->used] through the empty slot of edge 1, before it comes to
    edge 2.  Face 2 is never visited: two of three faces are. *)
Theorem fan_traversal_leaves_a_face_unvisited :
  length Mesh.fan = 3
  /\ slot (graph (main Mesh.fan)) 0 0 = Some 1
  /\ slot (graph (main Mesh.fan)) 1 1 = None
  /\ slot (graph (main Mesh.fan)) 1 2 = Some 2
  /\ (forall i, i < 3 -> reachable (graph (main Mesh.fan)) 0 i)
  /\ r_face <$> output (final (main Mesh.fan)) = [0; 1]
  /\ is_used (faces (final (main Mesh.fan))) 2 = false
  /\ exit (main Mesh.fan) = Crash NullDeref.
Proof.
  assert (slot (graph (main Mesh.fan)) 0 0 = Some 1) as H01
    by (vm_compute; reflexivity).
  assert (slot (graph (main Mesh.fan)) 1 2 = Some 2) as H12
    by (vm_compute; reflexivity).
  split; [reflexivity |]. split; [exact H01 |].
  split; [vm_compute; reflexivity |]. split; [exact H12 |].
  split.
  - intros i Hi.
    assert (reachable (graph (main Mesh.fan)) 0 1) as Hr1.
    { eapply reach_step; [apply reach_here | | exact H01]. lia. }
    destruct i as [| [| [| i]]]; [apply reach_here | exact Hr1 | | lia].
    eapply reach_step; [exact Hr1 | | exact H12]. lia.
  - repeat split; vm_compute; reflexivity.
Qed.

(** ** The entering edge *)

(** C5.  When the edge loop of face [f] reaches an edge whose slot holds a
    face [f2] not yet visited, the next line written is the record of [f2],
    and its entering edge is the number stored with the slot when the graph
    was built: the number [eb] of the edge of [f2] that matched edge [edge]
    of [f], not [edge] itself. *)
Theorem entering_edge_is_neighbours_edge
    (stl_faces : list stl_face_t) (n f edge f2 : nat) (fc fc2 : face_t)
    (st st' : tstate) (r : result unit) :
  unmark <$> faces st = unmark <$> graph (main stl_faces) ->
  edge < 3 ->
  faces st !! f = Some fc ->
  get3 (next fc) edge = Some f2 ->
  faces st !! f2 = Some fc2 ->
  used fc2 = false ->
  recurse_edge (recurse (S n)) f edge st = (st', r) ->
  exists eb rest,
    eb < 3
    /\ get3 (next_edge fc) edge = Z.of_nat eb
    /\ edges_matched stl_faces f edge f2 eb
    /\ output st' = output st ++ Record_ f2 (Z.of_nat eb) (sides fc2) :: rest.
Proof.
  intros Hgraph He Hf Hn Hf2 Hu Hrun.
  assert (link_of (graph (main stl_faces)) f edge
          = Some (f2, get3 (next_edge fc) edge)) as Hlink.
  { rewrite <- (link_of_unmark _ _ f edge Hgraph).
    unfold link_of. rewrite Hf, Hn. reflexivity. }
  destruct (build_graph_links_matched stl_faces _ _ _ _ He Hlink)
    as (eb & Heb & Hlt & _ & Hmatch).
  rewrite recurse_edge_eq, Hf, Hn, Hf2, Hu in Hrun.
  destruct (recurse (S n) f2 _ st) as [st1 r1] eqn:Hcall.
  assert (st' = st1) as -> by (destruct r1; congruence).
  destruct (recurse_first_record _ _ _ _ _ _ _ Hf2 Hcall) as (rest & Hout & _).
  exists eb, rest. rewrite <- Heb. auto.
Qed.

(** In the tetrahedron, face 0 reaches face 3 through its edge 0 and face 3
    is entered by its edge 2. *)
Lemma entering_edge_is_neighbours_edge_witness :
  exists eb rest,
    eb < 3
    /\ get3 (Array3 2%Z 0%Z 0%Z) 0 = Z.of_nat eb
    /\ edges_matched (Mesh.tetrahedron 0) 0 0 3 eb
    /\ output (recurse_edge (recurse 5) 0 0
                 (TState (graph (main (Mesh.tetrahedron 0))) [] 0)).1
       = [] ++ Record_ 3 (Z.of_nat eb)
                 (Array3 (S754_finite false 8388608 (-23))
                         (S754_finite false 11863283 (-23))
                         (S754_finite false 8388608 (-23))) :: rest.
Proof.
  apply (entering_edge_is_neighbours_edge (Mesh.tetrahedron 0) 4 0 0 3
           (Face (Array3 (S754_finite false 8388608 (-23))
                         (S754_finite false 11863283 (-23))
                         (S754_finite false 8388608 (-23)))
                 (Array3 (Some 3) (Some 2) (Some 1))
                 (Array3 2%Z 0%Z 0%Z) (fill3 0%Z) false)
           (Face (Array3 (S754_finite false 8388608 (-23))
                         (S754_finite false 11863283 (-23))
                         (S754_finite false 8388608 (-23)))
                 (Array3 (Some 1) (Some 2) (Some 0))
                 (Array3 2%Z 1%Z 0%Z) (fill3 0%Z) false)
           (TState (graph (main (Mesh.tetrahedron 0))) [] 0)
           (recurse_edge (recurse 5) 0 0
              (TState (graph (main (Mesh.tetrahedron 0))) [] 0)).1
           (recurse_edge (recurse 5) 0 0
              (TState (graph (main (Mesh.tetrahedron 0))) [] 0)).2).
  - reflexivity.
  - lia.
  - vm_compute. reflexivity.
  - reflexivity.
  - vm_compute. reflexivity.
  - reflexivity.
  - vm_compute. reflexivity.
Defined.

(** ** The record of the root *)

(** C6, as stated, fails on the tetrahedron: the first line is written
    with entering edge 0, which is an edge number. *)
Lemma root_has_no_sentinel : ~ root_has_sentinel (Mesh.tetrahedron 0).
Proof.
  intros H.
  apply (H (Record_ 0 0%Z
              (Array3 (S754_finite false 8388608 (-23))
                      (S754_finite false 11863283 (-23))
                      (S754_finite false 8388608 (-23))))).
  - vm_compute. reflexivity.
  - left. reflexivity.
Qed.

(** C6, amended.  For every mesh with at least one triangle, the first
    line written is the record of face 0 with entering edge 0 and the
    three side lengths of triangle 0; the value 0 is also the number of an
    edge. *)
Theorem root_record_is_face_0_edge_0 (stl_faces : list stl_face_t) (t : stl_face_t) :
  stl_faces !! 0 = Some t ->
  exists rest,
    output (final (main stl_faces)) =
      Record_ 0 0%Z (sides (face_of_stl t)) :: rest
    /\ In 0%Z [0%Z; 1%Z; 2%Z].
Proof.
  intros Ht.
  destruct (build_graph_lookup stl_faces 0 t Ht) as (fc & Hfc & Hsides & _).
  unfold main. cbv zeta. cbn [final]. unfold traverse.
  destruct (recurse _ 0 0 _) as [st' r] eqn:Hrun. cbn [fst].
  apply (recurse_first_record _ _ _ _ _ _ fc) in Hrun as (rest & Hout & _);
    [| exact Hfc].
  exists rest. cbn in Hout. rewrite Hout, Hsides.
  split; [reflexivity | left; reflexivity].
Qed.

Lemma root_record_is_face_0_edge_0_witness :
  exists rest,
    output (final (main Mesh.single)) =
      Record_ 0 0%Z (sides (face_of_stl (Mesh.tri (Mesh.pt 0 0 0) (Mesh.pt 1 0 0) (Mesh.pt 0 1 0))))
        :: rest
    /\ In 0%Z [0%Z; 1%Z; 2%Z].
Proof.
  apply (root_record_is_face_0_edge_0 Mesh.single). reflexivity.
Defined.

(** ** Open meshes *)

(** C7, as stated, fails on a single triangle: face 0 is reported (by its
    number alone) and the traversal stops with a null dereference at the
    first empty slot. *)
Lemma single_triangle_not_traversed :
  diagnostics (main Mesh.single) = [0]
  /\ exit (main Mesh.single) = Crash NullDeref
  /\ ~ open_mesh_is_traversed Mesh.single.
Proof.
  assert (exit (main Mesh.single) = Crash NullDeref) as Hexit
    by (vm_compute; reflexivity).
  split; [vm_compute; reflexivity |]. split; [exact Hexit |].
  intros H. destruct H as [v Hv].
  - exists 0. split; [cbn; lia | vm_compute; reflexivity].
  - rewrite Hexit in Hv. discriminate.
Qed.

(** C7, amended.  The construction loops always run to the end, and every
    face that is left with an empty slot has its number among the
    diagnostics written. *)
Theorem missing_edges_reported (stl_faces : list stl_face_t) (i e : nat) :
  i < length stl_faces -> e < 3 ->
  slot (graph (main stl_faces)) i e = None ->
  i ∈ diagnostics (main stl_faces).
Proof.
  intros Hi He Hslot. unfold main. cbv zeta. cbn [graph diagnostics] in *.
  unfold build_graph in *.
  destruct (match_all_fold_reports stl_faces (seq 0 (length stl_faces))
              (face_of_stl <$> stl_faces, [])) as (_ & _ & Hrep).
  - cbn. apply length_fmap.
  - apply Hrep.
    + apply elem_of_seq. lia.
    + apply all_matched_false. exists e. auto.
Qed.

Lemma missing_edges_reported_witness : 0 ∈ diagnostics (main Mesh.single).
Proof.
  apply (missing_edges_reported Mesh.single 0 0).
  - cbn. lia.
  - lia.
  - vm_compute. reflexivity.
Defined.

(** ** What the traversal returns *)

(** C8, as stated, fails on two disjoint tetrahedra: four of the eight
    faces are visited and the value returned is the one returned for a
    single tetrahedron, all of whose faces are visited.  No reading of the
    value returned can tell the two runs apart. *)
Lemma partial_traversal_returns_like_full :
  length (output (final (main Mesh.two_tetrahedra))) = 4
  /\ length Mesh.two_tetrahedra = 8
  /\ exit (main Mesh.two_tetrahedra) = Ok 0%Z
  /\ length (output (final (main (Mesh.tetrahedron 0)))) = 4
  /\ length (Mesh.tetrahedron 0) = 4
  /\ exit (main (Mesh.tetrahedron 0)) = Ok 0%Z
  /\ ~ (exists complete,
          result_tells_completeness complete Mesh.two_tetrahedra
          /\ result_tells_completeness complete (Mesh.tetrahedron 0)).
Proof.
  assert (length (output (final (main Mesh.two_tetrahedra))) = 4) as H1
    by (vm_compute; reflexivity).
  assert (exit (main Mesh.two_tetrahedra) = Ok 0%Z) as H2
    by (vm_compute; reflexivity).
  assert (length (output (final (main (Mesh.tetrahedron 0)))) = 4) as H3
    by (vm_compute; reflexivity).
  assert (exit (main (Mesh.tetrahedron 0)) = Ok 0%Z) as H4
    by (vm_compute; reflexivity).
  repeat (split; [assumption || reflexivity |]).
  intros (complete & [Hpart _] & [_ Hfull]).
  rewrite H2, H1 in Hpart. rewrite H4, H3 in Hfull.
  specialize (Hpart (Hfull eq_refl)). cbn in Hpart. discriminate.
Qed.

(** C8, amended.  Whenever the traversal returns, it returns 0, however
    many faces it reached; the number of faces visited is not returned and
    equals the number of lines written. *)
Theorem traversal_returns_zero (stl_faces : list stl_face_t) (v : Z) :
  exit (main stl_faces) = Ok v ->
  v = 0%Z
  /\ (forall n f s st st' w, recurse n f s st = (st', Ok w) -> w = 0%Z)
  /\ length (output (final (main stl_faces))) =
     length (filter (fun i => is_used (faces (final (main stl_faces))) i = true)
               (seq 0 (length stl_faces))).
Proof.
  intros Hexit. split; [| split].
  - unfold main in Hexit. cbv zeta in Hexit. cbn [exit] in Hexit.
    destruct (traverse _ 0 0).2; congruence.
  - intros n f s st st' w. apply recurse_returns_zero.
  - apply main_visited_count.
Qed.

Lemma traversal_returns_zero_witness :
  0%Z = 0%Z
  /\ (forall n f s st st' w, recurse n f s st = (st', Ok w) -> w = 0%Z)
  /\ length (output (final (main Mesh.two_tetrahedra))) =
     length (filter (fun i => is_used (faces (final (main Mesh.two_tetrahedra))) i = true)
               (seq 0 (length Mesh.two_tetrahedra))).
Proof.
  apply (traversal_returns_zero Mesh.two_tetrahedra 0%Z).
  vm_compute. reflexivity.
Defined.

(** ** No face is its own neighbour *)

Lemma get3_set3_cases {A : Type} (a : array3 A) (k e : nat) (x : A) :
  get3 (set3 a k x) e = x \/ get3 (set3 a k x) e = get3 a e.
Proof.
  destruct k as [| [| k]], e as [| [| e]]; cbn; auto.
Qed.

Lemma neighbor_step_no_self (f1 i : nat) (fs : list Stl3d.stl_face_t) (j : nat) :
  no_self_face fs -> no_self_face (Stl3d.neighbor_step f1 i fs j).
Proof.
  intros H. unfold Stl3d.neighbor_step.
  destruct (decide (f1 = j)) as [| Hne]; [exact H |].
  destruct (fs !! f1) as [c1 |] eqn:H1; [| exact H].
  destruct (fs !! j) as [c2 |]; [| exact H].
  destruct (negb _); [exact H |].
  intros a fc e Ha.
  destruct (decide (a = f1)) as [-> | Hother].
  - rewrite !list_lookup_alter_eq, H1 in Ha. cbn in Ha. injection Ha as <-.
    cbn [Stl3d.face Stl3d.set_angle Stl3d.set_face].
    destruct (get3_set3_cases (Stl3d.face c1) i e (Some j)) as [-> | ->].
    + congruence.
    + eapply H. exact H1.
  - rewrite !list_lookup_alter_ne in Ha by congruence. eapply H. exact Ha.
Qed.

Lemma stl_find_neighbors_no_self (n : nat) (fs : list Stl3d.stl_face_t) (f1 : nat) :
  no_self_face fs -> no_self_face (Stl3d.stl_find_neighbors n fs f1).
Proof.
  intros H. unfold Stl3d.stl_find_neighbors.
  apply (foldl_invariant no_self_face); [| exact H].
  intros fs1 i _ H1.
  apply (foldl_invariant no_self_face); [| exact H1].
  intros fs2 j _ H2. apply neighbor_step_no_self. exact H2.
Qed.

Lemma add_triangle_slots_null v3_eq acc ift :
  slots_null acc -> slots_null (Stl3d.add_triangle v3_eq acc ift).
Proof.
  intros H. unfold Stl3d.add_triangle.
  apply (foldl_invariant slots_null); [| exact H].
  intros a j _ Ha. unfold Stl3d.add_corner.
  destruct a as [stl | x c]; [| exact I].
  destruct (Stl3d.stl_vertex_find _ _ _ _) as [[[v vs] n] | x c]; [| exact I].
  cbn in *. apply Forall_alter; [exact Ha |].
  intros fc _ Hfc. exact Hfc.
Qed.

Lemma stl_3d_parse_no_self v3_eq fts stl :
  Stl3d.stl_3d_parse v3_eq fts = Stl3d.Done stl ->
  no_self_face (Stl3d.face_arr stl).
Proof.
  unfold Stl3d.stl_3d_parse. cbv zeta.
  destruct (foldl _ _ _) as [stl1 | x c] eqn:Hfold; [| discriminate].
  intros [= <-]. cbn [Stl3d.face_arr].
  apply (foldl_invariant no_self_face).
  - intros fs f1 _. apply stl_find_neighbors_no_self.
  - assert (slots_null (Stl3d.Done stl1)) as Hnull.
    { rewrite <- Hfold. apply (foldl_invariant slots_null).
      - intros a ift _. apply add_triangle_slots_null.
      - cbn. apply Forall_replicate. reflexivity. }
    cbn in Hnull. intros a fc e Ha.
    rewrite Forall_forall in Hnull.
    rewrite (Hnull fc) by (eapply list_elem_of_lookup_2; exact Ha).
    destruct e as [| [| e]]; discriminate.
Qed.

(** C9.  No neighbour slot of a face ever holds the face itself: in
    [unfold.c], after any number of rounds of the outer construction loop,
    in the finished graph and in the face array the traversal leaves; in
    [stl_3d.c], in the face array [stl_3d_parse] returns.  Both files skip
    the pair of a face with itself. *)
Theorem no_face_is_its_own_neighbour :
  (forall stl_faces (l : list nat) i fc e,
     (foldl (match_all stl_faces) (face_of_stl <$> stl_faces, []) l).1 !! i = Some fc ->
     get3 (next fc) e <> Some i)
  /\ (forall stl_faces i fc e,
        graph (main stl_faces) !! i = Some fc -> get3 (next fc) e <> Some i)
  /\ (forall stl_faces i fc e,
        faces (final (main stl_faces)) !! i = Some fc -> get3 (next fc) e <> Some i)
  /\ (forall v3_eq fts stl i fc e,
        Stl3d.stl_3d_parse v3_eq fts = Stl3d.Done stl ->
        Stl3d.face_arr stl !! i = Some fc ->
        get3 (Stl3d.face fc) e <> Some i).
Proof.
  assert (forall stl_faces (l : list nat) i fc e,
     (foldl (match_all stl_faces) (face_of_stl <$> stl_faces, []) l).1 !! i = Some fc ->
     get3 (next fc) e <> Some i) as Hloops.
  { intros stl_faces l i fc e Hfc.
    pose proof (construction_no_self stl_faces l i (Nat.min e 2) ltac:(lia)) as Hns.
    rewrite get3_min. unfold slot in Hns. rewrite Hfc in Hns. exact Hns. }
  split; [exact Hloops |]. split; [| split].
  - intros stl_faces. apply Hloops.
  - intros stl_faces i fc e Hfc.
    destruct (main_advances stl_faces) as [Hadv _].
    destruct (Forall2_lookup_r _ _ _ _ _ (adv_faces _ _ _ Hadv) Hfc)
      as (fc0 & Hfc0 & [Hun _]).
    injection Hun as _ Hnext _ _. rewrite <- Hnext.
    eapply Hloops. exact Hfc0.
  - intros v3_eq fts stl i fc e Hparse Hfc.
    eapply stl_3d_parse_no_self; eassumption.
Qed.

Lemma no_face_is_its_own_neighbour_witness :
  get3 (Array3 (Some 3) (Some 2) (Some 1)) 0 <> Some 0.
Proof.
  apply (proj1 (proj2 no_face_is_its_own_neighbour) (Mesh.tetrahedron 0) 0
           (Face (Array3 (S754_finite false 8388608 (-23))
                         (S754_finite false 11863283 (-23))
                         (S754_finite false 8388608 (-23)))
                 (Array3 (Some 3) (Some 2) (Some 1))
                 (Array3 2%Z 0%Z 0%Z) (fill3 0%Z) false) 0).
  vm_compute. reflexivity.
Defined.

(** ** The vertex array of [stl_3d_parse] *)

(** C10.  For one triangle with three different corners [stl_3d_parse]
    allocates one vertex; the second corner is a new vertex and is written
    at index 1 of an array of capacity 1.  For the two triangles of
    [Mesh.pair] the third vertex is written at index 2 of an array of
    capacity 2.  A closed tetrahedron has as many vertices as faces and
    fits. *)
Theorem single_triangle_overflows_vertices :
  Stl3d.stl_3d_parse v3_eq (Mesh.file_triangle <$> Mesh.single) = Stl3d.Overflow 1 1
  /\ Stl3d.stl_3d_parse v3_eq (Mesh.file_triangle <$> Mesh.pair) = Stl3d.Overflow 2 2
  /\ exists stl,
       Stl3d.stl_3d_parse v3_eq (Mesh.file_triangle <$> Mesh.tetrahedron 0) = Stl3d.Done stl
       /\ Stl3d.num_vertex stl = 4.
Proof.
  split; [vm_compute; reflexivity |]. split; [vm_compute; reflexivity |].
  eexists. split; [vm_compute; reflexivity | reflexivity].
Qed.

(** * Further properties of [unfold.c] *)

(** ** Point and edge tests *)

Lemma in_eps_fsub_diag (a : float32) : in_eps (fsub a a) = is_number a.
Proof.
  destruct a as [[|] | [|] | | s m e]; try reflexivity.
  unfold fsub, SFsub. rewrite Z.sub_diag. reflexivity.
Qed.

(** [v3_eq] does not depend on the order of its two points. *)
Theorem v3_eq_symmetric (v1 v2 : v3_t) : v3_eq v1 v2 = v3_eq v2 v1.
Proof. symmetry. apply v3_eq_sym. Qed.

(** A point equals itself exactly when its three coordinates are numbers:
    a point with an infinite or not-a-number coordinate is different from
    itself. *)
Theorem v3_eq_self (v : v3_t) :
  v3_eq v v =
  is_number (get3 (p v) 0) && is_number (get3 (p v) 1) && is_number (get3 (p v) 2).
Proof. rewrite v3_eq_axes, !in_eps_fsub_diag. reflexivity. Qed.

(** [edge_eq] does not depend on the order of the two corners of the first
    triangle: it compares the edge in both directions. *)
Theorem edge_eq_either_direction (t0 t1 : stl_face_t) (e0 e1 : nat) :
  edge_eq t0 t1 e0 e1 = edge_eq t0 t1 e1 e0.
Proof.
  unfold edge_eq. cbv zeta.
  destruct (v3_eq (get3 (corner t0) e0) (get3 (corner t1) 0)),
    (v3_eq (get3 (corner t0) e0) (get3 (corner t1) 1)),
    (v3_eq (get3 (corner t0) e0) (get3 (corner t1) 2)),
    (v3_eq (get3 (corner t0) e1) (get3 (corner t1) 0)),
    (v3_eq (get3 (corner t0) e1) (get3 (corner t1) 1)),
    (v3_eq (get3 (corner t0) e1) (get3 (corner t1) 2)); reflexivity.
Qed.

(** Two edges that match as oriented edges ([edge_eq2]) also match as
    unoriented edges ([edge_eq]). *)
Theorem edge_eq2_implies_edge_eq (t0 t1 : stl_face_t) (e e2 : nat) :
  e2 < 3 ->
  edge_eq2 t0 t1 e e2 = true ->
  edge_eq t0 t1 e ((e + 1) mod 3) = true.
Proof.
  intros He2. unfold edge_eq2, edge_eq. cbv zeta.
  generalize ((e + 1) mod 3). intros e'.
  destruct e2 as [| [| [| e2]]]; [| | | lia]; cbn [Nat.add Nat.modulo Nat.divmod fst snd Nat.sub get3];
    destruct (v3_eq (get3 (corner t0) e) (elt0 (corner t1))),
      (v3_eq (get3 (corner t0) e) (elt1 (corner t1))),
      (v3_eq (get3 (corner t0) e) (elt2 (corner t1))),
      (v3_eq (get3 (corner t0) e') (elt0 (corner t1))),
      (v3_eq (get3 (corner t0) e') (elt1 (corner t1))),
      (v3_eq (get3 (corner t0) e') (elt2 (corner t1)));
    cbn; intros H; solve [reflexivity | discriminate H].
Qed.

Lemma edge_eq2_implies_edge_eq_witness :
  edge_eq (Mesh.tri (Mesh.pt 0 0 0) (Mesh.pt 1 0 0) (Mesh.pt 0 1 0))
          (Mesh.tri (Mesh.pt 1 0 0) (Mesh.pt 0 0 0) (Mesh.pt 0 0 1)) 0 ((0 + 1) mod 3) = true.
Proof.
  apply (edge_eq2_implies_edge_eq _ _ 0 0).
  - lia.
  - vm_compute. reflexivity.
Defined.

(** The oriented edge test gives the same answer when the two triangles
    (and their edges) change places. *)
Theorem edge_eq2_symmetric (t0 t1 : stl_face_t) (e0 e1 : nat) :
  edge_eq2 t0 t1 e0 e1 = edge_eq2 t1 t0 e1 e0.
Proof. symmetry. apply edge_eq2_sym. Qed.

(** ** The graph that [main] builds *)

Lemma build_graph_length (stl_faces : list stl_face_t) :
  length (build_graph stl_faces).1 = length stl_faces.
Proof.
  pose proof (f_equal length (build_graph_plain stl_faces)) as Hl.
  rewrite !length_fmap in Hl. exact Hl.
Qed.

Lemma set3_fill3 {A : Type} (x : A) (k : nat) : set3 (fill3 x) k x = fill3 x.
Proof. destruct k as [| [| k]]; reflexivity. Qed.

Lemma build_graph_coplanar (stl_faces : list stl_face_t) (i : nat) (fc : face_t) :
  (build_graph stl_faces).1 !! i = Some fc -> coplanar fc = fill3 0%Z.
Proof.
  revert i fc.
  apply (build_graph_invariant stl_faces
           (fun fs => forall i fc, fs !! i = Some fc -> coplanar fc = fill3 0%Z)).
  - intros stl stl2 a b edge edge2 fs Hab _ _ _ _ _ _ _ _ HP i fc.
    destruct (decide (i = a)) as [-> | Ha].
    + rewrite lookup_link_left by exact Hab.
      destruct (fs !! a) as [x |] eqn:Hx; [| discriminate].
      intros [= <-]. cbn. rewrite (HP a x Hx). apply set3_fill3.
    + destruct (decide (i = b)) as [-> | Hb].
      * rewrite lookup_link_right by exact Hab.
        destruct (fs !! b) as [x |] eqn:Hx; [| discriminate].
        intros [= <-]. cbn. rewrite (HP b x Hx). apply set3_fill3.
      * rewrite lookup_link_other by assumption. apply HP.
  - intros i fc. rewrite list_lookup_fmap.
    destruct (stl_faces !! i); [| discriminate]. intros [= <-]. reflexivity.
Qed.

(** The finished face array has one face for each triangle; face [i]
    carries the three side lengths of triangle [i], rounded to [float], its
    visited flag is down and its three coplanar flags are 0. *)
Theorem graph_faces_as_computed (stl_faces : list stl_face_t) :
  length (graph (main stl_faces)) = length stl_faces
  /\ forall i t, stl_faces !! i = Some t ->
       exists fc, graph (main stl_faces) !! i = Some fc
         /\ sides fc =
              Array3
                (float_of_double (v3_len (get3 (corner t) 0) (get3 (corner t) 1)))
                (float_of_double (v3_len (get3 (corner t) 1) (get3 (corner t) 2)))
                (float_of_double (v3_len (get3 (corner t) 2) (get3 (corner t) 0)))
         /\ used fc = false
         /\ coplanar fc = fill3 0%Z.
Proof.
  split; [apply build_graph_length |].
  intros i t Ht.
  destruct (build_graph_lookup stl_faces i t Ht) as (fc & Hfc & Hs & Hu).
  exists fc. split; [exact Hfc |]. split; [exact Hs |]. split; [exact Hu |].
  eapply build_graph_coplanar. exact Hfc.
Qed.

Lemma graph_faces_as_computed_witness :
  length (graph (main Mesh.single)) = length Mesh.single
  /\ forall i t, Mesh.single !! i = Some t ->
       exists fc, graph (main Mesh.single) !! i = Some fc
         /\ sides fc =
              Array3
                (float_of_double (v3_len (get3 (corner t) 0) (get3 (corner t) 1)))
                (float_of_double (v3_len (get3 (corner t) 1) (get3 (corner t) 2)))
                (float_of_double (v3_len (get3 (corner t) 2) (get3 (corner t) 0)))
         /\ used fc = false
         /\ coplanar fc = fill3 0%Z.
Proof. apply (graph_faces_as_computed Mesh.single). Defined.

(** Every filled slot of the finished graph holds another face of the mesh
    and the number of an edge of that face, and the two edges pass the
    oriented edge test. *)
Theorem graph_links_sound (stl_faces : list stl_face_t) (a e b : nat) (s : Z) :
  e < 3 ->
  link_of (graph (main stl_faces)) a e = Some (b, s) ->
  exists eb ta tb,
    s = Z.of_nat eb /\ eb < 3 /\ a <> b
    /\ stl_faces !! a = Some ta /\ stl_faces !! b = Some tb
    /\ edge_eq2 ta tb e eb = true.
Proof.
  intros He Hl.
  destruct (build_graph_links_matched stl_faces a e b s He Hl)
    as (eb & Hs & Hlt & Hne & ta & tb & Ha & Hb & Heq).
  exists eb, ta, tb. auto 10.
Qed.

Lemma graph_links_sound_witness :
  exists eb ta tb,
    2%Z = Z.of_nat eb /\ eb < 3 /\ 0 <> 3
    /\ Mesh.tetrahedron 0 !! 0 = Some ta /\ Mesh.tetrahedron 0 !! 3 = Some tb
    /\ edge_eq2 ta tb 0 eb = true.
Proof.
  apply (graph_links_sound (Mesh.tetrahedron 0) 0 0 3 2%Z).
  - lia.
  - vm_compute. reflexivity.
Defined.

(** On a mesh in which no edge passes the test against two edges of one
    other triangle, the links of the finished graph are symmetric. *)
Theorem graph_symmetric_when_unambiguous (stl_faces : list stl_face_t) :
  unambiguous stl_faces ->
  forall a e b e2, e < 3 -> e2 < 3 ->
    link_of (graph (main stl_faces)) a e = Some (b, Z.of_nat e2) ->
    link_of (graph (main stl_faces)) b e2 = Some (a, Z.of_nat e).
Proof. intros Hun. exact (build_graph_symmetric stl_faces Hun). Qed.

Lemma graph_symmetric_when_unambiguous_witness :
  link_of (graph (main (Mesh.tetrahedron 0))) 3 2 = Some (0, Z.of_nat 0).
Proof.
  apply (graph_symmetric_when_unambiguous (Mesh.tetrahedron 0)
           tetrahedron_unambiguous 0 0 3 2).
  - lia.
  - lia.
  - vm_compute. reflexivity.
Defined.

(** ** No matching pair of edges is left with both slots empty *)

Lemma foldl_establish {A B : Type} (Inv Good : A -> Prop) (f : A -> B -> A)
    (l : list B) (x : B) :
  x ∈ l ->
  (forall a y, y ∈ l -> Inv a -> Inv (f a y)) ->
  (forall a, Inv a -> Good (f a x)) ->
  (forall a y, y ∈ l -> Inv a -> Good a -> Good (f a y)) ->
  forall a, Inv a -> Good (foldl f a l).
Proof.
  induction l as [| y l IH]; intros Hx Hinv Hgood Hkeep a Ha.
  - apply elem_of_nil in Hx. contradiction.
  - cbn. apply elem_of_cons in Hx as [-> | Hx].
    + apply (foldl_invariant (fun b => Inv b /\ Good b)).
      * intros b z Hz [Hb Hg]. split; [apply Hinv | apply Hkeep]; auto; right; exact Hz.
      * split; [apply Hinv; [left | exact Ha] | apply Hgood; exact Ha].
    + apply IH; auto.
      * intros b z Hz. apply Hinv. right. exact Hz.
      * intros b z Hz. apply Hkeep. right. exact Hz.
      * apply Hinv; [left | exact Ha].
Qed.

Lemma fills_more_refl (fs : list face_t) : fills_more fs fs.
Proof. intros a e _ H. exact H. Qed.

Lemma fills_more_trans (fs1 fs2 fs3 : list face_t) :
  fills_more fs1 fs2 -> fills_more fs2 fs3 -> fills_more fs1 fs3.
Proof. intros H12 H23 a e He H. apply H23, H12; assumption. Qed.

Lemma link_fills_more stl stl2 i j edge edge2 (fs : list face_t) :
  i <> j -> i < length fs -> j < length fs -> edge < 3 -> edge2 < 3 ->
  fills_more fs (link stl stl2 i j edge edge2 fs).
Proof.
  intros Hij Hi Hj He He2 a e Hlt Ha.
  rewrite link_of_slot, link_of_link by assumption.
  repeat case_decide; cbn; try discriminate.
  rewrite <- link_of_slot. exact Ha.
Qed.

Lemma match_edge2_mono stl stl2 i j edge k (fs : list face_t) :
  i <> j -> i < length fs -> j < length fs -> edge < 3 -> k < 3 ->
  fills_more fs (match_edge2 stl stl2 i j edge fs k)
  /\ length (match_edge2 stl stl2 i j edge fs k) = length fs.
Proof.
  intros Hij Hi Hj He Hk. unfold match_edge2.
  destruct (negb _); [split; [apply fills_more_refl | reflexivity] |].
  destruct (negb _); [split; [apply fills_more_refl | reflexivity] |].
  split; [apply link_fills_more; assumption | apply length_link].
Qed.

(** After the test of edge [k] of the second face, a matching edge [k] is
    no longer free. *)
Lemma match_edge2_fills stl stl2 i j edge k (fs : list face_t) :
  i <> j -> i < length fs -> j < length fs -> edge < 3 -> k < 3 ->
  edge_eq2 stl stl2 edge k = true ->
  slot (match_edge2 stl stl2 i j edge fs k) j k <> None.
Proof.
  intros Hij Hi Hj He Hk Heq. unfold match_edge2.
  destruct (slot fs j k) eqn:Hs; cbn; [rewrite Hs; discriminate |].
  rewrite Heq. cbn.
  rewrite link_of_slot, link_of_link by assumption.
  rewrite decide_False by (intros [? _]; congruence).
  rewrite decide_True by tauto. discriminate.
Qed.

Lemma match_edge_mono stl stl2 i j edge (fs : list face_t) :
  i <> j -> i < length fs -> j < length fs -> edge < 3 ->
  fills_more fs (match_edge stl stl2 i j fs edge)
  /\ length (match_edge stl stl2 i j fs edge) = length fs.
Proof.
  intros Hij Hi Hj He. unfold match_edge.
  destruct (negb _); [split; [apply fills_more_refl | reflexivity] |].
  apply (foldl_invariant (fun a => fills_more fs a /\ length a = length fs)).
  - intros a k Hk [Hm Hl]. apply edges_lt in Hk.
    destruct (match_edge2_mono stl stl2 i j edge k a) as [Hm' Hl'];
      try assumption; try (rewrite Hl; assumption).
    split; [eapply fills_more_trans; eassumption | congruence].
  - split; [apply fills_more_refl | reflexivity].
Qed.

Lemma edges_elem (e : nat) : e < 3 -> e ∈ edges.
Proof.
  intros He. unfold edges.
  destruct e as [| [| [| e]]]; [| | | lia]; rewrite !elem_of_cons; auto.
Qed.

Lemma match_edge_fills stl stl2 i j edge k (fs : list face_t) :
  i <> j -> i < length fs -> j < length fs -> edge < 3 -> k < 3 ->
  edge_eq2 stl stl2 edge k = true ->
  slot (match_edge stl stl2 i j fs edge) i edge <> None
  \/ slot (match_edge stl stl2 i j fs edge) j k <> None.
Proof.
  intros Hij Hi Hj He Hk Heq. unfold match_edge.
  destruct (slot fs i edge) eqn:Hs; cbn [negb is_null];
    [left; rewrite Hs; discriminate |].
  right.
  apply (foldl_establish (fun a => length a = length fs)
           (fun a => slot a j k <> None) _ edges k).
  - apply edges_elem. exact Hk.
  - intros a y Hy Hl. apply edges_lt in Hy.
    rewrite <- Hl. apply match_edge2_mono; try assumption; rewrite Hl; assumption.
  - intros a Hl. apply match_edge2_fills; try assumption; rewrite Hl; assumption.
  - intros a y Hy Hl Hg. apply edges_lt in Hy.
    apply (match_edge2_mono stl stl2 i j edge y a); try assumption;
      rewrite ?Hl; assumption.
  - reflexivity.
Qed.

Lemma match_face_mono (stl_faces : list stl_face_t) i j (fs : list face_t) :
  length fs = length stl_faces ->
  fills_more fs (match_face stl_faces i fs j)
  /\ length (match_face stl_faces i fs j) = length fs.
Proof.
  intros Hlen. unfold match_face.
  destruct (decide (i = j)) as [| Hij]; [split; [apply fills_more_refl | reflexivity] |].
  destruct (stl_faces !! i) as [ti |] eqn:Hi;
    [| split; [apply fills_more_refl | reflexivity]].
  destruct (stl_faces !! j) as [tj |] eqn:Hj;
    [| split; [apply fills_more_refl | reflexivity]].
  apply lookup_lt_Some in Hi, Hj.
  apply (foldl_invariant (fun a => fills_more fs a /\ length a = length fs)).
  - intros a e He [Hm Hl]. apply edges_lt in He.
    destruct (match_edge_mono ti tj i j e a) as [Hm' Hl'];
      try assumption; try (rewrite Hl, Hlen; assumption).
    split; [eapply fills_more_trans; eassumption | congruence].
  - split; [apply fills_more_refl | reflexivity].
Qed.

Lemma match_face_fills (stl_faces : list stl_face_t) i j ti tj e e2 (fs : list face_t) :
  length fs = length stl_faces ->
  stl_faces !! i = Some ti -> stl_faces !! j = Some tj -> i <> j ->
  e < 3 -> e2 < 3 -> edge_eq2 ti tj e e2 = true ->
  slot (match_face stl_faces i fs j) i e <> None
  \/ slot (match_face stl_faces i fs j) j e2 <> None.
Proof.
  intros Hlen Hi Hj Hij He He2 Heq. unfold match_face.
  rewrite decide_False by exact Hij. rewrite Hi, Hj.
  apply lookup_lt_Some in Hi, Hj.
  apply (foldl_establish (fun a => length a = length fs)
           (fun a => slot a i e <> None \/ slot a j e2 <> None) _ edges e).
  - apply edges_elem. exact He.
  - intros a y Hy Hl. apply edges_lt in Hy.
    rewrite <- Hl. apply match_edge_mono; try assumption; rewrite Hl, Hlen; assumption.
  - intros a Hl. apply match_edge_fills; try assumption; rewrite Hl, Hlen; assumption.
  - intros a y Hy Hl Hg. apply edges_lt in Hy.
    destruct (match_edge_mono ti tj i j y a) as [Hm _];
      try assumption; try (rewrite Hl, Hlen; assumption).
    destruct Hg as [Hg | Hg]; [left | right]; apply Hm; assumption.
  - reflexivity.
Qed.

(** The property that pass [i] of the outer loop establishes for face [i]:
    whenever an edge of face [i] passes the test against an edge of
    another face, one of the two slots is filled. *)
Lemma match_all_fills (stl_faces : list stl_face_t) acc i j ti tj e e2 :
  length acc.1 = length stl_faces ->
  stl_faces !! i = Some ti -> stl_faces !! j = Some tj -> i <> j ->
  e < 3 -> e2 < 3 -> edge_eq2 ti tj e e2 = true ->
  slot (match_all stl_faces acc i).1 i e <> None
  \/ slot (match_all stl_faces acc i).1 j e2 <> None.
Proof.
  intros Hlen Hi Hj Hij He He2 Heq. rewrite match_all_fst.
  apply (foldl_establish (fun a => length a = length stl_faces)
           (fun a => slot a i e <> None \/ slot a j e2 <> None) _ _ j).
  - apply elem_of_seq. apply lookup_lt_Some in Hj. lia.
  - intros a y _ Hl. rewrite <- Hl. apply match_face_mono. exact Hl.
  - intros a Hl. eapply match_face_fills; eassumption.
  - intros a y _ Hl Hg.
    destruct (match_face_mono stl_faces i y a Hl) as [Hm _].
    destruct Hg as [Hg | Hg]; [left | right]; apply Hm; assumption.
  - exact Hlen.
Qed.

(** In the finished graph no two edges of different faces that pass the
    oriented edge test are both left without a neighbour. *)
Theorem graph_matching_maximal (stl_faces : list stl_face_t) (i j : nat)
    (ti tj : stl_face_t) (e e2 : nat) :
  stl_faces !! i = Some ti -> stl_faces !! j = Some tj -> i <> j ->
  e < 3 -> e2 < 3 -> edge_eq2 ti tj e e2 = true ->
  slot (graph (main stl_faces)) i e <> None
  \/ slot (graph (main stl_faces)) j e2 <> None.
Proof.
  intros Hi Hj Hij He He2 Heq.
  change (graph (main stl_faces)) with (build_graph stl_faces).1.
  unfold build_graph.
  apply (foldl_establish (fun acc => length acc.1 = length stl_faces)
           (fun acc => slot acc.1 i e <> None \/ slot acc.1 j e2 <> None) _ _ i).
  - apply elem_of_seq. apply lookup_lt_Some in Hi. lia.
  - intros acc y _ Hl. apply match_all_fills_more. exact Hl.
  - intros acc Hl. eapply match_all_fills; eassumption.
  - intros acc y _ Hl Hg.
    destruct (match_all_fills_more stl_faces acc y Hl) as [Hm _].
    destruct Hg as [Hg | Hg]; [left | right]; apply Hm; assumption.
  - cbn. apply length_fmap.
Qed.

Lemma graph_matching_maximal_witness :
  slot (graph (main Mesh.pair)) 0 0 <> None
  \/ slot (graph (main Mesh.pair)) 1 0 <> None.
Proof.
  apply (graph_matching_maximal Mesh.pair 0 1
           (Mesh.tri (Mesh.pt 0 0 0) (Mesh.pt 1 0 0) (Mesh.pt 0 1 0))
           (Mesh.tri (Mesh.pt 1 0 0) (Mesh.pt 0 0 0) (Mesh.pt 0 0 1)) 0 0).
  - reflexivity.
  - reflexivity.
  - lia.
  - lia.
  - lia.
  - vm_compute. reflexivity.
Defined.

(** ** The diagnostics are exactly the faces short of a neighbour *)

Lemma slot_lookup (fs fs' : list face_t) (i e : nat) :
  fs' !! i = fs !! i -> slot fs' i e = slot fs i e.
Proof. intros H. unfold slot. rewrite H. reflexivity. Qed.

Lemma all_matched_lookup (fs fs' : list face_t) (i : nat) :
  fs' !! i = fs !! i -> all_matched fs' i = all_matched fs i.
Proof.
  intros H. unfold all_matched. rewrite !(slot_lookup fs fs') by exact H.
  reflexivity.
Qed.

Lemma match_edge2_frame stl stl2 i j edge k (fs : list face_t) (c : nat) :
  c <> i -> c <> j -> match_edge2 stl stl2 i j edge fs k !! c = fs !! c.
Proof.
  intros Hi Hj. unfold match_edge2.
  destruct (negb _); [reflexivity |]. destruct (negb _); [reflexivity |].
  apply lookup_link_other; assumption.
Qed.

Lemma match_edge_frame stl stl2 i j edge (fs : list face_t) (c : nat) :
  c <> i -> c <> j -> match_edge stl stl2 i j fs edge !! c = fs !! c.
Proof.
  intros Hi Hj. unfold match_edge.
  destruct (negb _); [reflexivity |].
  apply (foldl_invariant (fun a => a !! c = fs !! c)); [| reflexivity].
  intros a k _ Ha. rewrite match_edge2_frame by assumption. exact Ha.
Qed.

Lemma match_face_frame (stl_faces : list stl_face_t) i j (fs : list face_t) (c : nat) :
  c <> i -> c <> j -> match_face stl_faces i fs j !! c = fs !! c.
Proof.
  intros Hi Hj. unfold match_face.
  destruct (decide (i = j)); [reflexivity |].
  destruct (stl_faces !! i); [| reflexivity].
  destruct (stl_faces !! j); [| reflexivity].
  apply (foldl_invariant (fun a => a !! c = fs !! c)); [| reflexivity].
  intros a e _ Ha. rewrite match_edge_frame by assumption. exact Ha.
Qed.

Lemma match_edge2_noop stl stl2 i j edge k (fs : list face_t) :
  (edge_eq2 stl stl2 edge k = true -> slot fs j k <> None) ->
  match_edge2 stl stl2 i j edge fs k = fs.
Proof.
  intros H. unfold match_edge2.
  destruct (slot fs j k) eqn:Hs; [reflexivity |]. cbn [negb is_null].
  destruct (edge_eq2 stl stl2 edge k); [| reflexivity].
  exfalso. apply H; reflexivity.
Qed.

Lemma match_edge_noop stl stl2 i j edge (fs : list face_t) :
  (forall k, k < 3 -> edge_eq2 stl stl2 edge k = true ->
             slot fs i edge <> None \/ slot fs j k <> None) ->
  match_edge stl stl2 i j fs edge = fs.
Proof.
  intros H. unfold match_edge.
  destruct (slot fs i edge) eqn:Hs; [reflexivity |]. cbn [negb is_null].
  assert (forall k, k < 3 -> match_edge2 stl stl2 i j edge fs k = fs) as Hk.
  { intros k Hlt. apply match_edge2_noop. intros Heq.
    destruct (H k Hlt Heq) as [Hi | Hj]; [exfalso; apply Hi; reflexivity | exact Hj]. }
  unfold edges. cbn [foldl]. rewrite !Hk by lia. reflexivity.
Qed.

Lemma match_face_noop (stl_faces : list stl_face_t) i j ti tj (fs : list face_t) :
  stl_faces !! i = Some ti -> stl_faces !! j = Some tj ->
  (forall e k, e < 3 -> k < 3 -> edge_eq2 ti tj e k = true ->
               slot fs i e <> None \/ slot fs j k <> None) ->
  match_face stl_faces i fs j = fs.
Proof.
  intros Hi Hj H. unfold match_face.
  destruct (decide (i = j)); [reflexivity |]. rewrite Hi, Hj.
  assert (forall e, e < 3 -> match_edge ti tj i j fs e = fs) as He.
  { intros e Hlt. apply match_edge_noop. intros k Hk. apply H; assumption. }
  unfold edges. cbn [foldl]. rewrite !He by lia. reflexivity.
Qed.

Lemma settled_mono (stl_faces : list stl_face_t) (i : nat) (fs fs' : list face_t) :
  fills_more fs fs' -> settled stl_faces i fs -> settled stl_faces i fs'.
Proof.
  intros Hm Hs j ti tj e e2 Hi Hj Hne He He2 Heq.
  destruct (Hs j ti tj e e2 Hi Hj Hne He He2 Heq) as [H | H];
    [left | right]; apply Hm; assumption.
Qed.

Lemma match_all_settles (stl_faces : list stl_face_t) acc i :
  length acc.1 = length stl_faces ->
  settled stl_faces i (match_all stl_faces acc i).1.
Proof.
  intros Hlen j ti tj e e2 Hi Hj Hne He He2 Heq.
  eapply match_all_fills; eauto.
Qed.

(** A later pass of the outer loop does not touch a settled face. *)
Lemma match_all_keeps_face (stl_faces : list stl_face_t) acc i i0 :
  i <> i0 -> length acc.1 = length stl_faces ->
  settled stl_faces i0 acc.1 ->
  (match_all stl_faces acc i).1 !! i0 = acc.1 !! i0.
Proof.
  intros Hne Hlen Hset. rewrite match_all_fst.
  eapply proj1.
  apply (foldl_invariant
           (fun a => a !! i0 = acc.1 !! i0
                     /\ fills_more acc.1 a /\ length a = length stl_faces)).
  - intros a j _ (Hsame & Hm & Hl).
    destruct (match_face_mono stl_faces i j a Hl) as [Hm' Hl'].
    split; [| split; [eapply fills_more_trans; eassumption | congruence]].
    destruct (decide (j = i0)) as [-> | Hj]; [| rewrite match_face_frame by congruence; exact Hsame].
    destruct (stl_faces !! i) as [ti |] eqn:Hi;
      [| unfold match_face; rewrite Hi; destruct (decide (i = i0)); exact Hsame].
    destruct (stl_faces !! i0) as [t0 |] eqn:H0;
      [| unfold match_face; rewrite Hi, H0; destruct (decide (i = i0)); exact Hsame].
    rewrite (match_face_noop stl_faces i i0 ti t0 a Hi H0); [exact Hsame |].
    intros e k He Hk Heq. rewrite <- edge_eq2_sym in Heq.
    destruct (settled_mono _ _ _ _ Hm Hset i t0 ti k e H0 Hi Hne Hk He Heq) as [H | H];
      [right | left]; exact H.
  - split; [reflexivity |]. split; [apply fills_more_refl | exact Hlen].
Qed.

Lemma match_all_fold_keeps_face (stl_faces : list stl_face_t) (l : list nat) (i0 : nat) :
  i0 ∉ l ->
  forall acc, length acc.1 = length stl_faces ->
    settled stl_faces i0 acc.1 ->
    (foldl (match_all stl_faces) acc l).1 !! i0 = acc.1 !! i0.
Proof.
  induction l as [| i l IH]; intros Hnotin acc Hlen Hset; [reflexivity |].
  cbn [foldl]. apply not_elem_of_cons in Hnotin as [Hne Hnotin].
  destruct (match_all_fills_more stl_faces acc i Hlen) as [Hm Hlen'].
  rewrite IH; [| exact Hnotin | exact Hlen' | eapply settled_mono; eassumption].
  apply match_all_keeps_face; [congruence | exact Hlen | exact Hset].
Qed.

Lemma match_all_fold_diagnostics (stl_faces : list stl_face_t) (l : list nat) :
  NoDup l ->
  forall acc, length acc.1 = length stl_faces ->
    (foldl (match_all stl_faces) acc l).2 =
    acc.2 ++ filter (fun i => all_matched (foldl (match_all stl_faces) acc l).1 i = false) l.
Proof.
  induction 1 as [| i l Hnotin Hnd IH]; intros acc Hlen.
  - cbn. rewrite app_nil_r. reflexivity.
  - cbn [foldl].
    destruct (match_all_fills_more stl_faces acc i Hlen) as [_ Hlen'].
    rewrite (IH _ Hlen'), match_all_snd.
    assert (all_matched (foldl (match_all stl_faces) (match_all stl_faces acc i) l).1 i
            = all_matched (match_all stl_faces acc i).1 i) as Hsame.
    { apply all_matched_lookup.
      apply match_all_fold_keeps_face; [exact Hnotin | exact Hlen' |].
      apply match_all_settles. exact Hlen. }
    destruct (all_matched (match_all stl_faces acc i).1 i) eqn:E.
    + rewrite filter_cons_False by congruence. reflexivity.
    + rewrite filter_cons_True by congruence. rewrite <- app_assoc. reflexivity.
Qed.

(** The lines ["%d: missing edges?"] name, in ascending order and once
    each, exactly the faces that have an empty slot in the finished graph:
    a face reported at the end of its own pass gains no neighbour later. *)
Theorem diagnostics_exact (stl_faces : list stl_face_t) :
  diagnostics (main stl_faces) =
  filter (fun i => all_matched (graph (main stl_faces)) i = false)
    (seq 0 (length stl_faces)).
Proof.
  change (diagnostics (main stl_faces)) with (build_graph stl_faces).2.
  change (graph (main stl_faces)) with (build_graph stl_faces).1.
  unfold build_graph.
  rewrite (match_all_fold_diagnostics stl_faces _ (NoDup_seq 0 _))
    by (cbn; apply length_fmap).
  reflexivity.
Qed.

(** ** What the traversal leaves and writes *)

(** The traversal changes nothing in the face array but visited flags:
    sides, neighbours, neighbour edges and coplanar flags of every face are
    those of the finished graph. *)
Theorem traversal_only_raises_flags (stl_faces : list stl_face_t) (i : nat) (fc' : face_t) :
  faces (final (main stl_faces)) !! i = Some fc' ->
  exists fc,
    graph (main stl_faces) !! i = Some fc
    /\ sides fc' = sides fc /\ next fc' = next fc
    /\ next_edge fc' = next_edge fc /\ coplanar fc' = coplanar fc.
Proof.
  intros Hfc'.
  destruct (main_advances stl_faces) as [Hadv _].
  destruct (Forall2_lookup_r _ _ _ _ _ (adv_faces _ _ _ Hadv) Hfc')
    as (fc & Hfc & [Hun _]).
  exists fc. split; [exact Hfc |].
  injection Hun as H1 H2 H3 H4. auto.
Qed.

Lemma traversal_only_raises_flags_witness :
  exists fc,
    graph (main Mesh.pair) !! 1 = Some fc
    /\ sides (Face (Array3 (S754_finite false 8388608 (-23))
                           (S754_finite false 8388608 (-23))
                           (S754_finite false 11863283 (-23)))
                   (Array3 (Some 0) None None) (fill3 0%Z) (fill3 0%Z) true)
       = sides fc
    /\ Array3 (Some 0) None None = next fc
    /\ fill3 0%Z = next_edge fc /\ fill3 0%Z = coplanar fc.
Proof.
  apply (traversal_only_raises_flags Mesh.pair 1
           (Face (Array3 (S754_finite false 8388608 (-23))
                         (S754_finite false 8388608 (-23))
                         (S754_finite false 11863283 (-23)))
                 (Array3 (Some 0) None None) (fill3 0%Z) (fill3 0%Z) true)).
  vm_compute. reflexivity.
Defined.

Lemma writes_sides_refl (st st' : tstate) :
  faces st' = faces st -> output st' = output st -> writes_sides st st'.
Proof.
  intros Hf Ho. split; [rewrite Hf; apply marks_more_refl |].
  exists []. rewrite Ho, app_nil_r. split; [reflexivity | apply Forall_nil_2].
Qed.

Lemma writes_sides_trans (st1 st2 st3 : tstate) :
  writes_sides st1 st2 -> writes_sides st2 st3 -> writes_sides st1 st3.
Proof.
  intros [M1 (n1 & O1 & F1)] [M2 (n2 & O2 & F2)].
  split; [eapply marks_more_trans; eassumption |].
  exists (n1 ++ n2). split; [rewrite O2, O1, app_assoc; reflexivity |].
  apply Forall_app. split; [exact F1 |].
  eapply Forall_impl; [exact F2 |].
  intros r (fc2 & Hfc2 & Hs).
  destruct (Forall2_lookup_r _ _ _ _ _ M1 Hfc2) as (fc1 & Hfc1 & [Hun _]).
  exists fc1. split; [exact Hfc1 |].
  injection Hun as H _ _ _. congruence.
Qed.

Lemma recurse_writes_sides (n : nat) :
  forall f s st st' r, recurse n f s st = (st', r) -> writes_sides st st'.
Proof.
  induction n as [| n IH]; intros f s st st' r Hrun.
  - cbn in Hrun. injection Hrun as <- _. apply writes_sides_refl; reflexivity.
  - rewrite recurse_S in Hrun.
    destruct (faces st !! f) as [fc |] eqn:Hf;
      [| injection Hrun as <- _; apply writes_sides_refl; reflexivity].
    destruct (for_each edges _ _) as [st2 r2] eqn:Hloop.
    assert (st' = st2) as -> by (destruct r2; congruence).
    apply (writes_sides_trans _
             (TState (alter set_used f (faces st))
                (output st ++ [Record_ f s (sides fc)]) (depth st + 1))).
    + split; [apply marks_more_set_used |].
      exists [Record_ f s (sides fc)]. split; [reflexivity |].
      apply Forall_cons. split; [| apply Forall_nil_2].
      exists fc. split; [exact Hf | reflexivity].
    + apply (for_each_rel writes_sides) in Hloop; [exact Hloop | | |].
      * intros s0. apply writes_sides_refl; reflexivity.
      * apply writes_sides_trans.
      * intros e s1 s2 r1 _ Hstep. rewrite recurse_edge_eq in Hstep.
        destruct (faces s1 !! f) as [fc1 |];
          [| injection Hstep as <- _; apply writes_sides_refl; reflexivity].
        destruct (get3 (next fc1) e) as [f2 |];
          [| injection Hstep as <- _; apply writes_sides_refl; reflexivity].
        destruct (faces s1 !! f2) as [fc2 |];
          [| injection Hstep as <- _; apply writes_sides_refl; reflexivity].
        destruct (used fc2);
          [injection Hstep as <- _; apply writes_sides_refl; reflexivity |].
        destruct (recurse n f2 _ s1) as [s3 r3] eqn:Hcall.
        assert (s2 = s3) as -> by (destruct r3; congruence).
        eapply IH. exact Hcall.
Qed.

(** On a mesh with at least one triangle: no face is written twice; the
    faces written are those whose visited flag is up when the process
    stops, whether it returns or reads through a null slot; and the three
    numbers on a line are the side lengths of the triangle the line is
    about. *)
Theorem traversal_output_wellformed (stl_faces : list stl_face_t) :
  stl_faces <> [] ->
  NoDup (r_face <$> output (final (main stl_faces)))
  /\ (forall i, i ∈ r_face <$> output (final (main stl_faces)) <->
                is_used (faces (final (main stl_faces))) i = true)
  /\ (forall r, r ∈ output (final (main stl_faces)) ->
        exists t, stl_faces !! r_face r = Some t
                  /\ r_sides r = sides (face_of_stl t)).
Proof.
  intros _.
  destruct (main_visits_once stl_faces) as [Hnd Hin].
  split; [exact Hnd |]. split; [exact Hin |].
  intros r Hr.
  destruct (main_run stl_faces) as (res & Hrun & _).
  apply recurse_writes_sides in Hrun as [_ (new & Hout & Hall)].
  cbn [output faces] in Hout, Hall. rewrite Hout in Hr.
  rewrite Forall_forall in Hall.
  destruct (Hall r Hr) as (fc & Hfc & Hs).
  pose proof (lookup_lt_Some _ _ _ Hfc) as Hlt.
  change (graph (main stl_faces)) with (build_graph stl_faces).1 in Hlt, Hfc.
  rewrite build_graph_length in Hlt.
  destruct (lookup_lt_is_Some_2 _ _ Hlt) as [t Ht].
  exists t. split; [exact Ht |].
  destruct (build_graph_lookup stl_faces _ t Ht) as (fc0 & Hfc0 & Hs0 & _).
  congruence.
Qed.

Lemma traversal_output_wellformed_witness :
  NoDup (r_face <$> output (final (main Mesh.pair)))
  /\ (forall i, i ∈ r_face <$> output (final (main Mesh.pair)) <->
                is_used (faces (final (main Mesh.pair))) i = true)
  /\ (forall r, r ∈ output (final (main Mesh.pair)) ->
        exists t, Mesh.pair !! r_face r = Some t
                  /\ r_sides r = sides (face_of_stl t)).
Proof.
  apply (traversal_output_wellformed Mesh.pair). discriminate.
Defined.

(** ** Which faces the traversal visits, and how it stops *)

Lemma reachable_trans (fs : list face_t) (a b c : nat) :
  reachable fs a b -> reachable fs b c -> reachable fs a c.
Proof.
  intros Hab Hbc. induction Hbc as [| x e y _ IH He Hs]; [exact Hab |].
  eapply reach_step; eassumption.
Qed.

Lemma reachable_marks_more (fs fs' : list face_t) (a b : nat) :
  marks_more fs fs' -> reachable fs' a b -> reachable fs a b.
Proof.
  intros Hm H. induction H as [| x e y _ IH He Hs]; [apply reach_here |].
  eapply reach_step; [exact IH | exact He |].
  rewrite <- (marks_more_slot fs fs') by exact Hm. exact Hs.
Qed.

Lemma reaches_only_refl (f : nat) (st st' : tstate) :
  faces st' = faces st -> reaches_only f st st'.
Proof.
  intros Hf. split; [rewrite Hf; apply marks_more_refl |].
  intros i H0 H1. rewrite Hf in H1. congruence.
Qed.

Lemma reaches_only_trans (f : nat) (st1 st2 st3 : tstate) :
  reaches_only f st1 st2 -> reaches_only f st2 st3 -> reaches_only f st1 st3.
Proof.
  intros [M1 R1] [M2 R2]. split; [eapply marks_more_trans; eassumption |].
  intros i H0 H3.
  destruct (is_used (faces st2) i) eqn:H2; [apply R1; assumption |].
  eapply reachable_marks_more; [exact M1 |]. apply R2; assumption.
Qed.

Lemma recurse_reaches (n : nat) :
  forall f s st st' r,
    is_used (faces st) f = false ->
    recurse n f s st = (st', r) -> reaches_only f st st'.
Proof.
  induction n as [| n IH]; intros f s st st' r Hunused Hrun.
  - cbn in Hrun. injection Hrun as <- _. apply reaches_only_refl. reflexivity.
  - rewrite recurse_S in Hrun.
    destruct (faces st !! f) as [fc |] eqn:Hf;
      [| injection Hrun as <- _; apply reaches_only_refl; reflexivity].
    destruct (for_each edges _ _) as [st2 r2] eqn:Hloop.
    assert (st' = st2) as -> by (destruct r2; congruence).
    set (st1 := TState (alter set_used f (faces st))
                  (output st ++ [Record_ f s (sides fc)]) (depth st + 1)) in *.
    assert (marks_more (faces st) (faces st1)) as M01 by apply marks_more_set_used.
    apply (for_each_rel (reaches_only f)) in Hloop as [M12 R12].
    + split; [eapply marks_more_trans; eassumption |].
      intros i H0 H2.
      destruct (decide (i = f)) as [-> | Hne]; [apply reach_here |].
      eapply reachable_marks_more; [exact M01 |]. apply R12; [| exact H2].
      subst st1. cbn [faces]. unfold is_used in *.
      rewrite list_lookup_alter_ne by congruence. exact H0.
    + intros s0. apply reaches_only_refl. reflexivity.
    + apply reaches_only_trans.
    + intros e s1 s2 r1 He Hstep. apply edges_lt in He.
      rewrite recurse_edge_eq in Hstep.
      destruct (faces s1 !! f) as [fc1 |] eqn:Hf1;
        [| injection Hstep as <- _; apply reaches_only_refl; reflexivity].
      destruct (get3 (next fc1) e) as [f2 |] eqn:Hn;
        [| injection Hstep as <- _; apply reaches_only_refl; reflexivity].
      destruct (faces s1 !! f2) as [fc2 |] eqn:Hf2;
        [| injection Hstep as <- _; apply reaches_only_refl; reflexivity].
      destruct (used fc2) eqn:Hu;
        [injection Hstep as <- _; apply reaches_only_refl; reflexivity |].
      destruct (recurse n f2 _ s1) as [s3 r3] eqn:Hcall.
      assert (s2 = s3) as -> by (destruct r3; congruence).
      apply IH in Hcall as [M R];
        [| rewrite (is_used_lookup _ _ _ Hf2); exact Hu].
      split; [exact M |]. intros i H0 H1.
      apply (reachable_trans _ f f2 i); [| apply R; assumption].
      apply (reach_step _ _ f e); [apply reach_here | exact He |].
      unfold slot. rewrite Hf1. exact Hn.
Qed.

(** Every face the traversal writes is connected to face 0 through filled
    slots; and when [main] returns, the faces written are exactly the
    faces connected to face 0. *)
Theorem visited_faces_are_the_component (stl_faces : list stl_face_t) :
  (forall i, i ∈ r_face <$> output (final (main stl_faces)) ->
             reachable (graph (main stl_faces)) 0 i)
  /\ (forall v i, exit (main stl_faces) = Ok v ->
        reachable (graph (main stl_faces)) 0 i ->
        i ∈ r_face <$> output (final (main stl_faces))).
Proof.
  destruct (main_visits_once stl_faces) as [_ Hin]. split.
  - intros i Hi. apply Hin in Hi.
    destruct (main_run stl_faces) as (res & Hrun & _).
    apply recurse_reaches in Hrun as [_ R]; [| apply build_graph_unused].
    apply R; [apply build_graph_unused | exact Hi].
  - intros v i Hexit Hreach. apply Hin.
    eapply main_reaches_connected; eassumption.
Qed.

Lemma visited_faces_are_the_component_witness :
  reachable (graph (main Mesh.pair)) 0 1.
Proof.
  apply (proj1 (visited_faces_are_the_component Mesh.pair) 1).
  vm_compute. apply list_elem_of_In. right. left. reflexivity.
Defined.

Lemma valid_links_marks_more (fs fs' : list face_t) :
  marks_more fs fs' -> valid_links fs -> valid_links fs'.
Proof.
  intros Hm Hv i e j He Hs.
  rewrite <- (Forall2_length _ _ _ Hm).
  rewrite (marks_more_slot fs fs') in Hs by exact Hm. eapply Hv; eassumption.
Qed.

Lemma fault_explained_marks_more (fs fs' : list face_t) (f : nat) (e : fault) :
  marks_more fs fs' -> fault_explained fs' f e -> fault_explained fs f e.
Proof.
  intros Hm [H | (He & i & e' & Hr & Hlt & Hs)]; [left; exact H |].
  right. split; [exact He |]. exists i, e'.
  split; [eapply reachable_marks_more; eassumption |]. split; [exact Hlt |].
  rewrite <- (marks_more_slot fs fs') by exact Hm. exact Hs.
Qed.

Lemma for_each_crash {A : Type} (I : tstate -> Prop) (Good : fault -> Prop)
    (l : list A) (body : A -> M unit) :
  (forall x st st' r, x ∈ l -> I st -> body x st = (st', r) ->
     I st' /\ forall e, r = Crash e -> Good e) ->
  forall st st' e, I st -> for_each l body st = (st', Crash e) -> Good e.
Proof.
  induction l as [| x l IH]; intros Hbody st st' e HI Hrun.
  - cbn in Hrun. discriminate.
  - rewrite for_each_cons in Hrun.
    destruct (body x st) as [st1 [[] | e1]] eqn:Hx.
    + destruct (Hbody _ _ _ _ ltac:(left) HI Hx) as [HI1 _].
      eapply IH; [| exact HI1 | exact Hrun].
      intros y s1 s2 r0 Hy. apply Hbody. right. exact Hy.
    + injection Hrun as _ <-.
      destruct (Hbody _ _ _ _ ltac:(left) HI Hx) as [_ Hg]. apply Hg. reflexivity.
Qed.

(** On a face array whose filled slots hold faces of the array, a traversal
    started at a face of the array never follows a bad pointer, and it
    reads through a null pointer only at an empty slot of a face connected
    to the start. *)
Lemma recurse_faults (n : nat) :
  forall f s st st' e,
    valid_links (faces st) -> f < length (faces st) ->
    recurse n f s st = (st', Crash e) ->
    fault_explained (faces st) f e.
Proof.
  induction n as [| n IH]; intros f s st st' e Hv Hf Hrun.
  - cbn in Hrun. unfold crash in Hrun. injection Hrun as _ <-. left. reflexivity.
  - rewrite recurse_S in Hrun.
    destruct (lookup_lt_is_Some_2 _ _ Hf) as [fc Hfc]. rewrite Hfc in Hrun.
    destruct (for_each edges _ _) as [st2 [u | e2]] eqn:Hloop; [discriminate |].
    injection Hrun as _ <-.
    set (st1 := TState (alter set_used f (faces st))
                  (output st ++ [Record_ f s (sides fc)]) (depth st + 1)) in *.
    assert (marks_more (faces st) (faces st1)) as M01 by apply marks_more_set_used.
    apply (for_each_crash (fun s0 => marks_more (faces st) (faces s0))
             (fault_explained (faces st) f)) in Hloop; [exact Hloop | | exact M01].
    intros edge s1 s2 r1 Hedge M1 Hstep. apply edges_lt in Hedge.
    split.
    + eapply marks_more_trans; [exact M1 |].
      apply descends_marks_more.
      eapply recurse_edge_descends; [exact Hedge | apply recurse_visits | exact Hstep].
    + intros e1 ->. rewrite recurse_edge_eq in Hstep.
      pose proof (Forall2_length _ _ _ M1) as Hlen.
      destruct (lookup_lt_is_Some_2 (faces s1) f ltac:(lia)) as [fc1 Hfc1].
      rewrite Hfc1 in Hstep.
      destruct (get3 (next fc1) edge) as [f2 |] eqn:Hn.
      * assert (f2 < length (faces s1)) as Hf2.
        { apply (valid_links_marks_more _ _ M1 Hv f edge f2 Hedge).
          unfold slot. rewrite Hfc1. exact Hn. }
        destruct (lookup_lt_is_Some_2 _ _ Hf2) as [fc2 Hfc2]. rewrite Hfc2 in Hstep.
        destruct (used fc2); [discriminate |].
        destruct (recurse n f2 _ s1) as [s3 [w | e3]] eqn:Hcall; [discriminate |].
        injection Hstep as _ <-.
        apply IH in Hcall; [| eapply valid_links_marks_more; eassumption | exact Hf2].
        apply (fault_explained_marks_more _ _ _ _ M1).
        destruct Hcall as [H | (He & i & e' & Hr & Hlt & Hs)]; [left; exact H |].
        right. split; [exact He |]. exists i, e'.
        split; [| split; assumption].
        apply (reachable_trans _ f f2 i); [| exact Hr].
        apply (reach_step _ _ f edge); [apply reach_here | exact Hedge |].
        unfold slot. rewrite Hfc1. exact Hn.
      * injection Hstep as _ <-.
        apply (fault_explained_marks_more _ _ _ _ M1).
        right. split; [reflexivity |]. exists f, edge.
        split; [apply reach_here |]. split; [exact Hedge |].
        unfold slot. rewrite Hfc1. exact Hn.
Qed.

Lemma build_graph_valid_links (stl_faces : list stl_face_t) :
  valid_links (build_graph stl_faces).1.
Proof.
  intros i e j He Hs.
  destruct (link_of (build_graph stl_faces).1 i e) as [[j' s] |] eqn:Hl;
    rewrite link_of_slot, Hl in Hs; [| discriminate].
  injection Hs as ->.
  destruct (build_graph_links_matched stl_faces i e j s He Hl)
    as (eb & _ & _ & _ & ta & tb & _ & Hb & _).
  rewrite build_graph_length. eapply lookup_lt_Some. exact Hb.
Qed.

Lemma all_matched_true (fs : list face_t) (i : nat) :
  all_matched fs i = true <-> forall e, e < 3 -> slot fs i e <> None.
Proof.
  split.
  - intros H e He Hs.
    assert (all_matched fs i = false) as Hf
      by (apply all_matched_false; exists e; auto).
    congruence.
  - intros H. destruct (all_matched fs i) eqn:E; [reflexivity |].
    apply all_matched_false in E as (e & He & Hs). exfalso. exact (H e He Hs).
Qed.

(** How [main] stops on a mesh with at least one triangle.  It either
    returns 0 or reads [f2->used] through a null [f2], nothing else.  It
    returns 0 exactly when every face connected to face 0 has its three
    slots filled, and reads through the null pointer exactly when some
    face connected to face 0 has an empty slot. *)
Theorem traversal_outcome (stl_faces : list stl_face_t) :
  stl_faces <> [] ->
  (exit (main stl_faces) = Ok 0%Z \/ exit (main stl_faces) = Crash NullDeref)
  /\ (exit (main stl_faces) = Ok 0%Z <->
      forall i, reachable (graph (main stl_faces)) 0 i ->
                all_matched (graph (main stl_faces)) i = true)
  /\ (exit (main stl_faces) = Crash NullDeref <->
      exists i, reachable (graph (main stl_faces)) 0 i
                /\ all_matched (graph (main stl_faces)) i = false).
Proof.
  intros Hne.
  destruct (main_run stl_faces) as (res & Hrun & Hexit).
  pose proof (main_terminates stl_faces) as Hterm.
  assert (forall e, exit (main stl_faces) = Crash e ->
          e = NullDeref
          /\ exists i, reachable (graph (main stl_faces)) 0 i
                       /\ all_matched (graph (main stl_faces)) i = false) as Hcrash.
  { intros e He. rewrite Hexit in He.
    destruct res as [w | e0]; [discriminate |]. injection He as ->.
    apply recurse_faults in Hrun.
    - destruct Hrun as [-> | (-> & i & e' & Hr & Hlt & Hs)].
      + exfalso. apply Hterm. rewrite Hexit. reflexivity.
      + split; [reflexivity |]. exists i. split; [exact Hr |].
        apply all_matched_false. eauto.
    - apply build_graph_valid_links.
    - cbn [faces]. change (graph (main stl_faces)) with (build_graph stl_faces).1.
      rewrite build_graph_length. destruct stl_faces; [congruence | cbn; lia]. }
  assert (forall v, exit (main stl_faces) = Ok v ->
          forall i, reachable (graph (main stl_faces)) 0 i ->
                    all_matched (graph (main stl_faces)) i = true) as Hok.
  { intros v Hv i Hr. apply all_matched_true. intros e He.
    pose proof (main_reaches_connected stl_faces v i Hv Hr) as Hused.
    rewrite Hexit in Hv. destruct res as [w |]; [| discriminate].
    apply recurse_completes in Hrun; [| apply build_graph_unused].
    destruct (Hrun i (build_graph_unused stl_faces i) Hused e He) as (j & Hs & _).
    destruct (main_advances stl_faces) as [Hadv _].
    rewrite (marks_more_slot _ _ _ _ (adv_faces _ _ _ Hadv)) in Hs.
    cbn [faces] in Hs. rewrite Hs. discriminate. }
  assert (forall v, exit (main stl_faces) = Ok v -> v = 0%Z) as Hzero.
  { intros v Hv. rewrite Hexit in Hv. destruct res; congruence. }
  split; [| split].
  - destruct (exit (main stl_faces)) as [v | e] eqn:E.
    + left. rewrite (Hzero v eq_refl). reflexivity.
    + right. destruct (Hcrash e eq_refl) as [-> _]. reflexivity.
  - split.
    + intros Hv. exact (Hok _ Hv).
    + intros Hall.
      destruct (exit (main stl_faces)) as [v | e] eqn:E.
      * rewrite (Hzero v eq_refl). reflexivity.
      * destruct (Hcrash e eq_refl) as (_ & i & Hr & Hf).
        rewrite (Hall i Hr) in Hf. discriminate.
  - split.
    + intros Hnull. exact (proj2 (Hcrash _ Hnull)).
    + intros (i & Hr & Hf).
      destruct (exit (main stl_faces)) as [v | e] eqn:E.
      * rewrite (Hok v eq_refl i Hr) in Hf. discriminate.
      * destruct (Hcrash e eq_refl) as [-> _]. reflexivity.
Qed.

(** On [Mesh.fan] face 1, connected to face 0, has an empty slot. *)
Lemma traversal_outcome_witness :
  (exit (main Mesh.fan) = Ok 0%Z \/ exit (main Mesh.fan) = Crash NullDeref)
  /\ (exit (main Mesh.fan) = Ok 0%Z <->
      forall i, reachable (graph (main Mesh.fan)) 0 i ->
                all_matched (graph (main Mesh.fan)) i = true)
  /\ (exit (main Mesh.fan) = Crash NullDeref <->
      exists i, reachable (graph (main Mesh.fan)) 0 i
                /\ all_matched (graph (main Mesh.fan)) i = false).
Proof.
  apply (traversal_outcome Mesh.fan). discriminate.
Defined.

(** A closed and connected mesh (no face reported, every face connected to
    face 0) is traversed to the end, and every face is written exactly
    once. *)
Theorem closed_connected_mesh_fully_visited (stl_faces : list stl_face_t) :
  stl_faces <> [] ->
  diagnostics (main stl_faces) = [] ->
  (forall i, i < length stl_faces -> reachable (graph (main stl_faces)) 0 i) ->
  exit (main stl_faces) = Ok 0%Z
  /\ r_face <$> output (final (main stl_faces)) ≡ₚ seq 0 (length stl_faces).
Proof. apply closed_connected_mesh_visited_once. Qed.

Lemma closed_connected_mesh_fully_visited_witness :
  exit (main (Mesh.tetrahedron 0)) = Ok 0%Z
  /\ r_face <$> output (final (main (Mesh.tetrahedron 0))) ≡ₚ seq 0 (length (Mesh.tetrahedron 0)).
Proof.
  apply (closed_connected_mesh_fully_visited (Mesh.tetrahedron 0)).
  - discriminate.
  - vm_compute. reflexivity.
  - intros i Hi. cbn in Hi.
    destruct i as [| [| [| [| i]]]]; [| | | | lia].
    + apply reach_here.
    + apply (reach_step _ _ 0 2); [apply reach_here | lia | vm_compute; reflexivity].
    + apply (reach_step _ _ 0 1); [apply reach_here | lia | vm_compute; reflexivity].
    + apply (reach_step _ _ 0 0); [apply reach_here | lia | vm_compute; reflexivity].
Defined.

(** The recursion of [recurse] ends on every face array, whatever its
    links: started with any root and entering edge, it never nests deeper
    than the number of faces plus one. *)
Theorem recursion_depth_bounded (fs : list face_t) (root : nat) (s : Z) :
  (recurse (S (length fs)) root s (TState fs [] 0)).2 <> Crash OutOfFuel.
Proof. exact (traverse_total fs root s). Qed.

(** * Further properties of [stl_3d.c] *)

(** ** Finding or creating a vertex *)

Lemma scan_seq_Some v3_eq (vs : list Stl3d.stl_vertex_t) (q : v3_t) (n : nat) :
  forall a x,
    Stl3d.scan v3_eq vs q (seq a n) = Some x ->
    a <= x < a + n
    /\ (exists v, vs !! x = Some v /\ v3_eq (Stl3d.v_p v) q = true)
    /\ forall y vy, a <= y < x -> vs !! y = Some vy -> v3_eq (Stl3d.v_p vy) q = false.
Proof.
  induction n as [| n IH]; intros a x; cbn; [discriminate |].
  destruct (vs !! a) as [v |] eqn:Hv.
  - destruct (v3_eq (Stl3d.v_p v) q) eqn:Heq.
    + intros [= <-]. split; [lia |]. split; [eauto |]. intros y vy Hy. lia.
    + intros H. destruct (IH _ _ H) as (Hx & Hfound & Hfirst).
      split; [lia |]. split; [exact Hfound |].
      intros y vy Hy Hvy. destruct (decide (y = a)) as [-> | Hne].
      * congruence.
      * apply (Hfirst y vy); [lia | exact Hvy].
  - intros H. destruct (IH _ _ H) as (Hx & Hfound & Hfirst).
    split; [lia |]. split; [exact Hfound |].
    intros y vy Hy Hvy. destruct (decide (y = a)) as [-> | Hne].
    + congruence.
    + apply (Hfirst y vy); [lia | exact Hvy].
Qed.

Lemma scan_seq_None v3_eq (vs : list Stl3d.stl_vertex_t) (q : v3_t) (n : nat) :
  forall a,
    Stl3d.scan v3_eq vs q (seq a n) = None <->
    forall y vy, a <= y < a + n -> vs !! y = Some vy -> v3_eq (Stl3d.v_p vy) q = false.
Proof.
  induction n as [| n IH]; intros a; cbn.
  - split; [intros _ y vy Hy; lia | reflexivity].
  - destruct (vs !! a) as [v |] eqn:Hv.
    + destruct (v3_eq (Stl3d.v_p v) q) eqn:Heq.
      * split; [discriminate |]. intros H.
        specialize (H a v ltac:(lia) Hv). congruence.
      * rewrite IH. split.
        -- intros H y vy Hy Hvy. destruct (decide (y = a)) as [-> | Hne];
             [congruence | apply (H y vy); [lia | exact Hvy]].
        -- intros H y vy Hy. apply H. lia.
    + rewrite IH. split.
      * intros H y vy Hy Hvy. destruct (decide (y = a)) as [-> | Hne];
          [congruence | apply (H y vy); [lia | exact Hvy]].
      * intros H y vy Hy. apply H. lia.
Qed.

(** [stl_vertex_find] on an array holding [n] vertices.  It returns the
    first of them that equals the point and changes nothing; if there is
    none and the array has room it stores the point as vertex [n] and
    returns it, leaving the others as they were; if there is none and the
    array is full the write is out of bounds. *)
Theorem stl_vertex_find_spec v3_eq (vs : list Stl3d.stl_vertex_t) (n : nat) (q : v3_t) :
  n <= length vs ->
  match Stl3d.stl_vertex_find v3_eq vs n q with
  | Stl3d.Done (x, vs', n') =>
      (x < n /\ vs' = vs /\ n' = n
       /\ (exists v, vs !! x = Some v /\ v3_eq (Stl3d.v_p v) q = true)
       /\ forall y vy, y < x -> vs !! y = Some vy -> v3_eq (Stl3d.v_p vy) q = false)
      \/ (x = n /\ n < length vs /\ n' = S n
          /\ vs' = alter (Stl3d.set_v_p q) n vs
          /\ forall y vy, y < n -> vs !! y = Some vy -> v3_eq (Stl3d.v_p vy) q = false)
  | Stl3d.Overflow i c =>
      i = n /\ c = length vs /\ n = length vs
      /\ forall y vy, y < n -> vs !! y = Some vy -> v3_eq (Stl3d.v_p vy) q = false
  end.
Proof.
  intros Hn. unfold Stl3d.stl_vertex_find.
  destruct (Stl3d.scan v3_eq vs q (seq 0 n)) as [x |] eqn:Hscan.
  - left. destruct (scan_seq_Some _ _ _ _ _ _ Hscan) as (Hx & Hfound & Hfirst).
    split; [lia |]. split; [reflexivity |]. split; [reflexivity |].
    split; [exact Hfound |]. intros y vy Hy. apply Hfirst. lia.
  - assert (forall y vy, y < n -> vs !! y = Some vy -> v3_eq (Stl3d.v_p vy) q = false)
      as Hnone.
    { intros y vy Hy. apply (proj1 (scan_seq_None _ _ _ _ _) Hscan). lia. }
    destruct (decide (n < length vs)) as [Hlt | Hge].
    + right. auto.
    + repeat split; [lia | exact Hnone].
Qed.

Lemma stl_vertex_find_spec_witness :
  match Stl3d.stl_vertex_find v3_eq [Stl3d.vertex_zero] 0 (Mesh.pt 1 0 0) with
  | Stl3d.Done (x, vs', n') =>
      (x < 0 /\ vs' = [Stl3d.vertex_zero] /\ n' = 0
       /\ (exists v, [Stl3d.vertex_zero] !! x = Some v
                     /\ v3_eq (Stl3d.v_p v) (Mesh.pt 1 0 0) = true)
       /\ forall y vy, y < x -> [Stl3d.vertex_zero] !! y = Some vy ->
                       v3_eq (Stl3d.v_p vy) (Mesh.pt 1 0 0) = false)
      \/ (x = 0 /\ 0 < length [Stl3d.vertex_zero] /\ n' = 1
          /\ vs' = alter (Stl3d.set_v_p (Mesh.pt 1 0 0)) 0 [Stl3d.vertex_zero]
          /\ forall y vy, y < 0 -> [Stl3d.vertex_zero] !! y = Some vy ->
                          v3_eq (Stl3d.v_p vy) (Mesh.pt 1 0 0) = false)
  | Stl3d.Overflow i c =>
      i = 0 /\ c = length [Stl3d.vertex_zero] /\ 0 = length [Stl3d.vertex_zero]
      /\ forall y vy, y < 0 -> [Stl3d.vertex_zero] !! y = Some vy ->
                      v3_eq (Stl3d.v_p vy) (Mesh.pt 1 0 0) = false
  end.
Proof.
  apply (stl_vertex_find_spec v3_eq [Stl3d.vertex_zero] 0 (Mesh.pt 1 0 0)).
  cbn. lia.
Defined.

Lemma scan_ext v3_eq (vs vs' : list Stl3d.stl_vertex_t) (q : v3_t) (xs : list nat) :
  (forall x, x ∈ xs -> vs' !! x = vs !! x) ->
  Stl3d.scan v3_eq vs' q xs = Stl3d.scan v3_eq vs q xs.
Proof.
  induction xs as [| x xs IH]; intros H; [reflexivity |].
  cbn. rewrite (H x) by left. rewrite IH by (intros y Hy; apply H; right; exact Hy).
  reflexivity.
Qed.

Lemma scan_app v3_eq (vs : list Stl3d.stl_vertex_t) (q : v3_t) (xs ys : list nat) :
  Stl3d.scan v3_eq vs q (xs ++ ys) =
  match Stl3d.scan v3_eq vs q xs with
  | Some x => Some x
  | None => Stl3d.scan v3_eq vs q ys
  end.
Proof.
  induction xs as [| x xs IH]; [reflexivity |].
  cbn. destruct (vs !! x) as [v |]; [destruct (v3_eq (Stl3d.v_p v) q) |];
    try reflexivity; exact IH.
Qed.

(** Looking a point up a second time gives the same vertex and changes
    nothing, provided the point equals itself (its coordinates are
    numbers). *)
Theorem stl_vertex_find_again v3_eq (vs vs' : list Stl3d.stl_vertex_t)
    (n n' x : nat) (q : v3_t) :
  v3_eq q q = true ->
  Stl3d.stl_vertex_find v3_eq vs n q = Stl3d.Done (x, vs', n') ->
  Stl3d.stl_vertex_find v3_eq vs' n' q = Stl3d.Done (x, vs', n').
Proof.
  intros Hrefl. unfold Stl3d.stl_vertex_find.
  destruct (Stl3d.scan v3_eq vs q (seq 0 n)) as [y |] eqn:Hscan.
  - intros [= -> <- <-]. rewrite Hscan. reflexivity.
  - destruct (decide (n < length vs)) as [Hlt | Hge]; [| discriminate].
    intros [= <- <- <-].
    rewrite seq_S, scan_app. cbn [Nat.add].
    rewrite (scan_ext v3_eq vs) by
      (intros y Hy; apply elem_of_seq in Hy; apply list_lookup_alter_ne; lia).
    rewrite Hscan. cbn [Stl3d.scan].
    rewrite list_lookup_alter_eq.
    destruct (lookup_lt_is_Some_2 _ _ Hlt) as [v Hv]. rewrite Hv. cbn.
    rewrite Hrefl. reflexivity.
Qed.

Lemma stl_vertex_find_again_witness :
  Stl3d.stl_vertex_find v3_eq
    (alter (Stl3d.set_v_p (Mesh.pt 1 0 0)) 0 [Stl3d.vertex_zero]) 1 (Mesh.pt 1 0 0)
  = Stl3d.Done (0, alter (Stl3d.set_v_p (Mesh.pt 1 0 0)) 0 [Stl3d.vertex_zero], 1).
Proof.
  apply (stl_vertex_find_again v3_eq [Stl3d.vertex_zero] _ 0 1 0 (Mesh.pt 1 0 0)).
  - vm_compute. reflexivity.
  - vm_compute. reflexivity.
Defined.

(** ** The neighbours found by [stl_find_neighbors] *)

Lemma last_sharing_S (m : nat) (fs : list Stl3d.stl_face_t) (f1 i : nat) :
  last_sharing (S m) fs f1 i =
  if shares_edge fs f1 i m then Some m else last_sharing m fs f1 i.
Proof.
  unfold last_sharing. rewrite seq_S, filter_app. cbn [Nat.add].
  destruct (shares_edge fs f1 i m) eqn:Hs.
  - rewrite filter_cons_True by exact Hs. rewrite filter_nil. apply last_snoc.
  - rewrite filter_cons_False by (rewrite Hs; discriminate).
    rewrite filter_nil, app_nil_r. reflexivity.
Qed.

Lemma neighbor_loop_spec (fs : list Stl3d.stl_face_t) (f1 i : nat)
    (c1 : Stl3d.stl_face_t) (fs0 : list Stl3d.stl_face_t) (c0 : Stl3d.stl_face_t) :
  fs !! f1 = Some c1 -> i < 3 ->
  (forall a, a <> f1 -> fs0 !! a = fs !! a) ->
  fs0 !! f1 = Some c0 -> Stl3d.vertex c0 = Stl3d.vertex c1 ->
  forall m, exists cm,
    (forall a, a <> f1 ->
       foldl (Stl3d.neighbor_step f1 i) fs0 (seq 0 m) !! a = fs !! a)
    /\ foldl (Stl3d.neighbor_step f1 i) fs0 (seq 0 m) !! f1 = Some cm
    /\ Stl3d.vertex cm = Stl3d.vertex c1
    /\ forall i', i' < 3 ->
         get3 (Stl3d.face cm) i' =
         if decide (i' = i) then
           match last_sharing m fs f1 i with
           | Some j => Some j
           | None => get3 (Stl3d.face c0) i
           end
         else get3 (Stl3d.face c0) i'.
Proof.
  intros H1 Hi Hothers H0 Hv0 m.
  induction m as [| m (cm & Ha & Hf1 & Hv & Hslots)].
  - exists c0. cbn. split; [exact Hothers |]. split; [exact H0 |].
    split; [exact Hv0 |]. intros i' _. destruct (decide (i' = i)) as [-> |]; reflexivity.
  - rewrite seq_S, foldl_app. cbn [Nat.add foldl].
    set (fsm := foldl (Stl3d.neighbor_step f1 i) fs0 (seq 0 m)) in *.
    rewrite last_sharing_S.
    unfold Stl3d.neighbor_step, shares_edge. rewrite H1, Hf1.
    destruct (decide (f1 = m)) as [<- | Hne].
    + rewrite H1. rewrite bool_decide_eq_false_2 by tauto. cbn [andb].
      exists cm. auto.
    + rewrite (Ha m) by congruence.
      destruct (fs !! m) as [c2 |] eqn:H2; [| exists cm; auto].
      rewrite bool_decide_eq_true_2 by congruence. cbn [andb].
      rewrite Nat.add_0_r, (Nat.mod_small i 3), Hv by lia.
      destruct (Stl3d.stl_has_edge c2 _ _) eqn:He; cbn [negb];
        [| exists cm; auto].
      exists (Stl3d.set_angle i (Stl3d.stl_angle cm c2)
                (Stl3d.set_face i (Some m) cm)).
      split; [| split; [| split]].
      * intros a Hane. rewrite !list_lookup_alter_ne by congruence. apply Ha, Hane.
      * rewrite !list_lookup_alter_eq, Hf1. reflexivity.
      * exact Hv.
      * intros i' Hi'. cbn [Stl3d.face Stl3d.set_angle Stl3d.set_face].
        rewrite get3_set3 by lia.
        destruct (decide (i' = i)) as [-> |]; [reflexivity |].
        rewrite (Hslots i' Hi'). rewrite decide_False by assumption. reflexivity.
Qed.

(* The three loops over [j], one after the other. *)
Lemma stl_find_neighbors_slots (n : nat) (fs : list Stl3d.stl_face_t)
    (f1 : nat) (c1 : Stl3d.stl_face_t) :
  fs !! f1 = Some c1 ->
  exists c1',
    Stl3d.stl_find_neighbors n fs f1 !! f1 = Some c1'
    /\ Stl3d.vertex c1' = Stl3d.vertex c1
    /\ (forall a, a <> f1 -> Stl3d.stl_find_neighbors n fs f1 !! a = fs !! a)
    /\ forall i, i < 3 ->
         get3 (Stl3d.face c1') i =
         match last_sharing n fs f1 i with
         | Some j => Some j
         | None => get3 (Stl3d.face c1) i
         end.
Proof.
  intros H1. unfold Stl3d.stl_find_neighbors, edges. cbn [foldl].
  destruct (neighbor_loop_spec fs f1 0 c1 fs c1 H1 ltac:(lia)
              ltac:(reflexivity) H1 eq_refl n) as (ca & Ha1 & Ha2 & Ha3 & Ha4).
  destruct (neighbor_loop_spec fs f1 1 c1 _ ca H1 ltac:(lia) Ha1 Ha2 Ha3 n)
    as (cb & Hb1 & Hb2 & Hb3 & Hb4).
  destruct (neighbor_loop_spec fs f1 2 c1 _ cb H1 ltac:(lia) Hb1 Hb2 Hb3 n)
    as (cc & Hc1 & Hc2 & Hc3 & Hc4).
  exists cc. split; [exact Hc2 |]. split; [exact Hc3 |]. split; [exact Hc1 |].
  intros i Hi. rewrite (Hc4 i Hi).
  destruct i as [| [| [| i]]]; [| | | lia]; cbn [decide_rel]; 
    repeat (rewrite ?decide_True by lia; rewrite ?decide_False by lia);
    rewrite ?(Hb4 0), ?(Hb4 1), ?(Hb4 2) by lia;
    repeat (rewrite ?decide_True by lia; rewrite ?decide_False by lia);
    rewrite ?(Ha4 0), ?(Ha4 1), ?(Ha4 2) by lia;
    repeat (rewrite ?decide_True by lia; rewrite ?decide_False by lia);
    reflexivity.
Qed.

(** [stl_find_neighbors] on face [f1].  Every other face is left as it
    was and so are the vertices of [f1]; slot [i] of [f1] ends holding the
    last face of the array, other than [f1], that contains both ends of
    edge [i], whichever way round and wherever in that face, and keeps its
    value when there is none. *)
Theorem stl_find_neighbors_last_match (n : nat) (fs : list Stl3d.stl_face_t)
    (f1 : nat) (c1 : Stl3d.stl_face_t) :
  fs !! f1 = Some c1 ->
  exists c1',
    Stl3d.stl_find_neighbors n fs f1 !! f1 = Some c1'
    /\ Stl3d.vertex c1' = Stl3d.vertex c1
    /\ (forall a, a <> f1 -> Stl3d.stl_find_neighbors n fs f1 !! a = fs !! a)
    /\ forall i, i < 3 ->
         get3 (Stl3d.face c1') i =
         match last_sharing n fs f1 i with
         | Some j => Some j
         | None => get3 (Stl3d.face c1) i
         end.
Proof.
  apply stl_find_neighbors_slots.
Qed.

(** On [Mesh.three_faces] edge 0 of face 0 is shared by face 1 and by
    face 2: the slot is filled with face 1 and then overwritten with
    face 2; the other two slots stay null. *)
Lemma three_faces_neighbours :
  shares_edge Mesh.three_faces 0 0 1 = true
  /\ shares_edge Mesh.three_faces 0 0 2 = true
  /\ last_sharing 3 Mesh.three_faces 0 0 = Some 2
  /\ last_sharing 3 Mesh.three_faces 0 1 = None
  /\ foldl (Stl3d.neighbor_step 0 0) Mesh.three_faces (seq 0 2) !! 0
     = Some (Stl3d.SFace (Array3 (Some 0) (Some 1) (Some 2))
               (Array3 (Some 1) None None) (fill3 (S754_zero false)))
  /\ Stl3d.stl_find_neighbors 3 Mesh.three_faces 0 !! 0
     = Some (Stl3d.SFace (Array3 (Some 0) (Some 1) (Some 2))
               (Array3 (Some 2) None None) (fill3 (S754_zero false))).
Proof. repeat split; vm_compute; reflexivity. Qed.

Lemma stl_find_neighbors_last_match_witness :
  exists c1',
    Stl3d.stl_find_neighbors 3 Mesh.three_faces 0 !! 0 = Some c1'
    /\ Stl3d.vertex c1' = Stl3d.vertex (Mesh.sface 0 1 2)
    /\ (forall a, a <> 0 ->
          Stl3d.stl_find_neighbors 3 Mesh.three_faces 0 !! a
          = Mesh.three_faces !! a)
    /\ forall i, i < 3 ->
         get3 (Stl3d.face c1') i =
         match last_sharing 3 Mesh.three_faces 0 i with
         | Some j => Some j
         | None => get3 (Stl3d.face (Mesh.sface 0 1 2)) i
         end.
Proof.
  apply (stl_find_neighbors_last_match 3 Mesh.three_faces 0 (Mesh.sface 0 1 2)).
  reflexivity.
Defined.

(** ** The vertices built by [stl_3d_parse] *)

Lemma stl_vertex_find_cases v3_eq (vs vs' : list Stl3d.stl_vertex_t)
    (n n' x : nat) (q : v3_t) :
  Stl3d.stl_vertex_find v3_eq vs n q = Stl3d.Done (x, vs', n') ->
  (x < n /\ vs' = vs /\ n' = n
   /\ (exists v, vs !! x = Some v /\ v3_eq (Stl3d.v_p v) q = true)
   /\ forall y vy, y < x -> vs !! y = Some vy -> v3_eq (Stl3d.v_p vy) q = false)
  \/ (x = n /\ n < length vs /\ n' = S n
      /\ vs' = alter (Stl3d.set_v_p q) n vs
      /\ forall y vy, y < n -> vs !! y = Some vy -> v3_eq (Stl3d.v_p vy) q = false).
Proof.
  unfold Stl3d.stl_vertex_find.
  destruct (Stl3d.scan v3_eq vs q (seq 0 n)) as [x' |] eqn:Hscan.
  - intros [= -> <- <-]. left.
    destruct (scan_seq_Some _ _ _ _ _ _ Hscan) as (Hx & Hfound & Hfirst).
    split; [lia |]. split; [reflexivity |]. split; [reflexivity |].
    split; [exact Hfound |]. intros y vy Hy. apply Hfirst. lia.
  - destruct (decide (n < length vs)) as [Hlt | Hge]; [| discriminate].
    intros [= <- <- <-]. right.
    split; [reflexivity |]. split; [exact Hlt |]. split; [reflexivity |].
    split; [reflexivity |].
    intros y vy Hy. apply (proj1 (scan_seq_None _ _ _ _ _) Hscan). lia.
Qed.

Lemma stl_vertex_find_overflow v3_eq (vs : list Stl3d.stl_vertex_t)
    (n x c : nat) (q : v3_t) :
  n <= length vs ->
  Stl3d.stl_vertex_find v3_eq vs n q = Stl3d.Overflow x c ->
  x = length vs /\ c = length vs.
Proof.
  intros Hn. unfold Stl3d.stl_vertex_find.
  destruct (Stl3d.scan v3_eq vs q (seq 0 n)); [discriminate |].
  destruct (decide (n < length vs)); [discriminate |].
  intros [= <- <-]. lia.
Qed.

Lemma list_alter_alter {A : Type} (f g : A -> A) (l : list A) (i : nat) :
  alter f i (alter g i l) = alter (fun x => f (g x)) i l.
Proof.
  apply list_eq. intros k. destruct (decide (k = i)) as [-> | Hne].
  - rewrite !list_lookup_alter_eq. destruct (l !! i); reflexivity.
  - rewrite !list_lookup_alter_ne by congruence. reflexivity.
Qed.

Lemma lookup_alter_inv {A : Type} (g : A -> A) (l : list A) (x v : nat) (a' : A) :
  alter g x l !! v = Some a' ->
  exists a, l !! v = Some a /\ a' = if decide (v = x) then g a else a.
Proof.
  destruct (decide (v = x)) as [-> | Hne].
  - rewrite list_lookup_alter_eq. destruct (l !! x) as [a |]; [| discriminate].
    intros [= <-]. eauto.
  - rewrite list_lookup_alter_ne by congruence. eauto.
Qed.

Lemma lookup_alter_fwd {A : Type} (g : A -> A) (l : list A) (x v : nat) (a : A) :
  l !! v = Some a ->
  alter g x l !! v = Some (if decide (v = x) then g a else a).
Proof.
  intros H. destruct (decide (v = x)) as [-> | Hne].
  - rewrite list_lookup_alter_eq, H. reflexivity.
  - rewrite list_lookup_alter_ne by congruence. exact H.
Qed.

(** One round of the corner loop, seen as one update of each array. *)
Lemma add_corner_cases v3_eq (ft : Stl3d.stl_3d_file_triangle_t) (i j : nat)
    (stl stl' : Stl3d.stl_3d_t) :
  Stl3d.add_corner v3_eq ft i (Stl3d.Done stl) j = Stl3d.Done stl' ->
  exists x g,
    stl' = Stl3d.Stl3d (Stl3d.num_vertex stl') (Stl3d.num_face stl)
             (alter g x (Stl3d.vertex_arr stl))
             (alter (Stl3d.set_vertex j (Some x)) i (Stl3d.face_arr stl))
    /\ x < Stl3d.num_vertex stl'
    /\ Stl3d.num_vertex stl <= Stl3d.num_vertex stl'
    /\ (Stl3d.num_vertex stl <= length (Stl3d.vertex_arr stl) ->
        Stl3d.num_vertex stl' <= length (Stl3d.vertex_arr stl))
    /\ (forall pv, Stl3d.v_refs (g pv) = Stl3d.v_refs pv ++ [(i, j)])
    /\ (forall y vy, y < x -> Stl3d.vertex_arr stl !! y = Some vy ->
          v3_eq (Stl3d.v_p vy) (get3 (Stl3d.ft_p ft) j) = false)
    /\ ((x < Stl3d.num_vertex stl
         /\ Stl3d.num_vertex stl' = Stl3d.num_vertex stl
         /\ (forall pv, Stl3d.v_p (g pv) = Stl3d.v_p pv)
         /\ exists pv, Stl3d.vertex_arr stl !! x = Some pv
                       /\ v3_eq (Stl3d.v_p pv) (get3 (Stl3d.ft_p ft) j) = true)
        \/ (x = Stl3d.num_vertex stl
            /\ Stl3d.num_vertex stl' = S (Stl3d.num_vertex stl)
            /\ forall pv, Stl3d.v_p (g pv) = get3 (Stl3d.ft_p ft) j)).
Proof.
  unfold Stl3d.add_corner.
  destruct (Stl3d.stl_vertex_find _ _ _ _) as [[[x vs'] n'] | x c] eqn:Hfind;
    [| discriminate].
  intros [= <-]. cbn [Stl3d.num_vertex Stl3d.num_face Stl3d.vertex_arr Stl3d.face_arr].
  destruct (stl_vertex_find_cases _ _ _ _ _ _ _ Hfind)
    as [(Hx & -> & -> & Hfound & Hfirst) | (-> & Hroom & -> & -> & Hnone)].
  - exists x, (Stl3d.add_ref i j).
    split; [reflexivity |]. split; [exact Hx |]. split; [lia |].
    split; [tauto |]. split; [reflexivity |]. split; [exact Hfirst |].
    left. split; [exact Hx |]. split; [reflexivity |]. split; [reflexivity |].
    exact Hfound.
  - exists (Stl3d.num_vertex stl),
      (fun pv => Stl3d.add_ref i j (Stl3d.set_v_p (get3 (Stl3d.ft_p ft) j) pv)).
    split; [rewrite list_alter_alter; reflexivity |].
    split; [lia |]. split; [lia |]. split; [lia |].
    split; [reflexivity |]. split; [exact Hnone |].
    right. split; [reflexivity |]. split; [reflexivity |]. reflexivity.
Qed.

Lemma add_corner_overflow v3_eq fts P (ft : Stl3d.stl_3d_file_triangle_t)
    (i j : nat) (stl : Stl3d.stl_3d_t) (x c : nat) :
  parse_inv v3_eq fts P stl ->
  Stl3d.add_corner v3_eq ft i (Stl3d.Done stl) j = Stl3d.Overflow x c ->
  x = length fts /\ c = length fts.
Proof.
  intros Hinv. unfold Stl3d.add_corner.
  destruct (Stl3d.stl_vertex_find _ _ _ _) as [[[y vs'] n'] | y c'] eqn:Hfind;
    [discriminate |].
  intros [= <- <-].
  rewrite <- (pi_vertices _ _ _ _ Hinv).
  eapply stl_vertex_find_overflow; [| exact Hfind].
  rewrite (pi_vertices _ _ _ _ Hinv). apply (pi_count _ _ _ _ Hinv).
Qed.

Lemma set_vertex_lookup (faces : list Stl3d.stl_face_t) (i j x i0 j0 : nat)
    (fc0 : Stl3d.stl_face_t) :
  faces !! i0 = Some fc0 -> j < 3 -> j0 < 3 ->
  exists fc0',
    alter (Stl3d.set_vertex j (Some x)) i faces !! i0 = Some fc0'
    /\ get3 (Stl3d.vertex fc0') j0 =
       if decide (i0 = i /\ j0 = j) then Some x else get3 (Stl3d.vertex fc0) j0.
Proof.
  intros H0 Hj Hj0. eexists. split; [apply lookup_alter_fwd; exact H0 |].
  destruct (decide (i0 = i)) as [-> | Hne].
  - cbn [Stl3d.set_vertex Stl3d.vertex]. rewrite get3_set3 by lia.
    destruct (decide (j0 = j)) as [-> | Hnej].
    + rewrite decide_True by tauto. reflexivity.
    + rewrite decide_False by tauto. reflexivity.
  - rewrite decide_False by tauto. reflexivity.
Qed.

Lemma add_corner_inv v3_eq fts (P : nat -> nat -> Prop)
    (ft : Stl3d.stl_3d_file_triangle_t) (i j : nat) (stl stl' : Stl3d.stl_3d_t) :
  parse_inv v3_eq fts P stl ->
  ~ P i j -> fts !! i = Some ft -> j < 3 ->
  Stl3d.add_corner v3_eq ft i (Stl3d.Done stl) j = Stl3d.Done stl' ->
  parse_inv v3_eq fts (fun i0 j0 => P i0 j0 \/ (i0 = i /\ j0 = j)) stl'.
Proof.
  intros [Hnf Hfl Hvl Hcount Hdist Hcorn Hrefs] HnP Hft Hj Hstep.
  assert (i < length fts) as Hi by (eapply lookup_lt_Some; exact Hft).
  destruct (add_corner_cases _ _ _ _ _ _ Hstep)
    as (x & g & Hstl' & Hx & Hmono & Hcap & Hgrefs & Hfirst & Hcase).
  specialize (Hcap ltac:(lia)).
  set (n := Stl3d.num_vertex stl) in *.
  set (n' := Stl3d.num_vertex stl') in *.
  set (q := get3 (Stl3d.ft_p ft) j) in *.
  assert (forall v pv', v < n -> alter g x (Stl3d.vertex_arr stl) !! v = Some pv' ->
            exists pv, Stl3d.vertex_arr stl !! v = Some pv
                       /\ Stl3d.v_p pv' = Stl3d.v_p pv) as Hold.
  { intros v pv' Hv Hl. apply lookup_alter_inv in Hl as (pv & Hpv & ->).
    exists pv. split; [exact Hpv |].
    destruct (decide (v = x)) as [-> |]; [| reflexivity].
    destruct Hcase as [(_ & _ & Hgp & _) | (Hxn & _)]; [apply Hgp | lia]. }
  assert (forall i0 j0 fc0 r, (i0, j0) <> (i, j) -> j0 < 3 ->
            Stl3d.face_arr stl !! i0 = Some fc0 ->
            get3 (Stl3d.vertex fc0) j0 = r ->
            exists fc0', Stl3d.face_arr stl' !! i0 = Some fc0'
                         /\ get3 (Stl3d.vertex fc0') j0 = r) as Hface.
  { intros i0 j0 fc0 r Hne Hj0 H0 Hr.
    destruct (set_vertex_lookup _ i j x i0 j0 fc0 H0 Hj Hj0) as (fc0' & Hl & Hg).
    exists fc0'. rewrite Hstl'. cbn [Stl3d.face_arr]. split; [exact Hl |].
    rewrite Hg, decide_False; [exact Hr |]. intros [-> ->]. apply Hne. reflexivity. }
  constructor.
  - rewrite Hstl'. exact Hnf.
  - rewrite Hstl'. cbn [Stl3d.face_arr]. rewrite length_alter. exact Hfl.
  - rewrite Hstl'. cbn [Stl3d.vertex_arr]. rewrite length_alter. exact Hvl.
  - fold n'. lia.
  - intros a b va' vb' Hab Ha Hb. fold n' in Hab.
    rewrite Hstl' in Ha, Hb. cbn [Stl3d.vertex_arr] in Ha, Hb.
    destruct (decide (b < n)) as [Hbn | Hbn].
    + destruct (Hold a va' ltac:(lia) Ha) as (va & Hva & ->).
      destruct (Hold b vb' Hbn Hb) as (vb & Hvb & ->).
      apply (Hdist a b va vb); [fold n; lia | exact Hva | exact Hvb].
    + destruct Hcase as [(_ & Hsame & _) | (Hxn & Hn' & Hgp)]; [lia |].
      assert (b = x) as -> by lia.
      destruct (Hold a va' ltac:(lia) Ha) as (va & Hva & ->).
      apply lookup_alter_inv in Hb as (vb & Hvb & ->).
      rewrite decide_True by reflexivity. rewrite Hgp.
      apply (Hfirst a va); [lia | exact Hva].
  - intros i0 j0 [HP | [-> ->]] Hi0 Hj0.
    + destruct (Hcorn i0 j0 HP Hi0 Hj0)
        as (ft0 & fc0 & v0 & pv0 & Hft0 & Hfc0 & Hg0 & Hv0 & Hpv0 & Hp0 & Hfirst0 & Hr0).
      assert ((i0, j0) <> (i, j)) as Hne by (intros [= -> ->]; exact (HnP HP)).
      destruct (Hface i0 j0 fc0 _ Hne Hj0 Hfc0 Hg0) as (fc0' & Hfc0' & Hg0').
      pose proof (lookup_alter_fwd g _ x _ _ Hpv0) as Hpv0'.
      destruct (Hold v0 _ Hv0 Hpv0') as (pv0b & Hpv0b & Hp).
      assert (pv0b = pv0) as -> by congruence.
      exists ft0, fc0', v0, (if decide (v0 = x) then g pv0 else pv0).
      split; [exact Hft0 |]. split; [exact Hfc0' |]. split; [exact Hg0' |].
      split; [fold n'; fold n in Hv0; lia |].
      split; [rewrite Hstl'; exact Hpv0' |].
      split; [rewrite Hp; exact Hp0 |].
      split.
      * intros y vy' Hy Hvy'. rewrite Hstl' in Hvy'. cbn [Stl3d.vertex_arr] in Hvy'.
        destruct (Hold y vy' ltac:(lia) Hvy') as (vy & Hvy & ->).
        apply (Hfirst0 y vy Hy Hvy).
      * destruct (decide (v0 = x)); [| exact Hr0].
        rewrite Hgrefs. apply elem_of_app. left. exact Hr0.
    + destruct (lookup_lt_is_Some_2 (Stl3d.face_arr stl) i ltac:(lia)) as [fc Hfc].
      destruct (set_vertex_lookup _ i j x i j fc Hfc Hj Hj) as (fc' & Hfc' & Hg').
      rewrite decide_True in Hg' by tauto.
      destruct (lookup_lt_is_Some_2 (Stl3d.vertex_arr stl) x ltac:(lia)) as [pvx Hpvx].
      pose proof (lookup_alter_fwd g _ x _ _ Hpvx) as Hpvx'.
      rewrite decide_True in Hpvx' by reflexivity.
      exists ft, fc', x, (g pvx).
      split; [exact Hft |]. split; [rewrite Hstl'; exact Hfc' |].
      split; [exact Hg' |]. split; [exact Hx |].
      split; [rewrite Hstl'; exact Hpvx' |].
      split.
      * destruct Hcase as [(_ & _ & Hgp & pv & Hpv & Heq) | (_ & _ & Hgp)].
        -- right. rewrite Hgp. assert (pv = pvx) as -> by congruence. exact Heq.
        -- left. apply Hgp.
      * split.
        -- intros y vy' Hy Hvy'. rewrite Hstl' in Hvy'. cbn [Stl3d.vertex_arr] in Hvy'.
           apply lookup_alter_inv in Hvy' as (vy & Hvy & ->).
           rewrite decide_False by lia. apply (Hfirst y vy Hy Hvy).
        -- rewrite Hgrefs. apply elem_of_app. right. apply list_elem_of_singleton.
           reflexivity.
  - intros v pv' i0 j0 Hpv' Hin.
    rewrite Hstl' in Hpv'. cbn [Stl3d.vertex_arr] in Hpv'.
    apply lookup_alter_inv in Hpv' as (pv & Hpv & ->).
    assert ((i0, j0) ∈ Stl3d.v_refs pv \/ (v = x /\ i0 = i /\ j0 = j)) as [Hin0 | Hnew].
    { destruct (decide (v = x)) as [-> |]; [| left; exact Hin].
      rewrite Hgrefs in Hin. apply elem_of_app in Hin as [Hin | Hin]; [left; exact Hin |].
      apply list_elem_of_singleton in Hin. injection Hin as -> ->. right. auto. }
    + destruct (Hrefs v pv i0 j0 Hpv Hin0) as (HP & Hi0 & Hj0 & fc0 & Hfc0 & Hg0).
      assert ((i0, j0) <> (i, j)) as Hne by (intros [= -> ->]; exact (HnP HP)).
      destruct (Hface i0 j0 fc0 _ Hne Hj0 Hfc0 Hg0) as (fc0' & Hfc0' & Hg0').
      split; [left; exact HP |]. split; [exact Hi0 |]. split; [exact Hj0 |].
      exists fc0'. split; [exact Hfc0' | exact Hg0'].
    + destruct Hnew as (-> & -> & ->).
      destruct (lookup_lt_is_Some_2 (Stl3d.face_arr stl) i ltac:(lia)) as [fc Hfc].
      destruct (set_vertex_lookup _ i j x i j fc Hfc Hj Hj) as (fc' & Hfc' & Hg').
      rewrite decide_True in Hg' by tauto.
      split; [right; auto |]. split; [exact Hi |]. split; [exact Hj |].
      exists fc'. split; [rewrite Hstl'; exact Hfc' | exact Hg'].
Qed.

Lemma parse_inv_equiv v3_eq fts (P P' : nat -> nat -> Prop) (stl : Stl3d.stl_3d_t) :
  (forall i j, i < length fts -> j < 3 -> (P i j <-> P' i j)) ->
  parse_inv v3_eq fts P stl -> parse_inv v3_eq fts P' stl.
Proof.
  intros Heq [Hnf Hfl Hvl Hcount Hdist Hcorn Hrefs].
  constructor; try assumption.
  - intros i j HP Hi Hj. apply Hcorn; [apply Heq; assumption | exact Hi | exact Hj].
  - intros v pv i j Hpv Hin.
    destruct (Hrefs v pv i j Hpv Hin) as (HP & Hi & Hj & Hfc).
    split; [apply Heq; assumption |]. auto.
Qed.

Lemma add_corner_inv_outcome v3_eq fts (P : nat -> nat -> Prop)
    (ft : Stl3d.stl_3d_file_triangle_t) (i j : nat)
    (acc : Stl3d.outcome Stl3d.stl_3d_t) :
  parse_inv_outcome v3_eq fts P acc ->
  ~ P i j -> fts !! i = Some ft -> j < 3 ->
  parse_inv_outcome v3_eq fts (fun i0 j0 => P i0 j0 \/ (i0 = i /\ j0 = j))
    (Stl3d.add_corner v3_eq ft i acc j).
Proof.
  intros Hacc HnP Hft Hj. destruct acc as [stl | x c]; [| exact Hacc].
  destruct (Stl3d.add_corner v3_eq ft i (Stl3d.Done stl) j) as [stl' | x c] eqn:Hstep.
  - eapply add_corner_inv; eassumption.
  - eapply add_corner_overflow; eassumption.
Qed.

Lemma add_triangle_inv v3_eq fts (ft : Stl3d.stl_3d_file_triangle_t) (i : nat)
    (acc : Stl3d.outcome Stl3d.stl_3d_t) :
  fts !! i = Some ft ->
  parse_inv_outcome v3_eq fts (fun i0 _ => i0 < i) acc ->
  parse_inv_outcome v3_eq fts (fun i0 _ => i0 < S i)
    (Stl3d.add_triangle v3_eq acc (i, ft)).
Proof.
  intros Hft Hacc. unfold Stl3d.add_triangle, edges. cbn [foldl fst snd].
  pose proof (add_corner_inv_outcome v3_eq fts (fun i0 _ => i0 < i) ft i 0 acc Hacc
                ltac:(cbv beta; lia) Hft ltac:(lia)) as H0.
  pose proof (add_corner_inv_outcome v3_eq fts
                (fun i0 j0 => i0 < i \/ (i0 = i /\ j0 = 0)) ft i 1 _ H0
                ltac:(cbv beta; lia) Hft ltac:(lia)) as H1.
  pose proof (add_corner_inv_outcome v3_eq fts
                (fun i0 j0 => (i0 < i \/ (i0 = i /\ j0 = 0)) \/ (i0 = i /\ j0 = 1))
                ft i 2 _ H1
                ltac:(cbv beta; lia) Hft ltac:(lia)) as H2.
  destruct (Stl3d.add_corner v3_eq ft i _ 2) as [stl | x c]; [| exact H2].
  cbn [parse_inv_outcome] in *.
  eapply parse_inv_equiv; [| exact H2].
  intros i0 j0 _ Hj0. cbv beta. lia.
Qed.

Lemma parse_start_inv v3_eq (fts : list Stl3d.stl_3d_file_triangle_t) :
  parse_inv v3_eq fts (fun i0 _ => i0 < 0)
    (Stl3d.Stl3d 0 (length fts) (replicate (length fts) Stl3d.vertex_zero)
       (replicate (length fts) Stl3d.sface_zero)).
Proof.
  constructor; cbn [Stl3d.num_face Stl3d.num_vertex Stl3d.vertex_arr Stl3d.face_arr].
  - reflexivity.
  - apply length_replicate.
  - apply length_replicate.
  - lia.
  - intros a b va vb Hab. cbn in Hab. lia.
  - intros i j Hi. lia.
  - intros v pv i j Hpv Hin. apply lookup_replicate in Hpv as [-> _].
    cbn in Hin. apply elem_of_nil in Hin. contradiction.
Qed.

Lemma vertex_loops_inv v3_eq (fts : list Stl3d.stl_3d_file_triangle_t) (k : nat) :
  k <= length fts ->
  parse_inv_outcome v3_eq fts (fun i0 _ => i0 < k)
    (foldl (Stl3d.add_triangle v3_eq)
       (Stl3d.Done (Stl3d.Stl3d 0 (length fts)
                      (replicate (length fts) Stl3d.vertex_zero)
                      (replicate (length fts) Stl3d.sface_zero)))
       (zip (seq 0 k) (take k fts))).
Proof.
  induction k as [| k IH]; intros Hk.
  - cbn. apply parse_start_inv.
  - destruct (lookup_lt_is_Some_2 fts k ltac:(lia)) as [ft Hft].
    rewrite seq_S, (take_S_r _ _ _ Hft). cbn [Nat.add].
    rewrite zip_with_app by (rewrite length_seq, length_take; lia).
    rewrite foldl_app. cbn [zip_with foldl].
    apply add_triangle_inv; [exact Hft |]. apply IH. lia.
Qed.

Lemma neighbor_step_vertices (f1 i : nat) (fs : list Stl3d.stl_face_t) (j : nat) :
  same_vertices fs (Stl3d.neighbor_step f1 i fs j).
Proof.
  intros a. unfold Stl3d.neighbor_step.
  destruct (decide (f1 = j)); [reflexivity |].
  destruct (fs !! f1) as [c1 |] eqn:H1; [| reflexivity].
  destruct (fs !! j) as [c2 |]; [| reflexivity].
  destruct (negb _); [reflexivity |].
  destruct (decide (a = f1)) as [-> | Hne].
  - rewrite !list_lookup_alter_eq, H1. reflexivity.
  - rewrite !list_lookup_alter_ne by congruence. reflexivity.
Qed.

Lemma same_vertices_trans (fs fs' fs'' : list Stl3d.stl_face_t) :
  same_vertices fs fs' -> same_vertices fs' fs'' -> same_vertices fs fs''.
Proof.
  intros H1 H2 a. rewrite (H2 a). apply H1.
Qed.

Lemma stl_find_neighbors_vertices (n : nat) (fs : list Stl3d.stl_face_t) (f1 : nat) :
  same_vertices fs (Stl3d.stl_find_neighbors n fs f1).
Proof.
  unfold Stl3d.stl_find_neighbors.
  apply (foldl_invariant (same_vertices fs)); [| intros a; reflexivity].
  intros fs1 i _ H1.
  apply (foldl_invariant (same_vertices fs)); [| exact H1].
  intros fs2 j _ H2. eapply same_vertices_trans; [exact H2 |].
  apply neighbor_step_vertices.
Qed.

Lemma same_vertices_length (fs fs' : list Stl3d.stl_face_t) :
  same_vertices fs fs' -> length fs' = length fs.
Proof.
  intros H.
  destruct (Nat.lt_trichotomy (length fs') (length fs)) as [Hlt | [Heq | Hgt]];
    [| exact Heq |].
  - pose proof (H (length fs')) as Ha.
    rewrite (lookup_ge_None_2 fs') in Ha by lia.
    destruct (lookup_lt_is_Some_2 fs (length fs') Hlt) as [c Hc].
    rewrite Hc in Ha. discriminate.
  - pose proof (H (length fs)) as Ha.
    rewrite (lookup_ge_None_2 fs) in Ha by lia.
    destruct (lookup_lt_is_Some_2 fs' (length fs) Hgt) as [c Hc].
    rewrite Hc in Ha. discriminate.
Qed.

Lemma same_vertices_lookup (fs fs' : list Stl3d.stl_face_t) (a : nat)
    (c : Stl3d.stl_face_t) :
  same_vertices fs fs' -> fs !! a = Some c ->
  exists c', fs' !! a = Some c' /\ Stl3d.vertex c' = Stl3d.vertex c.
Proof.
  intros H Hc. pose proof (H a) as Ha. rewrite Hc in Ha.
  destruct (fs' !! a) as [c' |]; [| discriminate].
  exists c'. split; [reflexivity |]. cbn in Ha. congruence.
Qed.

Lemma parse_inv_same_vertices v3_eq fts P (stl : Stl3d.stl_3d_t)
    (fs' : list Stl3d.stl_face_t) :
  parse_inv v3_eq fts P stl ->
  same_vertices (Stl3d.face_arr stl) fs' ->
  parse_inv v3_eq fts P
    (Stl3d.Stl3d (Stl3d.num_vertex stl) (Stl3d.num_face stl)
       (Stl3d.vertex_arr stl) fs').
Proof.
  intros [Hnf Hfl Hvl Hcount Hdist Hcorn Hrefs] Hsame.
  constructor; cbn [Stl3d.num_face Stl3d.num_vertex Stl3d.vertex_arr Stl3d.face_arr];
    try assumption.
  - rewrite (same_vertices_length _ _ Hsame). exact Hfl.
  - intros i j HP Hi Hj.
    destruct (Hcorn i j HP Hi Hj)
      as (ft & fc & v & pv & Hft & Hfc & Hg & Hv & Hpv & Hp & Hfirst & Hr).
    destruct (same_vertices_lookup _ _ _ _ Hsame Hfc) as (fc' & Hfc' & Hvert).
    exists ft, fc', v, pv. rewrite Hvert. auto 10.
  - intros v pv i j Hpv Hin.
    destruct (Hrefs v pv i j Hpv Hin) as (HP & Hi & Hj & fc & Hfc & Hg).
    destruct (same_vertices_lookup _ _ _ _ Hsame Hfc) as (fc' & Hfc' & Hvert).
    split; [exact HP |]. split; [exact Hi |]. split; [exact Hj |].
    exists fc'. rewrite Hvert. auto.
Qed.

Lemma neighbor_loops_vertices (n : nat) (l : list nat) (fs : list Stl3d.stl_face_t) :
  same_vertices fs (foldl (Stl3d.stl_find_neighbors n) fs l).
Proof.
  apply (foldl_invariant (same_vertices fs)); [| intros a; reflexivity].
  intros fs1 f1 _ H1. eapply same_vertices_trans; [exact H1 |].
  apply stl_find_neighbors_vertices.
Qed.

Lemma stl_3d_parse_outcome v3_eq (fts : list Stl3d.stl_3d_file_triangle_t) :
  parse_inv_outcome v3_eq fts (fun _ _ => True) (Stl3d.stl_3d_parse v3_eq fts).
Proof.
  unfold Stl3d.stl_3d_parse. cbv zeta.
  pose proof (vertex_loops_inv v3_eq fts (length fts) ltac:(lia)) as Hloops.
  rewrite take_ge in Hloops by lia.
  destruct (foldl (Stl3d.add_triangle v3_eq) _ _) as [stl1 | x c]; [| exact Hloops].
  cbn [parse_inv_outcome] in *.
  apply parse_inv_same_vertices; [| apply neighbor_loops_vertices].
  eapply parse_inv_equiv; [| exact Hloops].
  intros i j Hi Hj. cbv beta. tauto.
Qed.

(** Every corner of the file gets a vertex.  On a run of [stl_3d_parse]
    in which [stl_vertex_find] never writes past the end of the vertex
    array ([Done]; a mesh with more different corners than triangles is not
    such a run), both arrays have one entry per triangle and each corner
    of each triangle points to a vertex in use: the first vertex of the
    array that equals the corner's point, or, when none did, the vertex
    created from that point; the vertex lists the corner among its
    references. *)
Theorem parse_assigns_every_corner v3_eq
    (fts : list Stl3d.stl_3d_file_triangle_t) (stl : Stl3d.stl_3d_t) :
  Stl3d.stl_3d_parse v3_eq fts = Stl3d.Done stl ->
  Stl3d.num_face stl = length fts
  /\ length (Stl3d.face_arr stl) = length fts
  /\ length (Stl3d.vertex_arr stl) = length fts
  /\ forall i j, i < length fts -> j < 3 -> corner_ok v3_eq fts stl i j.
Proof.
  intros Hparse. pose proof (stl_3d_parse_outcome v3_eq fts) as H.
  rewrite Hparse in H. destruct H as [Hnf Hfl Hvl Hcount Hdist Hcorn Hrefs].
  repeat split; try assumption. intros i j Hi Hj. apply Hcorn; [exact I | exact Hi | exact Hj].
Qed.

Lemma parse_assigns_every_corner_witness :
  Stl3d.num_face parsed_tetrahedron
  = length (Mesh.file_triangle <$> Mesh.tetrahedron 0)
  /\ length (Stl3d.face_arr parsed_tetrahedron)
     = length (Mesh.file_triangle <$> Mesh.tetrahedron 0)
  /\ length (Stl3d.vertex_arr parsed_tetrahedron)
     = length (Mesh.file_triangle <$> Mesh.tetrahedron 0)
  /\ forall i j, i < length (Mesh.file_triangle <$> Mesh.tetrahedron 0) -> j < 3 ->
       corner_ok v3_eq (Mesh.file_triangle <$> Mesh.tetrahedron 0)
         parsed_tetrahedron i j.
Proof.
  apply (parse_assigns_every_corner v3_eq
           (Mesh.file_triangle <$> Mesh.tetrahedron 0) parsed_tetrahedron).
  vm_compute. reflexivity.
Defined.

(** The vertices [stl_3d_parse] keeps are pairwise different: no vertex in
    use equals an earlier one. *)
Theorem parse_vertices_distinct v3_eq
    (fts : list Stl3d.stl_3d_file_triangle_t) (stl : Stl3d.stl_3d_t) :
  Stl3d.stl_3d_parse v3_eq fts = Stl3d.Done stl ->
  vertices_distinct v3_eq stl.
Proof.
  intros Hparse. pose proof (stl_3d_parse_outcome v3_eq fts) as H.
  rewrite Hparse in H. apply (pi_distinct _ _ _ _ H).
Qed.

Lemma parse_vertices_distinct_witness :
  vertices_distinct v3_eq parsed_tetrahedron.
Proof.
  apply (parse_vertices_distinct v3_eq
           (Mesh.file_triangle <$> Mesh.tetrahedron 0) parsed_tetrahedron).
  vm_compute. reflexivity.
Defined.

(** The references of a vertex are exactly the corners that point to it:
    [(i, j)] is listed in a vertex if and only if corner [j] of face [i]
    holds that vertex. *)
Theorem parse_back_references v3_eq
    (fts : list Stl3d.stl_3d_file_triangle_t) (stl : Stl3d.stl_3d_t)
    (v : nat) (pv : Stl3d.stl_vertex_t) (i j : nat) :
  Stl3d.stl_3d_parse v3_eq fts = Stl3d.Done stl ->
  Stl3d.vertex_arr stl !! v = Some pv ->
  (i, j) ∈ Stl3d.v_refs pv
  <-> i < length fts /\ j < 3
      /\ exists fc, Stl3d.face_arr stl !! i = Some fc
                    /\ get3 (Stl3d.vertex fc) j = Some v.
Proof.
  intros Hparse Hpv. pose proof (stl_3d_parse_outcome v3_eq fts) as H.
  rewrite Hparse in H. destruct H as [Hnf Hfl Hvl Hcount Hdist Hcorn Hrefs].
  split.
  - intros Hin. destruct (Hrefs v pv i j Hpv Hin) as (_ & Hi & Hj & Hfc). auto.
  - intros (Hi & Hj & fc & Hfc & Hg).
    destruct (Hcorn i j I Hi Hj)
      as (ft & fc' & v' & pv' & _ & Hfc' & Hg' & _ & Hpv' & _ & _ & Hr).
    assert (fc' = fc) as -> by congruence.
    assert (v' = v) as -> by congruence.
    assert (pv' = pv) as -> by congruence.
    exact Hr.
Qed.

Lemma parse_back_references_witness :
  (0, 0) ∈ Stl3d.v_refs (Stl3d.Vertex (Mesh.pt 0 0 0) [(0, 0); (1, 0); (3, 0)])
  <-> 0 < length (Mesh.file_triangle <$> Mesh.tetrahedron 0) /\ 0 < 3
      /\ exists fc, Stl3d.face_arr parsed_tetrahedron !! 0 = Some fc
                    /\ get3 (Stl3d.vertex fc) 0 = Some 0.
Proof.
  apply (parse_back_references v3_eq
           (Mesh.file_triangle <$> Mesh.tetrahedron 0) parsed_tetrahedron
           0 (Stl3d.Vertex (Mesh.pt 0 0 0) [(0, 0); (1, 0); (3, 0)]) 0 0).
  - vm_compute. reflexivity.
  - vm_compute. reflexivity.
Defined.

(** The first write [stl_3d_parse] makes outside the vertex array, when it
    makes one, is to the entry just past its end, index [num_triangles].
    (The code has no bounds test and goes on from there; the model stops
    at this first write.) *)
Theorem parse_overflow_at_capacity v3_eq
    (fts : list Stl3d.stl_3d_file_triangle_t) (x c : nat) :
  Stl3d.stl_3d_parse v3_eq fts = Stl3d.Overflow x c ->
  x = length fts /\ c = length fts.
Proof.
  intros Hparse. pose proof (stl_3d_parse_outcome v3_eq fts) as H.
  rewrite Hparse in H. exact H.
Qed.

Lemma parse_overflow_at_capacity_witness :
  2 = length (Mesh.file_triangle <$> Mesh.pair)
  /\ 2 = length (Mesh.file_triangle <$> Mesh.pair).
Proof.
  apply (parse_overflow_at_capacity v3_eq (Mesh.file_triangle <$> Mesh.pair) 2 2).
  vm_compute. reflexivity.
Defined.

(** ** The neighbours built by [stl_3d_parse] *)

Lemma stl_has_edge_vertex (c c' : Stl3d.stl_face_t) (v1 v2 : option nat) :
  Stl3d.vertex c' = Stl3d.vertex c ->
  Stl3d.stl_has_edge c' v1 v2 = Stl3d.stl_has_edge c v1 v2.
Proof.
  intros H. unfold Stl3d.stl_has_edge. rewrite H. reflexivity.
Qed.

Lemma shares_edge_same_vertices (fs fs' : list Stl3d.stl_face_t) (f1 i j : nat) :
  same_vertices fs fs' ->
  shares_edge fs' f1 i j = shares_edge fs f1 i j.
Proof.
  intros H. unfold shares_edge.
  pose proof (H f1) as H1. pose proof (H j) as Hj.
  destruct (fs !! f1) as [c1 |], (fs' !! f1) as [c1' |]; try discriminate;
    [| reflexivity].
  destruct (fs !! j) as [c2 |], (fs' !! j) as [c2' |]; try discriminate;
    [| reflexivity].
  cbn in H1, Hj. injection H1 as H1. injection Hj as Hj.
  rewrite H1, (stl_has_edge_vertex c2 c2') by exact Hj. reflexivity.
Qed.

Lemma last_sharing_same_vertices (n : nat) (fs fs' : list Stl3d.stl_face_t)
    (f1 i : nat) :
  same_vertices fs fs' ->
  last_sharing n fs' f1 i = last_sharing n fs f1 i.
Proof.
  intros H. unfold last_sharing. f_equal. apply list_filter_iff.
  intros j. rewrite (shares_edge_same_vertices _ _ _ _ _ H). reflexivity.
Qed.

Lemma neighbor_loops_exact (n : nat) (fs0 : list Stl3d.stl_face_t) (k : nat) :
  Forall (fun fc => Stl3d.face fc = fill3 None) fs0 ->
  k <= length fs0 ->
  (forall a c i, a < k -> i < 3 ->
     foldl (Stl3d.stl_find_neighbors n) fs0 (seq 0 k) !! a = Some c ->
     get3 (Stl3d.face c) i = last_sharing n fs0 a i)
  /\ (forall a, k <= a ->
        foldl (Stl3d.stl_find_neighbors n) fs0 (seq 0 k) !! a = fs0 !! a).
Proof.
  intros Hnull. induction k as [| k IH]; intros Hk.
  - split; [intros a c i Ha; lia | reflexivity].
  - destruct (IH ltac:(lia)) as [Hdone Hrest].
    rewrite seq_S, foldl_app. cbn [Nat.add foldl].
    pose proof (neighbor_loops_vertices n (seq 0 k) fs0) as Hsame.
    set (fsk := foldl (Stl3d.stl_find_neighbors n) fs0 (seq 0 k)) in *.
    destruct (lookup_lt_is_Some_2 fs0 k ltac:(lia)) as [c0 Hc0].
    assert (fsk !! k = Some c0) as Hck by (rewrite Hrest by lia; exact Hc0).
    destruct (stl_find_neighbors_slots n fsk k c0 Hck)
      as (c1' & Hc1' & Hvert & Hothers & Hslots).
    split.
    + intros a c i Ha Hi Hc. destruct (decide (a = k)) as [-> | Hne].
      * assert (c = c1') as -> by congruence.
        rewrite (Hslots i Hi), (last_sharing_same_vertices n fs0 fsk) by exact Hsame.
        destruct (last_sharing n fs0 k i); [reflexivity |].
        rewrite Forall_lookup in Hnull. rewrite (Hnull k c0 Hc0).
        destruct i as [| [| i]]; reflexivity.
      * rewrite Hothers in Hc by exact Hne. apply Hdone; [lia | exact Hi | exact Hc].
    + intros a Ha. rewrite Hothers by lia. apply Hrest. lia.
Qed.

Lemma neighbor_step_angles (f1 i : nat) (fs : list Stl3d.stl_face_t) (j : nat) :
  angles_zero fs -> angles_zero (Stl3d.neighbor_step f1 i fs j).
Proof.
  intros H. unfold Stl3d.neighbor_step.
  destruct (decide (f1 = j)); [exact H |].
  destruct (fs !! f1) as [c1 |]; [| exact H].
  destruct (fs !! j) as [c2 |]; [| exact H].
  destruct (negb _); [exact H |].
  apply Forall_alter.
  - apply Forall_alter; [exact H |]. intros c _ Hc. exact Hc.
  - intros c _ Hc. cbn [Stl3d.set_angle Stl3d.angle]. rewrite Hc.
    apply set3_fill3.
Qed.

Lemma add_triangle_angles v3_eq acc ift :
  match acc with
  | Stl3d.Done stl => angles_zero (Stl3d.face_arr stl)
  | Stl3d.Overflow _ _ => True
  end ->
  match Stl3d.add_triangle v3_eq acc ift with
  | Stl3d.Done stl => angles_zero (Stl3d.face_arr stl)
  | Stl3d.Overflow _ _ => True
  end.
Proof.
  unfold Stl3d.add_triangle.
  apply (foldl_invariant
           (fun acc => match acc with
                       | Stl3d.Done stl => angles_zero (Stl3d.face_arr stl)
                       | Stl3d.Overflow _ _ => True
                       end)).
  intros a j _ Ha. unfold Stl3d.add_corner.
  destruct a as [stl | x c]; [| exact I].
  destruct (Stl3d.stl_vertex_find _ _ _ _) as [[[v vs] n] | x c]; [| exact I].
  cbn [Stl3d.face_arr]. apply Forall_alter; [exact Ha |].
  intros fc _ Hfc. exact Hfc.
Qed.

(** The neighbours of the result of [stl_3d_parse].  Slot [i] of face [a]
    holds the last face of the array, other than [a], that has both end
    vertices of edge [i] among its three, and is null when no other face
    has them; every angle is [0.0]. *)
Theorem parse_neighbours_exact v3_eq
    (fts : list Stl3d.stl_3d_file_triangle_t) (stl : Stl3d.stl_3d_t)
    (a : nat) (c : Stl3d.stl_face_t) (i : nat) :
  Stl3d.stl_3d_parse v3_eq fts = Stl3d.Done stl ->
  Stl3d.face_arr stl !! a = Some c -> i < 3 ->
  get3 (Stl3d.face c) i = last_sharing (length fts) (Stl3d.face_arr stl) a i
  /\ get3 (Stl3d.angle c) i = S754_zero false.
Proof.
  intros Hparse Hc Hi.
  pose proof (vertex_loops_inv v3_eq fts (length fts) ltac:(lia)) as Hinv.
  rewrite take_ge in Hinv by lia.
  revert Hparse. unfold Stl3d.stl_3d_parse. cbv zeta.
  destruct (foldl (Stl3d.add_triangle v3_eq) _ _) as [stl1 | x c'] eqn:Hfold;
    [| discriminate].
  intros [= <-]. cbn [Stl3d.face_arr] in *. cbn [parse_inv_outcome] in Hinv.
  rewrite (pi_num_face _ _ _ _ Hinv) in *.
  assert (slots_null (Stl3d.Done stl1)) as Hnull.
  { rewrite <- Hfold. apply (foldl_invariant slots_null).
    - intros acc ift _. apply add_triangle_slots_null.
    - cbn. apply Forall_replicate. reflexivity. }
  cbn [slots_null] in Hnull.
  pose proof (neighbor_loops_vertices (length fts) (seq 0 (length fts))
                (Stl3d.face_arr stl1)) as Hsame.
  split.
  - rewrite (last_sharing_same_vertices _ _ _ _ _ Hsame).
    destruct (neighbor_loops_exact (length fts) (Stl3d.face_arr stl1) (length fts)
                Hnull ltac:(rewrite (pi_faces _ _ _ _ Hinv); lia)) as [Hdone _].
    apply Hdone; [| exact Hi | exact Hc].
    apply lookup_lt_Some in Hc.
    rewrite (same_vertices_length _ _ Hsame), (pi_faces _ _ _ _ Hinv) in Hc. exact Hc.
  - assert (angles_zero
              (foldl (Stl3d.stl_find_neighbors (length fts)) (Stl3d.face_arr stl1)
                 (seq 0 (length fts)))) as Hang.
    { apply (foldl_invariant angles_zero).
      - intros fs f1 _ Hfs. unfold Stl3d.stl_find_neighbors.
        apply (foldl_invariant angles_zero); [| exact Hfs].
        intros fs1 i1 _ H1.
        apply (foldl_invariant angles_zero); [| exact H1].
        intros fs2 j _ H2. apply neighbor_step_angles. exact H2.
      - change (match Stl3d.Done stl1 with
                | Stl3d.Done stl => angles_zero (Stl3d.face_arr stl)
                | Stl3d.Overflow _ _ => True
                end).
        rewrite <- Hfold.
        apply (foldl_invariant
                 (fun acc => match acc with
                             | Stl3d.Done stl => angles_zero (Stl3d.face_arr stl)
                             | Stl3d.Overflow _ _ => True
                             end)).
        + intros acc ift _. apply add_triangle_angles.
        + cbn. apply Forall_replicate. reflexivity. }
    unfold angles_zero in Hang. rewrite Forall_lookup in Hang.
    rewrite (Hang a c Hc). destruct i as [| [| i]]; reflexivity.
Qed.

Lemma parse_neighbours_exact_witness :
  get3 (Array3 (Some 3) (Some 2) (Some 1)) 0
  = last_sharing (length (Mesh.file_triangle <$> Mesh.tetrahedron 0))
      (Stl3d.face_arr parsed_tetrahedron) 0 0
  /\ get3 (fill3 (S754_zero false)) 0 = S754_zero false.
Proof.
  apply (parse_neighbours_exact v3_eq
           (Mesh.file_triangle <$> Mesh.tetrahedron 0) parsed_tetrahedron 0
           (Stl3d.SFace (Array3 (Some 0) (Some 1) (Some 2))
              (Array3 (Some 3) (Some 2) (Some 1)) (fill3 (S754_zero false))) 0).
  - vm_compute. reflexivity.
  - vm_compute. reflexivity.
  - lia.
Defined.

(** * Further properties of [unfold.c]: the length of an edge *)

Lemma fsub_diag (a : float32) : is_number a = true -> fsub a a = S754_zero false.
Proof.
  destruct a as [[|] | [|] | | s m e]; try reflexivity; try discriminate.
  intros _. unfold fsub, SFsub. rewrite Z.sub_diag. reflexivity.
Qed.

Lemma fmul_opp_opp (d : float32) : fmul (SFopp d) (SFopp d) = fmul d d.
Proof.
  destruct d as [[|] | [|] | | [|] m e]; reflexivity.
Qed.

Lemma fmul_fsub_swap (a b : float32) :
  fmul (fsub b a) (fsub b a) = fmul (fsub a b) (fsub a b).
Proof.
  destruct a as [sa | sa | | sa ma ea], b as [sb | sb | | sb mb eb].
  all: try (destruct sa, sb; reflexivity).
  all: try (destruct sa; reflexivity).
  all: try (destruct sb; reflexivity).
  all: try reflexivity.
  unfold fsub, SFsub. rewrite (Z.min_comm eb ea).
  set (ez := Z.min ea eb).
  set (A := cond_Zopp sa (Z.pos (shl_align ma ea ez).1)).
  set (B := cond_Zopp sb (Z.pos (shl_align mb eb ez).1)).
  replace (B - A)%Z with (- (A - B))%Z by lia.
  rewrite binary_normalize_opp.
  destruct (A - B)%Z eqn:E; [reflexivity | |]; apply fmul_opp_opp.
Qed.

(** The length of an edge does not depend on the order of its two ends. *)
Theorem v3_len_symmetric (v0 v1 : v3_t) : v3_len v0 v1 = v3_len v1 v0.
Proof.
  unfold v3_len. cbv zeta.
  rewrite (fmul_fsub_swap (get3 (p v0) 0)), (fmul_fsub_swap (get3 (p v0) 1)),
    (fmul_fsub_swap (get3 (p v0) 2)).
  reflexivity.
Qed.

(** The distance of a point from itself is [+0.0] when its coordinates are
    numbers. *)
Theorem v3_len_self (v : v3_t) :
  is_number (get3 (p v) 0) && is_number (get3 (p v) 1) && is_number (get3 (p v) 2)
  = true ->
  v3_len v v = S754_zero false.
Proof.
  intros H. apply andb_prop in H as [H Hz]. apply andb_prop in H as [Hx Hy].
  unfold v3_len. cbv zeta. rewrite !fsub_diag by assumption. reflexivity.
Qed.

Lemma v3_len_self_witness : v3_len (Mesh.pt 1 0 0) (Mesh.pt 1 0 0) = S754_zero false.
Proof.
  apply (v3_len_self (Mesh.pt 1 0 0)). vm_compute. reflexivity.
Defined.
